(** * MazeGame engine: tile map, maze generator, collision system, game loop

    A shallow embedding of the TypeScript engine (TileMap.ts, Collision.ts,
    Entity.ts, Input.ts, GameEngine.ts) together with the properties of the
    design specification that are stated about it.

    Conventions of the embedding.
    - Tile and lattice coordinates, widths and heights are integers ([Z]).
    - World coordinates, sizes, velocities and times are JavaScript numbers;
      they are idealised as exact rationals ([Q]).  Comparisons are the
      semantic ones of [Q]; rounding is not represented.
    - A JavaScript exception is a value [Throw e] of the type [result].
    - Objects mutated in place become explicit state passing: a method that
      mutates its receiver returns the new receiver. *)

From Stdlib Require Import ZArith QArith Qround Lia Lqa List Ascii String.
From stdpp Require Import base decidable option list list_numbers sorting gmap strings.

Local Open Scope Z_scope.

(** ** Exceptions *)

Inductive JsError := RangeError | TypeError.

Inductive result (A : Type) :=
| Ok (a : A)
| Throw (e : JsError).
Arguments Ok {A} a.
Arguments Throw {A} e.

Definition bind_result {A B} (r : result A) (k : A → result B) : result B :=
  match r with
  | Ok a => k a
  | Throw e => Throw e
  end.

(** ** types.ts *)

Inductive Direction := UP | RIGHT | DOWN | LEFT | NONE.

Inductive TileType := EMPTY | WALL | START | END | PATH.

Global Instance TileType_eq_dec : EqDecision TileType.
Proof. solve_decision. Defined.

(** [TileType] is a numeric enum; [checkGameState] and [restart] compare the
    tile type with the literals 3 and 2. *)
Definition TileType_code (k : TileType) : Z :=
  match k with
  | EMPTY => 0
  | WALL => 1
  | START => 2
  | END => 3
  | PATH => 4
  end.

(** A [Vector2D] whose components are tile indices. *)
Definition Vector2D : Type := Z * Z.

Record GameState := mkGameState {
  gs_running : bool;
  gs_paused : bool;
  gs_score : Z;
  gs_level : Z;
  gameOver : bool;
  won : bool
}.

(** ** TileMap.ts: tiles, layers, the tile map *)

(** The [properties] bag of a tile is the empty object everywhere in the
    engine and is never read; it is left out. *)
Record Tile := mkTile {
  tile_id : Z;
  type : TileType;
  solid : bool;
  spriteId : option string
}.

Record TileLayer := mkLayer {
  layer_id : string;
  tiles : list (list Tile);        (* tiles[y][x] *)
  visible : bool
}.

Record TileMap := mkTileMap {
  width : Z;
  height : Z;
  tileSize : Q;
  layers : list TileLayer
}.

(** [new TileMap(width, height, tileSize)]: the constructor stores its
    arguments and starts with no layer.  It contains no check. *)
Definition TileMap_new (w h : Z) (ts : Q) : result TileMap :=
  Ok {| width := w; height := h; tileSize := ts; layers := [] |}.

Definition emptyTile : Tile :=
  {| tile_id := 0; type := EMPTY; solid := false; spriteId := None |}.

(** The two nested [for] loops of [createLayer] fill [height] rows of [width]
    tiles (none when the bound is not positive). *)
Definition createLayer (m : TileMap) (id : string) : TileMap * TileLayer :=
  let tiles := replicate (Z.to_nat (height m)) (replicate (Z.to_nat (width m)) emptyTile) in
  let layer := {| layer_id := id; tiles := tiles; visible := true |} in
  ({| width := width m; height := height m; tileSize := tileSize m;
      layers := layers m ++ [layer] |}, layer).

Definition getLayer (m : TileMap) (id : string) : option TileLayer :=
  find (λ l, bool_decide (layer_id l = id)) (layers m).

Definition out_of_range (m : TileMap) (layerIndex x y : Z) : bool :=
  (layerIndex <? 0) || (Z.of_nat (length (layers m)) <=? layerIndex) ||
  (x <? 0) || (width m <=? x) || (y <? 0) || (height m <=? y).

Definition getTile (m : TileMap) (layerIndex x y : Z) : option Tile :=
  if out_of_range m layerIndex x y then None
  else
    l ← layers m !! Z.to_nat layerIndex;
    row ← tiles l !! Z.to_nat y;
    row !! Z.to_nat x.

Definition set_layer_tile (x y : Z) (t : Tile) (l : TileLayer) : TileLayer :=
  {| layer_id := layer_id l;
     tiles := alter (λ row, <[Z.to_nat x := t]> row) (Z.to_nat y) (tiles l);
     visible := visible l |}.

Definition setTile (m : TileMap) (layerIndex x y : Z) (t : Tile) : TileMap :=
  if out_of_range m layerIndex x y then m
  else
    {| width := width m; height := height m; tileSize := tileSize m;
       layers := alter (set_layer_tile x y t) (Z.to_nat layerIndex) (layers m) |}.

Definition tile_solid (o : option Tile) : bool :=
  match o with
  | Some t => solid t
  | None => false
  end.

Definition isSolid (m : TileMap) (x y : Z) : bool :=
  existsb (λ i, tile_solid (getTile m (Z.of_nat i) x y)) (seq 0 (length (layers m))).

(** ** TileMap.ts: the maze generator *)

Record MazeGenerator := mkMazeGenerator {
  mg_width : Z;
  mg_height : Z
}.

(** [new MazeGenerator(width, height)]: stores its arguments, no check. *)
Definition MazeGenerator_new (w h : Z) : result MazeGenerator :=
  Ok {| mg_width := w; mg_height := h |}.

Definition wallTile : Tile :=
  {| tile_id := 1; type := WALL; solid := true; spriteId := None |}.
Definition startTile : Tile :=
  {| tile_id := 2; type := START; solid := false; spriteId := None |}.
Definition endTile : Tile :=
  {| tile_id := 3; type := END; solid := false; spriteId := None |}.
Definition pathTile : Tile :=
  {| tile_id := 4; type := PATH; solid := false; spriteId := None |}.

Definition startX : Z := 1.
Definition startY : Z := 1.

(** "Initialize all cells as walls": [for y in 0..height) for x in 0..width)]. *)
Definition fill_walls (w h : Z) (m : TileMap) : TileMap :=
  foldl (λ m y, foldl (λ m x, setTile m 0 x y wallTile) m (seqZ 0 w)) m (seqZ 0 h).

(** [Array(n)] throws a RangeError unless [n] is an array length. *)
Definition array_length_ok (n : Z) : bool := (0 <=? n) && (n <? 2 ^ 32).

(** [Array(height).fill(0).map(() => Array(width).fill(false))]: the callback
    building a row runs only when there is at least one row. *)
Definition new_visited (w h : Z) : result (list (list bool)) :=
  if negb (array_length_ok h) then Throw RangeError
  else if (0 <? h) && negb (array_length_ok w) then Throw RangeError
  else Ok (replicate (Z.to_nat h) (replicate (Z.to_nat w) false)).

(** A JavaScript array store [l[i] = v]: past the end the array grows, and the
    holes read as [undefined], which the generator only ever negates; they are
    represented by the default [d]. *)
Definition js_store {A} (d : A) (i : nat) (v : A) (l : list A) : list A :=
  if decide (i < length l)%nat then <[i := v]> l
  else l ++ replicate (i - length l) d ++ [v].

(** [visited[startY][startX] = true]: a TypeError when the row is undefined. *)
Definition mark_start (visited : list (list bool)) : result (list (list bool)) :=
  match visited !! Z.to_nat startY with
  | None => Throw TypeError
  | Some row =>
      Ok (<[Z.to_nat startY := js_store false (Z.to_nat startX) true row]> visited)
  end.

Definition is_visited (visited : list (list bool)) (x y : Z) : bool :=
  default false (row ← visited !! Z.to_nat y; row !! Z.to_nat x).

(** [visited[next.y][next.x] = true] inside the loop; the neighbour test keeps
    [next] strictly inside the array ([push_next_grid] below), so this store
    neither grows the array nor throws. *)
Definition mark_visited (visited : list (list bool)) (x y : Z) : list (list bool) :=
  alter (λ row, <[Z.to_nat x := true]> row) (Z.to_nat y) visited.

Definition directions : list Vector2D := [(0, -2); (2, 0); (0, 2); (-2, 0)].

Definition neighbor_ok (w h : Z) (visited : list (list bool)) (n : Vector2D) : bool :=
  (0 <? n.1) && (n.1 <? w - 1) && (0 <? n.2) && (n.2 <? h - 1) &&
  negb (is_visited visited n.1 n.2).

Definition neighbors (w h : Z) (visited : list (list bool)) (current : Vector2D)
  : list Vector2D :=
  List.filter (neighbor_ok w h visited)
    ((λ dir : Vector2D, (current.1 + dir.1, current.2 + dir.2)) <$> directions).

(** The state of the carving loop.  [cs_random] is the supply behind
    [Math.random()]: the next draw [r] selects index [r mod n] among [n]
    candidates, so that every choice the source can make, and no other, is
    obtained from some supply. *)
Record CarveState := mkCarve {
  cs_map : TileMap;
  cs_visited : list (list bool);
  cs_stack : list Vector2D;          (* top of the stack first *)
  cs_random : list nat
}.

Definition random_index (rnd : list nat) (n : nat) : nat :=
  (hd 0%nat rnd mod n)%nat.

(** One iteration of [while (stack.length > 0)]. *)
Definition carve_step (w h : Z) (st : CarveState) : CarveState :=
  match cs_stack st with
  | [] => st
  | current :: rest =>
      let ns := neighbors w h (cs_visited st) current in
      if (0 <? length ns)%nat then
        let next := nth (random_index (cs_random st) (length ns)) ns current in
        let wallX := current.1 + (next.1 - current.1) / 2 in
        let wallY := current.2 + (next.2 - current.2) / 2 in
        let m1 := setTile (cs_map st) 0 wallX wallY pathTile in
        let visited := mark_visited (cs_visited st) next.1 next.2 in
        let m2 := setTile m1 0 next.1 next.2 pathTile in
        {| cs_map := m2; cs_visited := visited;
           cs_stack := next :: current :: rest;
           cs_random := tl (cs_random st) |}
      else
        {| cs_map := cs_map st; cs_visited := cs_visited st;
           cs_stack := rest; cs_random := cs_random st |}
  end.

Fixpoint carve_loop (fuel : nat) (w h : Z) (st : CarveState) : CarveState :=
  match fuel with
  | O => st
  | S fuel' =>
      match cs_stack st with
      | [] => st
      | _ :: _ => carve_loop fuel' w h (carve_step w h st)
      end
  end.

(** Ceiling of [n / 2]. *)
Definition half_up (n : Z) : Z := (n + 1) / 2.

(** Enough iterations for the loop to empty its stack
    (theorem [carve_loop_terminates]). *)
Definition carve_fuel (w h : Z) : nat :=
  S (2 * Z.to_nat (half_up w * half_up h)).

(** The values of [for (let i = 1; i < n - 1; i += 2)]. *)
Definition odd_range (n : Z) : list Z :=
  (λ i, 2 * i + 1) <$> seqZ 0 ((n - 1) / 2).

Definition manhattan (c : Vector2D) : Z :=
  Z.abs (c.1 - startX) + Z.abs (c.2 - startY).

Definition is_path (o : option Tile) : bool :=
  match o with
  | Some t => bool_decide (type t = PATH)
  | None => false
  end.

(** "Set end position (furthest from start)": the scan keeps
    [(maxDistance, (endX, endY))]. *)
Definition scan_cell (m : TileMap) (acc : Z * Vector2D) (c : Vector2D) : Z * Vector2D :=
  if is_path (getTile m 0 c.1 c.2) then
    let distance := manhattan c in
    if acc.1 <? distance then (distance, c) else acc
  else acc.

Definition scan_end (w h : Z) (m : TileMap) : Z * Vector2D :=
  foldl (λ acc y, foldl (λ acc x, scan_cell m acc (x, y)) acc (odd_range w))
        (0, (startX, startY)) (odd_range h).

(** [generate()] up to the entry of the carving loop. *)
Definition carve_init (g : MazeGenerator) (rnd : list nat) : result CarveState :=
  let w := mg_width g in
  let h := mg_height g in
  bind_result (TileMap_new w h 32) (λ tileMap,
  let tileMap := (createLayer tileMap "maze").1 in
  let tileMap := fill_walls w h tileMap in
  bind_result (new_visited w h) (λ visited,
  bind_result (mark_start visited) (λ visited,
  let tileMap := setTile tileMap 0 startX startY startTile in
  Ok {| cs_map := tileMap; cs_visited := visited;
        cs_stack := [(startX, startY)]; cs_random := rnd |}))).

(** [generate()] up to and including the carving loop. *)
Definition carve (g : MazeGenerator) (rnd : list nat) : result CarveState :=
  bind_result (carve_init g rnd) (λ st,
  Ok (carve_loop (carve_fuel (mg_width g) (mg_height g)) (mg_width g) (mg_height g) st)).

Definition place_end (w h : Z) (m : TileMap) : TileMap :=
  let e := (scan_end w h m).2 in
  setTile m 0 e.1 e.2 endTile.

Definition generate (g : MazeGenerator) (rnd : list nat) : result TileMap :=
  bind_result (carve g rnd) (λ st,
  Ok (place_end (mg_width g) (mg_height g) (cs_map st))).

(** ** Entity.ts *)

Record PlayerData := mkPlayerData {
  health : Q;
  score : Q;
  speed : Q
}.

(** [BaseEntity], and [Player] when [as_player] is present.  The sprite and
    the property bag play no part in the simulation and are left out. *)
Record Entity := mkEntity {
  e_id : string;
  e_x : Q;
  e_y : Q;
  e_width : Q;
  e_height : Q;
  velocity : Q * Q;
  e_solid : bool;
  active : bool;
  tags : list string;
  as_player : option PlayerData
}.

Definition set_position (e : Entity) (x y : Q) : Entity :=
  {| e_id := e_id e; e_x := x; e_y := y; e_width := e_width e; e_height := e_height e;
     velocity := velocity e; e_solid := e_solid e; active := active e;
     tags := tags e; as_player := as_player e |}.

Definition set_velocity (e : Entity) (v : Q * Q) : Entity :=
  {| e_id := e_id e; e_x := e_x e; e_y := e_y e; e_width := e_width e;
     e_height := e_height e; velocity := v; e_solid := e_solid e; active := active e;
     tags := tags e; as_player := as_player e |}.

Definition set_player (e : Entity) (p : option PlayerData) : Entity :=
  {| e_id := e_id e; e_x := e_x e; e_y := e_y e; e_width := e_width e;
     e_height := e_height e; velocity := velocity e; e_solid := e_solid e;
     active := active e; tags := tags e; as_player := p |}.

Definition BaseEntity_new (id : string) (x y w h : Q) : Entity :=
  {| e_id := id; e_x := x; e_y := y; e_width := w; e_height := h; velocity := (0, 0)%Q;
     e_solid := true; active := true; tags := []; as_player := None |}.

Definition Player_new (id : string) (x y w h : Q) : Entity :=
  {| e_id := id; e_x := x; e_y := y; e_width := w; e_height := h; velocity := (0, 0)%Q;
     e_solid := true; active := true; tags := ["player"];
     as_player := Some {| health := 100; score := 0; speed := 150 |} |}.

(** [BaseEntity.update(deltaTime)]; [Player.update] only calls it. *)
Definition entity_update (deltaTime : Q) (e : Entity) : Entity :=
  set_position e (e_x e + (velocity e).1 * (deltaTime / 1000))%Q
                 (e_y e + (velocity e).2 * (deltaTime / 1000))%Q.

(** [Player.move(direction)]. *)
Definition move (direction : Direction) (e : Entity) : Entity :=
  match as_player e with
  | None => e
  | Some p =>
      set_velocity e
        match direction with
        | UP => (0, - speed p)%Q
        | RIGHT => (speed p, 0)%Q
        | DOWN => (0, speed p)%Q
        | LEFT => (- speed p, 0)%Q
        | NONE => (0, 0)%Q
        end
  end.

Definition includes (l : list string) (s : string) : bool := bool_decide (s ∈ l).

(** [onCollision(other)]: nothing for a [BaseEntity], the health and score
    policy for a [Player]. *)
Definition onCollision (e other : Entity) : Entity :=
  match as_player e with
  | None => e
  | Some p =>
      if includes (tags other) "enemy" then
        set_player e (Some {| health := health p - 10; score := score p; speed := speed p |}%Q)
      else if includes (tags other) "collectible" then
        set_player e (Some {| health := health p; score := score p + 10; speed := speed p |}%Q)
      else e
  end.

(** ** Collision.ts *)

Definition Qlt_bool (a b : Q) : bool := negb (Qle_bool b a).

(** [Math.min] on two numbers. *)
Definition js_min (a b : Q) : Q := if Qlt_bool b a then b else a.

Definition checkCollision (entity1 entity2 : Entity) : bool :=
  if negb (e_solid entity1) || negb (e_solid entity2) then false
  else
    Qlt_bool (e_x entity1) (e_x entity2 + e_width entity2) &&
    Qlt_bool (e_x entity2) (e_x entity1 + e_width entity1) &&
    Qlt_bool (e_y entity1) (e_y entity2 + e_height entity2) &&
    Qlt_bool (e_y entity2) (e_y entity1 + e_height entity1).

(** The values of [for (let i = a; i <= b; i++)]. *)
Definition range_incl (a b : Z) : list Z := seqZ a (b - a + 1).

Definition layer_indices (m : TileMap) : list Z :=
  seqZ 0 (Z.of_nat (length (layers m))).

(** [checkTileCollision]: the colliding tiles in scan order (layer, then row,
    then column).  [collided] is true exactly when the list is not empty.
    The tile range is computed with [Math.floor]; the model is meant for a
    non-zero tile size (JavaScript would produce non-finite indices for 0). *)
Definition checkTileCollision (entity : Entity) (tileMap : TileMap)
  : bool * list (Z * Z * Tile) :=
  if negb (e_solid entity) then (false, [])
  else
    let tileSize := tileSize tileMap in
    let startX := Qfloor (e_x entity / tileSize) in
    let startY := Qfloor (e_y entity / tileSize) in
    let endX := Qfloor ((e_x entity + e_width entity - 1) / tileSize) in
    let endY := Qfloor ((e_y entity + e_height entity - 1) / tileSize) in
    let collisionTiles :=
      layerIndex ← layer_indices tileMap;
      y ← range_incl startY endY;
      x ← range_incl startX endX;
      match getTile tileMap layerIndex x y with
      | Some tile => if solid tile then [(x, y, tile)] else []
      | None => []
      end in
    (bool_decide (collisionTiles ≠ []), collisionTiles).

(** The part of [resolveCollision] and of [resolveTileCollision] that pushes
    the entity out of the rectangle at [(bx, by)] of size [bw] by [bh]. *)
Definition push_out (entity : Entity) (bx by_ bw bh : Q) : Entity :=
  let overlapX := js_min (e_x entity + e_width entity - bx) (bx + bw - e_x entity) in
  let overlapY := js_min (e_y entity + e_height entity - by_) (by_ + bh - e_y entity) in
  if Qlt_bool overlapX overlapY then
    (* Resolve horizontally *)
    let e1 :=
      if Qlt_bool (e_x entity) bx then set_position entity (bx - e_width entity) (e_y entity)
      else set_position entity (bx + bw) (e_y entity) in
    set_velocity e1 (0, (velocity e1).2)%Q
  else
    (* Resolve vertically *)
    let e1 :=
      if Qlt_bool (e_y entity) by_ then set_position entity (e_x entity) (by_ - e_height entity)
      else set_position entity (e_x entity) (by_ + bh) in
    set_velocity e1 ((velocity e1).1, 0)%Q.

(** [resolveCollision(entity1, entity2)] returns both entities as mutated. *)
Definition resolveCollision (entity1 entity2 : Entity) : Entity * Entity :=
  if negb (checkCollision entity1 entity2) then (entity1, entity2)
  else
    let entity1 := push_out entity1 (e_x entity2) (e_y entity2)
                            (e_width entity2) (e_height entity2) in
    let entity1 := onCollision entity1 entity2 in
    let entity2 := onCollision entity2 entity1 in
    (entity1, entity2).

Definition resolve_tile (tileMap : TileMap) (entity : Entity) (c : Z * Z * Tile) : Entity :=
  let tileX := (inject_Z c.1.1 * tileSize tileMap)%Q in
  let tileY := (inject_Z c.1.2 * tileSize tileMap)%Q in
  push_out entity tileX tileY (tileSize tileMap) (tileSize tileMap).

Definition resolveTileCollision (entity : Entity) (tileMap : TileMap) : Entity :=
  let result := checkTileCollision entity tileMap in
  if negb result.1 then entity
  else foldl (resolve_tile tileMap) entity result.2.

(** ** Input.ts *)

(** [toLowerCase] on the ASCII letters, which is all the engine's key names
    need.  Cased letters outside ASCII, which JavaScript lowers as well, are
    left as they are. *)
Definition lower_ascii (c : ascii) : ascii :=
  let n := Ascii.nat_of_ascii c in
  if ((65 <=? n) && (n <=? 90))%nat then Ascii.ascii_of_nat (n + 32) else c.

Fixpoint toLowerCase (s : string) : string :=
  match s with
  | EmptyString => EmptyString
  | String c s' => String (lower_ascii c) (toLowerCase s')
  end.

Record InputSystem := mkInput {
  keys : gmap string bool;
  previousKeys : gmap string bool
}.

Inductive InputEvent :=
| KeyDown (key : string)
| KeyUp (key : string)
| Blur.

Definition handleKeyDown (i : InputSystem) (key : string) : InputSystem :=
  {| keys := <[toLowerCase key := true]> (keys i); previousKeys := previousKeys i |}.

Definition handleKeyUp (i : InputSystem) (key : string) : InputSystem :=
  {| keys := <[toLowerCase key := false]> (keys i); previousKeys := previousKeys i |}.

Definition input_reset (i : InputSystem) : InputSystem :=
  {| keys := ∅; previousKeys := ∅ |}.

Definition InputSystem_new : InputSystem := {| keys := ∅; previousKeys := ∅ |}.

(** [update()]: [previousKeys = { ...keys }]. *)
Definition input_update (i : InputSystem) : InputSystem :=
  {| keys := keys i; previousKeys := keys i |}.

(** [!!m[k]] *)
Definition truthy (m : gmap string bool) (k : string) : bool :=
  default false (m !! k).

Definition isKeyDown (i : InputSystem) (key : string) : bool :=
  truthy (keys i) (toLowerCase key).

Definition isKeyPressed (i : InputSystem) (key : string) : bool :=
  truthy (keys i) (toLowerCase key) && negb (truthy (previousKeys i) (toLowerCase key)).

Definition isKeyReleased (i : InputSystem) (key : string) : bool :=
  negb (truthy (keys i) (toLowerCase key)) && truthy (previousKeys i) (toLowerCase key).

Definition getDirection (i : InputSystem) : Direction :=
  if isKeyDown i "arrowup" || isKeyDown i "w" then UP
  else if isKeyDown i "arrowright" || isKeyDown i "d" then RIGHT
  else if isKeyDown i "arrowdown" || isKeyDown i "s" then DOWN
  else if isKeyDown i "arrowleft" || isKeyDown i "a" then LEFT
  else NONE.

(** The browser delivers keyboard and focus events between frame callbacks. *)
Definition deliver (i : InputSystem) (ev : InputEvent) : InputSystem :=
  match ev with
  | KeyDown k => handleKeyDown i k
  | KeyUp k => handleKeyUp i k
  | Blur => input_reset i
  end.

(** ** GameEngine.ts *)

(** [player] is a reference to one of the objects held in [entities]; it is
    represented by the index of that object, so that a mutation through
    either name is seen through the other.  The canvas, the rendering context
    and the sprite map are rendering state and are left out. *)
Record GameEngine := mkEngine {
  lastTime : Q;
  running : bool;
  paused : bool;
  accumulator : Q;
  inputSystem : InputSystem;
  tileMap : option TileMap;
  entities : list Entity;
  player : option nat;
  state : GameState
}.

Definition fps : Q := 60.
Definition frameTime : Q := 1000 / fps.

Definition initialState (run : bool) : GameState :=
  {| gs_running := run; gs_paused := false; gs_score := 0; gs_level := 1;
     gameOver := false; won := false |}.

Definition GameEngine_new : GameEngine :=
  {| lastTime := 0; running := false; paused := false; accumulator := 0;
     inputSystem := InputSystem_new; tileMap := None; entities := []; player := None;
     state := initialState false |}.

Definition with_entities (g : GameEngine) (es : list Entity) : GameEngine :=
  {| lastTime := lastTime g; running := running g; paused := paused g;
     accumulator := accumulator g; inputSystem := inputSystem g; tileMap := tileMap g;
     entities := es; player := player g; state := state g |}.

Definition with_state (g : GameEngine) (s : GameState) : GameEngine :=
  {| lastTime := lastTime g; running := running g; paused := paused g;
     accumulator := accumulator g; inputSystem := inputSystem g; tileMap := tileMap g;
     entities := entities g; player := player g; state := s |}.

Definition with_accumulator (g : GameEngine) (a : Q) : GameEngine :=
  {| lastTime := lastTime g; running := running g; paused := paused g;
     accumulator := a; inputSystem := inputSystem g; tileMap := tileMap g;
     entities := entities g; player := player g; state := state g |}.

Definition set_flags (g : GameEngine) (run pause : bool) (s : GameState) (t : Q)
  : GameEngine :=
  {| lastTime := t; running := run; paused := pause;
     accumulator := accumulator g; inputSystem := inputSystem g; tileMap := tileMap g;
     entities := entities g; player := player g; state := s |}.

Definition set_state_flags (s : GameState) (run pause : bool) : GameState :=
  {| gs_running := run; gs_paused := pause; gs_score := gs_score s;
     gs_level := gs_level s; gameOver := gameOver s; won := won s |}.

(** [start()], [pause()], [resume()] and [stop()].  [now] stands for
    [performance.now()]; the first frame callback is scheduled by the
    browser. *)
Definition engine_start (g : GameEngine) : GameEngine :=
  if running g then g
  else set_flags g true false (set_state_flags (state g) true false) (lastTime g).

Definition engine_pause (g : GameEngine) : GameEngine :=
  set_flags g (running g) true
            (set_state_flags (state g) (gs_running (state g)) true) (lastTime g).

Definition engine_resume (now : Q) (g : GameEngine) : GameEngine :=
  if negb (running g) then g
  else set_flags g (running g) false
                 (set_state_flags (state g) (gs_running (state g)) false) now.

Definition engine_stop (g : GameEngine) : GameEngine :=
  set_flags g false (paused g)
            (set_state_flags (state g) false (gs_paused (state g))) (lastTime g).

Definition setTileMap (g : GameEngine) (m : TileMap) : GameEngine :=
  {| lastTime := lastTime g; running := running g; paused := paused g;
     accumulator := accumulator g; inputSystem := inputSystem g; tileMap := Some m;
     entities := entities g; player := player g; state := state g |}.

(** [addEntity]: [entity instanceof Player] is [as_player] being present. *)
Definition addEntity (g : GameEngine) (entity : Entity) : GameEngine :=
  {| lastTime := lastTime g; running := running g; paused := paused g;
     accumulator := accumulator g; inputSystem := inputSystem g; tileMap := tileMap g;
     entities := entities g ++ [entity];
     player := match as_player entity with
               | Some _ => Some (length (entities g))
               | None => player g
               end;
     state := state g |}.

Definition the_player (g : GameEngine) : option Entity :=
  i ← player g; entities g !! i.

(** The scan of [restart] for the Start tile.  The [break] leaves the inner
    loop only, so the scan goes on with the next row and the last row holding
    a Start tile decides; within a row the first Start tile does. *)
Definition restart_row (m : TileMap) (y : Z) (p : Entity) : Entity :=
  match List.find (λ x, match getTile m 0 x y with
                        | Some tile => bool_decide (TileType_code (type tile) = 2)
                        | None => false
                        end) (seqZ 0 (width m)) with
  | Some x => set_position p (inject_Z x * tileSize m)%Q (inject_Z y * tileSize m)%Q
  | None => p
  end.

Definition restart_player (m : option TileMap) (p : Entity) : Entity :=
  let p := match as_player p with
           | Some d => set_player p (Some {| health := 100; score := 0; speed := speed d |})
           | None => p
           end in
  match m with
  | Some m => foldl (λ p y, restart_row m y p) p (seqZ 0 (height m))
  | None => p
  end.

Definition restart (g : GameEngine) : GameEngine :=
  let g := with_state g (initialState true) in
  match player g with
  | Some i => with_entities g (alter (restart_player (tileMap g)) i (entities g))
  | None => g
  end.

Definition set_outcome (s : GameState) (over w : bool) : GameState :=
  {| gs_running := gs_running s; gs_paused := gs_paused s; gs_score := gs_score s;
     gs_level := gs_level s; gameOver := over; won := w |}.

(** The win test of [checkGameState].  As in [checkTileCollision], the cell
    index is meaningful for a non-zero tile size. *)
Definition win_check (g : GameEngine) (p : Entity) (s : GameState) : GameState :=
  match tileMap g with
  | Some m =>
      let playerTileX := Qfloor (e_x p / tileSize m) in
      let playerTileY := Qfloor (e_y p / tileSize m) in
      match getTile m 0 playerTileX playerTileY with
      | Some tile =>
          if bool_decide (TileType_code (type tile) = 3) then set_outcome s true true else s
      | None => s
      end
  | None => s
  end.

(** The lose test of [checkGameState]: a second, independent [if]. *)
Definition lose_check (p : Entity) (s : GameState) : GameState :=
  match as_player p with
  | Some d => if Qle_bool (health d) 0 then set_outcome s true false else s
  | None => s
  end.

Definition checkGameState (g : GameEngine) : GameEngine :=
  match the_player g with
  | None => g
  | Some p =>
      let s := win_check g p (state g) in
      let s := lose_check p s in
      let g := with_state g s in
      if gameOver s && isKeyPressed (inputSystem g) "space" then restart g else g
  end.

(** The pairwise pass of [update]: [entities[i]] against every later
    [entities[j]], both mutated in place. *)
Definition collide_pair (i j : nat) (es : list Entity) : list Entity :=
  match es !! i, es !! j with
  | Some entity1, Some entity2 =>
      if negb (active entity2) || negb (e_solid entity2) then es
      else if checkCollision entity1 entity2 then
        let r := resolveCollision entity1 entity2 in
        <[j := r.2]> (<[i := r.1]> es)
      else es
  | _, _ => es
  end.

Definition collide_from (i : nat) (es : list Entity) : list Entity :=
  match es !! i with
  | Some entity1 =>
      if negb (active entity1) || negb (e_solid entity1) then es
      else foldl (λ es j, collide_pair i j es) es (seq (S i) (length es - S i))
  | None => es
  end.

Definition collide_all (es : list Entity) : list Entity :=
  foldl (λ es i, collide_from i es) es (seq 0 (length es)).

(** What one [update] does to the entity list, given the direction read from
    the input system. *)
Definition step_entities (m : option TileMap) (pl : option nat) (deltaTime : Q)
    (direction : Direction) (es : list Entity) : list Entity :=
  let es := match pl with
            | Some i => alter (move direction) i es
            | None => es
            end in
  let es := (λ e, if active e then entity_update deltaTime e else e) <$> es in
  let es := match m with
            | Some m => (λ e, if active e && e_solid e
                              then resolveTileCollision e m else e) <$> es
            | None => es
            end in
  collide_all es.

Definition update (deltaTime : Q) (g : GameEngine) : GameEngine :=
  let direction := getDirection (inputSystem g) in
  let g := with_entities g
             (step_entities (tileMap g) (player g) deltaTime direction (entities g)) in
  checkGameState g.

(** [while (accumulator >= frameTime) { update(frameTime); accumulator -= frameTime }] *)
Fixpoint physics_loop (fuel : nat) (g : GameEngine) : GameEngine :=
  match fuel with
  | O => g
  | S fuel' =>
      if Qle_bool frameTime (accumulator g) then
        let g := update frameTime g in
        physics_loop fuel' (with_accumulator g (accumulator g - frameTime)%Q)
      else g
  end.

(** The number of passes the loop makes: it leaves on its own test after
    that many (lemma [physics_loop_exit]). *)
Definition steps_due (acc : Q) : nat := Z.to_nat (Qfloor (acc / frameTime)).

(** The frame callback.  Rendering does not change the simulated state. *)
Definition gameLoop (timestamp : Q) (g : GameEngine) : GameEngine :=
  if negb (running g) then g
  else
    let deltaTime := (timestamp - lastTime g)%Q in
    let g := {| lastTime := timestamp; running := running g; paused := paused g;
                accumulator := accumulator g; inputSystem := input_update (inputSystem g);
                tileMap := tileMap g; entities := entities g; player := player g;
                state := state g |} in
    if negb (paused g) then
      let g := with_accumulator g (accumulator g + deltaTime)%Q in
      physics_loop (steps_due (accumulator g)) g
    else g.

(** A run of the engine: before each frame callback the browser delivers some
    input events, then calls [gameLoop] with a timestamp. *)
Definition Frame : Type := list InputEvent * Q.

Definition with_input (g : GameEngine) (i : InputSystem) : GameEngine :=
  {| lastTime := lastTime g; running := running g; paused := paused g;
     accumulator := accumulator g; inputSystem := i; tileMap := tileMap g;
     entities := entities g; player := player g; state := state g |}.

Definition run_frame (g : GameEngine) (f : Frame) : GameEngine :=
  gameLoop f.2 (with_input g (foldl deliver (inputSystem g) f.1)).

Definition run_frames (fs : list Frame) (g : GameEngine) : GameEngine :=
  foldl run_frame g fs.

(** ** Vocabulary of the maze properties *)

(** The tile of the maze layer at a cell. *)
Definition tile_at (m : TileMap) (c : Vector2D) : option Tile := getTile m 0 c.1 c.2.

(** A cell of the grid whose tile is not solid. *)
Definition is_open (m : TileMap) (c : Vector2D) : bool :=
  match tile_at m c with
  | Some t => negb (solid t)
  | None => false
  end.

(** A tile of kind Path, Start or End. *)
Definition carved_kind (t : Tile) : bool :=
  match type t with
  | PATH | START | END => true
  | EMPTY | WALL => false
  end.

(** 4-adjacency. *)
Definition adjacent (a b : Vector2D) : Prop :=
  Z.abs (a.1 - b.1) + Z.abs (a.2 - b.2) = 1.

(** [reach P a c]: there is a path of 4-adjacent cells satisfying [P] from
    [a] to [c]. *)
Inductive reach (P : Vector2D → Prop) : Vector2D → Vector2D → Prop :=
| reach_here c : P c → reach P c c
| reach_next a b c : reach P a b → adjacent b c → P c → reach P a c.

Definition reachable (m : TileMap) : Vector2D → Vector2D → Prop :=
  reach (λ c, is_open m c = true).

(** Consecutive cells of the list are adjacent. *)
Fixpoint walk (l : list Vector2D) : Prop :=
  match l with
  | a :: (b :: _) as t => adjacent a b ∧ walk t
  | _ => True
  end.

(** The last cell of the list is adjacent to the first. *)
Definition closed (l : list Vector2D) : Prop :=
  match l with
  | [] => False
  | a :: t => adjacent (List.last t a) a
  end.

(** A simple cycle among the cells satisfying [P]: at least three distinct
    cells, each adjacent to the next and the last to the first. *)
Definition simple_cycle (P : Vector2D → Prop) (l : list Vector2D) : Prop :=
  (3 ≤ length l)%nat ∧ NoDup l ∧ Forall P l ∧ walk l ∧ closed l.

Definition acyclic (m : TileMap) : Prop :=
  ∀ l, ¬ simple_cycle (λ c, is_open m c = true) l.

(** All cells of the grid, and the two counts of the tree property: the
    carved cells of the odd sub-lattice, and the carved cells off it (the
    removed walls between lattice cells). *)
Definition grid_cells (m : TileMap) : list Vector2D :=
  y ← seqZ 0 (height m); x ← seqZ 0 (width m); [(x, y)].

Definition on_lattice (c : Vector2D) : bool := Z.odd c.1 && Z.odd c.2.

Definition carved_cells (m : TileMap) : nat :=
  length (List.filter (λ c, is_open m c && on_lattice c) (grid_cells m)).

Definition removed_walls (m : TileMap) : nat :=
  length (List.filter (λ c, is_open m c && negb (on_lattice c)) (grid_cells m)).

(** The cells the end-selection scan looks at, in the order it does. *)
Definition lattice_cells (w h : Z) : list Vector2D :=
  y ← odd_range h; x ← odd_range w; [(x, y)].

(** Row-major order of the scan: [a] is looked at strictly before [b]. *)
Definition scan_before (a b : Vector2D) : Prop :=
  a.2 < b.2 ∨ (a.2 = b.2 ∧ a.1 < b.1).

(** The cells marked visited and pushed by the first [fuel] iterations of the
    carving loop, in order: an iteration pushes exactly when it leaves the
    stack longer than it found it. *)
Fixpoint visits (fuel : nat) (w h : Z) (st : CarveState) : list Vector2D :=
  match fuel with
  | O => []
  | S fuel' =>
      match cs_stack st with
      | [] => []
      | _ :: _ =>
          let st' := carve_step w h st in
          (if (length (cs_stack st) <? length (cs_stack st'))%nat
           then take 1 (cs_stack st') else [])
          ++ visits fuel' w h st'
      end
  end.

(** ** Invariant of the carving loop *)

Definition in_grid (w h : Z) (c : Vector2D) : Prop :=
  0 ≤ c.1 < w ∧ 0 ≤ c.2 < h.

(** Strictly inside the border, on odd coordinates. *)
Definition inner_lattice (w h : Z) (c : Vector2D) : Prop :=
  0 < c.1 < w - 1 ∧ 0 < c.2 < h - 1 ∧ c.1 mod 2 = 1 ∧ c.2 mod 2 = 1.

(** The maze layer is the only layer and has [h] rows of [w] tiles. *)
Definition wf_map (w h : Z) (m : TileMap) : Prop :=
  width m = w ∧ height m = h ∧
  ∃ l, layers m = [l] ∧ length (tiles l) = Z.to_nat h ∧
       Forall (λ row, length row = Z.to_nat w) (tiles l).

Definition wf_visited (w h : Z) (v : list (list bool)) : Prop :=
  length v = Z.to_nat h ∧ Forall (λ row, (Z.to_nat w ≤ length row)%nat) v.

(** [c] is the cell between the lattice cells [p] and [q], two apart. *)
Definition between (p q c : Vector2D) : Prop :=
  (q.1 - p.1, q.2 - p.2) ∈ directions ∧
  c = (p.1 + (q.1 - p.1) / 2, p.2 + (q.2 - p.2) / 2).

Definition start : Vector2D := (startX, startY).

(** The tile the loop has left at a cell of the grid, given the cells visited
    so far and the walls removed so far. *)
Definition expected_tile (V W : list Vector2D) (c : Vector2D) : Tile :=
  if decide (c = start) then startTile
  else if decide (c ∈ V ∨ c ∈ W) then pathTile
  else wallTile.

(** [V] lists the cells marked visited (latest first), [W] the wall cells
    removed.  A visited cell that has left the stack has no unvisited
    neighbour left ([inv_closed]). *)
Record carve_inv (w h : Z) (V W : list Vector2D) (st : CarveState) : Prop := {
  inv_wf : wf_map w h (cs_map st);
  inv_vwf : wf_visited w h (cs_visited st);
  inv_V_nodup : NoDup V;
  inv_start : start ∈ V;
  inv_V_lat : ∀ c, c ∈ V → c = start ∨ inner_lattice w h c;
  inv_visited : ∀ c, in_grid w h c →
                     (is_visited (cs_visited st) c.1 c.2 = true ↔ c ∈ V);
  inv_stack : ∀ c, c ∈ cs_stack st → c ∈ V;
  inv_closed : ∀ c n, c ∈ V → c ∉ cs_stack st →
                      (n.1 - c.1, n.2 - c.2) ∈ directions →
                      0 < n.1 < w - 1 → 0 < n.2 < h - 1 → n ∈ V;
  inv_W_nodup : NoDup W;
  inv_W : ∀ c, c ∈ W → ∃ p q, p ∈ V ∧ q ∈ V ∧ q ≠ start ∧ between p q c;
  inv_count : length V = S (length W);
  inv_tiles : ∀ c, in_grid w h c → tile_at (cs_map st) c = Some (expected_tile V W c);
  inv_reach : ∀ c, is_open (cs_map st) c = true → reachable (cs_map st) start c;
  inv_acyclic : acyclic (cs_map st)
}.

(** The potential that every iteration lowers by one. *)
Definition potential (w h : Z) (V : list Vector2D) (st : CarveState) : nat :=
  (2 * (S (length (lattice_cells w h)) - length V) + length (cs_stack st))%nat.

(** ** Vocabulary of the collision and engine properties *)

(** The overlap depths that [resolveCollision] compares. *)
Definition overlapX (a b : Entity) : Q :=
  js_min (e_x a + e_width a - e_x b) (e_x b + e_width b - e_x a).

Definition overlapY (a b : Entity) : Q :=
  js_min (e_y a + e_height a - e_y b) (e_y b + e_height b - e_y a).

(** The number of passes [physics_loop] makes from an accumulator value. *)
Fixpoint loop_steps (fuel : nat) (acc : Q) : nat :=
  match fuel with
  | O => O
  | S fuel' =>
      if Qle_bool frameTime acc then S (loop_steps fuel' (acc - frameTime)%Q) else O
  end.

(** The physics steps a frame callback runs, and the direction each of them
    reads from the input system. *)
Definition frame_steps (g : GameEngine) (f : Frame) : nat :=
  if running g && negb (paused g) then
    let acc := (accumulator g + (f.2 - lastTime g))%Q in
    loop_steps (steps_due acc) acc
  else O.

Definition frame_direction (g : GameEngine) (f : Frame) : Direction :=
  getDirection (foldl deliver (inputSystem g) f.1).

(** The per-step sequence of directions consumed by a run. *)
Fixpoint run_directions (fs : list Frame) (g : GameEngine) : list Direction :=
  match fs with
  | [] => []
  | f :: fs' =>
      replicate (frame_steps g f) (frame_direction g f)
      ++ run_directions fs' (run_frame g f)
  end.

(** The bodies after a sequence of physics steps, one per direction. *)
Definition play (m : option TileMap) (pl : option nat) (ds : list Direction)
    (es : list Entity) : list Entity :=
  foldl (λ es d, step_entities m pl frameTime d es) es ds.

(** ** Sample inputs *)

Definition sample_generator : MazeGenerator := {| mg_width := 5; mg_height := 5 |}.

Definition sample_random : list nat := [2%nat; 0%nat; 1%nat].

(** The state in which [generate] enters its loop on the sample. *)
Definition sample_entry : CarveState :=
  Eval vm_compute in
    match carve_init sample_generator sample_random with
    | Ok st => st
    | Throw _ =>
        {| cs_map := {| width := 0; height := 0; tileSize := 0; layers := [] |};
           cs_visited := []; cs_stack := []; cs_random := [] |}
    end.

Definition no_map : TileMap :=
  {| width := 0; height := 0; tileSize := 0; layers := [] |}.

(** The maze [generate] returns on the sample. *)
Definition sample_maze : TileMap :=
  Eval vm_compute in
    match generate sample_generator sample_random with
    | Ok m => m
    | Throw _ => no_map
    end.

(** The state in which the carving loop ends on the sample. *)
Definition sample_carved : CarveState :=
  Eval vm_compute in
    match carve sample_generator sample_random with
    | Ok st => st
    | Throw _ => {| cs_map := no_map; cs_visited := []; cs_stack := []; cs_random := [] |}
    end.

(** A generator one cell wide, and the map it returns. *)
Definition narrow_generator : MazeGenerator := {| mg_width := 1; mg_height := 3 |}.

Definition narrow_maze : TileMap :=
  Eval vm_compute in
    match generate narrow_generator [] with
    | Ok m => m
    | Throw _ => no_map
    end.

(** The smallest generator with an interior cell, and the map it returns. *)
Definition tiny_generator : MazeGenerator := {| mg_width := 3; mg_height := 3 |}.

Definition tiny_carved : CarveState :=
  Eval vm_compute in
    match carve tiny_generator [] with
    | Ok st => st
    | Throw _ => {| cs_map := no_map; cs_visited := []; cs_stack := []; cs_random := [] |}
    end.

Definition tiny_maze : TileMap :=
  Eval vm_compute in
    match generate tiny_generator [] with
    | Ok m => m
    | Throw _ => no_map
    end.

(** Two overlapping boxes whose overlap depths are equal (5 on each axis). *)
Definition box_a : Entity :=
  set_velocity (BaseEntity_new "a" 0 0 10 10) (3, 4)%Q.
Definition box_b : Entity := BaseEntity_new "b" 5 5 10 10.

(** A 3 by 3 map of walls, and a body inside its middle tile. *)
Definition wall_map : TileMap :=
  Eval vm_compute in
    fill_walls 3 3
      (createLayer {| width := 3; height := 3; tileSize := 32; layers := [] |} "walls").1.

Definition stuck_body : Entity := BaseEntity_new "body" 40 40 24 24.

(** A body overlapping the top border of the sample maze above its start
    cell. *)
Definition border_body : Entity := BaseEntity_new "body" 40 8 24 24.

(** An engine holding the 3 by 3 maze, whose only open cell is the End cell
    (1,1), with a player standing on it whose health is spent. *)
Definition spent_player : Entity :=
  set_player (Player_new "player" 32 32 24 24)
             (Some {| health := 0; score := 0; speed := 150 |}).

Definition tiny_engine : GameEngine :=
  engine_start (addEntity (setTileMap GameEngine_new tiny_maze) spent_player).

(** An engine holding the sample maze with a player on its start cell. *)
Definition sample_engine : GameEngine :=
  engine_start
    (addEntity (setTileMap GameEngine_new sample_maze) (Player_new "player" 32 32 24 24)).

(** Two schedules of the same two physics steps with the right-arrow key
    held: one frame of 40 ms, or two frames of 20 ms. *)
Definition one_long_frame : list Frame := [([KeyDown "ArrowRight"], 40%Q)].
Definition two_short_frames : list Frame :=
  [([KeyDown "ArrowRight"], 20%Q); ([], 40%Q)].

(** The state in which the carving loop ends for the narrow generator. *)
Definition narrow_carved : CarveState :=
  Eval vm_compute in
    match carve narrow_generator [] with
    | Ok st => st
    | Throw _ => {| cs_map := no_map; cs_visited := []; cs_stack := []; cs_random := [] |}
    end.

(** ** Further parts of the engine *)

(** [TileMap.worldToTile] and [TileMap.tileToWorld]. *)
Definition worldToTile (m : TileMap) (position : Q * Q) : Vector2D :=
  (Qfloor (position.1 / tileSize m), Qfloor (position.2 / tileSize m)).

Definition tileToWorld (m : TileMap) (tile : Vector2D) : Q * Q :=
  (inject_Z tile.1 * tileSize m, inject_Z tile.2 * tileSize m)%Q.

(** The tile maps a program can build: the constructor, then [createLayer]
    and [setTile] in any order. *)
Inductive built : TileMap → Prop :=
| built_new w h ts : built {| width := w; height := h; tileSize := ts; layers := [] |}
| built_layer m id : built m → built (createLayer m id).1
| built_set m layerIndex x y t : built m → built (setTile m layerIndex x y t).

(** Every layer has [height] rows of [width] tiles. *)
Definition layer_ok (w h : Z) (l : TileLayer) : Prop :=
  length (tiles l) = Z.to_nat h ∧ Forall (λ row, length row = Z.to_nat w) (tiles l).

Definition map_ok (m : TileMap) : Prop :=
  Forall (layer_ok (width m) (height m)) (layers m).

(** Two maps with the same tile size and the same layer ids. *)
Definition same_frame (m m' : TileMap) : Prop :=
  tileSize m' = tileSize m ∧ layer_id <$> layers m' = layer_id <$> layers m.

(** [GameEngine.removeEntity]: [findIndex] by id, then [splice].  The player
    reference is cleared when it is the removed object, and otherwise keeps
    denoting the same object, whose index moves down by one when the removed
    object stood before it. *)
Definition removeEntity (g : GameEngine) (entityId : string) : GameEngine :=
  match list_find (λ e, e_id e = entityId) (entities g) with
  | Some (index, _) =>
      {| lastTime := lastTime g; running := running g; paused := paused g;
         accumulator := accumulator g; inputSystem := inputSystem g; tileMap := tileMap g;
         entities := delete index (entities g);
         player := match player g with
                   | Some i =>
                       if decide (i = index) then None
                       else if decide (index < i)%nat then Some (i - 1)%nat
                       else Some i
                   | None => None
                   end;
         state := state g |}
  | None => g
  end.

(** The player reference of an engine denotes an instance of [Player] held in
    the entity list. *)
Definition player_ok (g : GameEngine) : Prop :=
  match player g with
  | Some i => ∃ e, entities g !! i = Some e ∧ is_Some (as_player e)
  | None => True
  end.

(** [GameEngine.init()]: [now] stands for [performance.now()]; the listeners
    and the canvas are outside the model. *)
Definition engine_init (now : Q) (g : GameEngine) : GameEngine :=
  set_flags g (running g) (paused g) (state g) now.

(** The tile map of the engine, when there is one, has a non-zero tile size:
    with a tile size of 0 the tile indices of [checkTileCollision] are not
    finite in JavaScript and its loops need not end. *)
Definition sized (g : GameEngine) : Prop :=
  match tileMap g with
  | Some m => ¬ (tileSize m == 0)%Q
  | None => True
  end.

(** The engines a program can reach from a new engine through the public
    methods and the frame callback, each entity object being added once and
    every map having a non-zero tile size. *)
Inductive engine_reachable : GameEngine → Prop :=
| reach_new : engine_reachable GameEngine_new
| reach_init g now : engine_reachable g → engine_reachable (engine_init now g)
| reach_setTileMap g m :
    engine_reachable g → ¬ (tileSize m == 0)%Q → engine_reachable (setTileMap g m)
| reach_addEntity g e : engine_reachable g → engine_reachable (addEntity g e)
| reach_removeEntity g id : engine_reachable g → engine_reachable (removeEntity g id)
| reach_start g : engine_reachable g → engine_reachable (engine_start g)
| reach_pause g : engine_reachable g → engine_reachable (engine_pause g)
| reach_resume g now : engine_reachable g → engine_reachable (engine_resume now g)
| reach_stop g : engine_reachable g → engine_reachable (engine_stop g)
| reach_restart g : engine_reachable g → engine_reachable (restart g)
| reach_update g dt : engine_reachable g → engine_reachable (update dt g)
| reach_frame g f : engine_reachable g → engine_reachable (run_frame g f).

(** [MazeGame.tsx], [initGame]: the scan for the Start tile (its [break]
    leaves the inner loop only, as in [restart]), the player created there,
    and the engine started. *)
Definition find_start_row (m : TileMap) (y : Z) (acc : Q * Q) : Q * Q :=
  match List.find (λ x, match getTile m 0 x y with
                        | Some tile => bool_decide (TileType_code (type tile) = 2)
                        | None => false
                        end) (seqZ 0 (width m)) with
  | Some x => (inject_Z x * tileSize m, inject_Z y * tileSize m)%Q
  | None => acc
  end.

Definition find_start (m : TileMap) : Q * Q :=
  foldl (λ acc y, find_start_row m y acc) (0, 0)%Q (seqZ 0 (height m)).

(** The part of [initGame] that follows the generation of the maze. *)
Definition spawn_player (engine : GameEngine) (tileMap : TileMap) : GameEngine :=
  let engine := setTileMap engine tileMap in
  let s := find_start tileMap in
  let player := Player_new "player" s.1 s.2 24 24 in
  engine_start (addEntity engine player).

(** [initGame] on the engine the component has just created (the canvas is
    taken to provide its context): a 21 by 21 maze is generated with the
    random supply [rnd]. *)
Definition initGame (now : Q) (rnd : list nat) : result GameEngine :=
  let engine := engine_init now GameEngine_new in
  bind_result (MazeGenerator_new 21 21) (λ mazeGenerator,
  bind_result (generate mazeGenerator rnd) (λ tileMap,
  Ok (spawn_player engine tileMap))).

(** The axis-aligned overlap test of [checkCollision], against a rectangle. *)
Definition overlaps_rect (e : Entity) (bx by_ bw bh : Q) : bool :=
  Qlt_bool (e_x e) (bx + bw) && Qlt_bool bx (e_x e + e_width e) &&
  Qlt_bool (e_y e) (by_ + bh) && Qlt_bool by_ (e_y e + e_height e).

(** The range of tile indices [checkTileCollision] scans for a body. *)
Definition tile_range (e : Entity) (m : TileMap) (x y : Z) : Prop :=
  Qfloor (e_x e / tileSize m) ≤ x ≤ Qfloor ((e_x e + e_width e - 1) / tileSize m) ∧
  Qfloor (e_y e / tileSize m) ≤ y ≤ Qfloor ((e_y e + e_height e - 1) / tileSize m).

(** The eight keys [getDirection] reads. *)
Definition movement_keys : list string :=
  ["arrowup"; "w"; "arrowright"; "d"; "arrowdown"; "s"; "arrowleft"; "a"].

(** What a physics step may change of an entity: its position, its velocity
    and, for a player, health and score.  Everything else is kept. *)
Definition same_kind (e e' : Entity) : Prop :=
  e_id e' = e_id e ∧ e_width e' = e_width e ∧ e_height e' = e_height e ∧
  e_solid e' = e_solid e ∧ active e' = active e ∧ tags e' = tags e ∧
  match as_player e, as_player e' with
  | Some d, Some d' => speed d' = speed d
  | None, None => True
  | _, _ => False
  end.

(** The same, with a player's health not rising and its score not falling. *)
Definition evolves (e e' : Entity) : Prop :=
  same_kind e e' ∧
  match as_player e, as_player e' with
  | Some d, Some d' => (health d' <= health d)%Q ∧ (score d <= score d')%Q
  | _, _ => True
  end.

(** The key names whose entry in a key table is the table's own: a
    JavaScript object inherits [constructor] and [__proto__], the two
    lower-case names of [Object.prototype], and a lookup of these does not
    read what the handlers have stored.  The key tables of the model hold
    own entries only. *)
Definition plain_key (k : string) : Prop :=
  bool_decide (toLowerCase k ∈ ["constructor"; "__proto__"]) = false.

(** The key names made of ASCII characters only.  On these the model's
    [toLowerCase] is JavaScript's; a cased letter outside ASCII is lowered by
    JavaScript and kept by the model. *)
Definition ascii_name (k : string) : Prop :=
  forallb (λ c, Nat.ltb (nat_of_ascii c) 128) (list_ascii_of_string k) = true.

(** An inactive entity is left where it is: a step keeps the [active] flag
    and, when the entity is inactive, its position and its player data, and
    also its velocity unless it is a [Player] (the engine's player is steered
    by [move] even when inactive). *)
Definition inert (e e' : Entity) : Prop :=
  active e' = active e ∧
  (active e = false →
   e_x e' = e_x e ∧ e_y e' = e_y e ∧ as_player e' = as_player e ∧
   (as_player e = None → velocity e' = velocity e)).

(** The unit vector of a direction, in screen coordinates (y grows
    downwards). *)
Definition dir_vector (d : Direction) : Q * Q :=
  match d with
  | UP => (0, -1)
  | RIGHT => (1, 0)
  | DOWN => (0, 1)
  | LEFT => (-1, 0)
  | NONE => (0, 0)
  end%Q.

(** The flags of the state mirror the flags of the engine. *)
Definition flags_agree (g : GameEngine) : Prop :=
  gs_running (state g) = running g ∧ gs_paused (state g) = paused g.






(** * Properties *)

(** ** The tile map *)

Lemma out_of_range_false m li x y :
  out_of_range m li x y = false ↔
  (0 ≤ li < Z.of_nat (length (layers m))) ∧ (0 ≤ x < width m) ∧ (0 ≤ y < height m).
Proof.
  unfold out_of_range. rewrite !orb_false_iff, !Z.ltb_ge, !Z.leb_gt. lia.
Qed.

Lemma out_of_range_wf w h m x y :
  wf_map w h m → out_of_range m 0 x y = false ↔ in_grid w h (x, y).
Proof.
  intros (Hw & Hh & l & Hl & _). rewrite out_of_range_false, Hl, Hw, Hh.
  unfold in_grid. simpl. lia.
Qed.

Lemma setTile_wf w h m x y t : wf_map w h m → wf_map w h (setTile m 0 x y t).
Proof.
  intros Hwf. unfold setTile. destruct (out_of_range m 0 x y) eqn:Hr; [done|].
  destruct Hwf as (Hw & Hh & l & Hl & Hlen & Hrows).
  split; [done|]. split; [done|]. simpl. rewrite Hl. simpl.
  eexists. split; [reflexivity|]. simpl. split.
  - by rewrite length_alter.
  - apply Forall_alter; [done|]. intros row Hrow Hlk.
    rewrite length_insert.
    eapply (proj1 (Forall_lookup _ _) Hrows); eauto.
Qed.

Lemma tile_at_in_grid w h m c :
  wf_map w h m → is_Some (tile_at m c) ↔ in_grid w h c.
Proof.
  intros Hwf. destruct c as [x y]. unfold tile_at, getTile. simpl.
  pose proof (out_of_range_wf w h m x y Hwf) as Hr.
  destruct (out_of_range m 0 x y).
  - split; [by intros [? ?]|]. intros Hg. apply Hr in Hg. done.
  - assert (Hg : in_grid w h (x, y)) by (by apply Hr).
    split; [done|]. intros _.
    destruct Hwf as (Hw & Hh & l & Hl & Hlen & Hrows). rewrite Hl. simpl.
    destruct Hg as [Hx Hy]. simpl in *.
    destruct (lookup_lt_is_Some_2 (tiles l) (Z.to_nat y)) as [row Hrow]; [lia|].
    rewrite Hrow. simpl.
    apply lookup_lt_is_Some_2.
    rewrite (proj1 (Forall_lookup _ _) Hrows _ _ Hrow). lia.
Qed.

Lemma tile_at_setTile w h m x y t c :
  wf_map w h m →
  tile_at (setTile m 0 x y t) c =
  if decide (c = (x, y) ∧ in_grid w h c) then Some t else tile_at m c.
Proof.
  intros Hwf. destruct c as [x' y'].
  pose proof (out_of_range_wf w h m x y Hwf) as Hr.
  pose proof (out_of_range_wf w h _ x' y' (setTile_wf w h m x y t Hwf)) as Hr'.
  pose proof (out_of_range_wf w h m x' y' Hwf) as Hr0.
  unfold tile_at, getTile in *. simpl in *.
  destruct (out_of_range (setTile m 0 x y t) 0 x' y') eqn:E'.
  { assert (¬ in_grid w h (x', y')) as Hn by (intros Hg; apply Hr' in Hg; done).
    rewrite decide_False by tauto.
    destruct (out_of_range m 0 x' y') eqn:E0; [done|].
    exfalso. apply Hn. by apply Hr0. }
  assert (Hg' : in_grid w h (x', y')) by (by apply Hr').
  assert (E0 : out_of_range m 0 x' y' = false) by (by apply Hr0).
  rewrite E0. unfold setTile.
  destruct (out_of_range m 0 x y) eqn:E.
  { rewrite decide_False; [done|]. intros [Heq _]. inversion Heq; subst.
    congruence. }
  assert (Hg : in_grid w h (x, y)) by (by apply Hr).
  destruct Hwf as (Hw & Hh & l & Hl & Hlen & Hrows). simpl. rewrite Hl. simpl.
  destruct Hg as [Hx Hy], Hg' as [Hx' Hy']. simpl in *.
  rewrite list_lookup_alter.
  destruct (decide (Z.to_nat y = Z.to_nat y')) as [Ey|Ey].
  - assert (y = y') by lia. subst y'.
    destruct (tiles l !! Z.to_nat y) as [row|] eqn:Hrow; simpl.
    + destruct (decide (x' = x)) as [->|Nx].
      * rewrite decide_True by (split; [done|]; split; simpl; lia).
        apply list_lookup_insert_eq.
        rewrite (proj1 (Forall_lookup _ _) Hrows _ _ Hrow). lia.
      * rewrite decide_False by (intros [Heq _]; congruence).
        apply list_lookup_insert_ne. lia.
    + apply lookup_ge_None in Hrow. lia.
  - rewrite decide_False; [done|]. intros [Heq _]. inversion Heq; subst. done.
Qed.

Lemma tile_at_Some_in_grid w h m c t :
  wf_map w h m → tile_at m c = Some t → in_grid w h c.
Proof. intros Hwf Ht. apply (tile_at_in_grid w h m c Hwf). eauto. Qed.

Lemma is_open_in_grid w h m c :
  wf_map w h m → is_open m c = true → in_grid w h c.
Proof.
  unfold is_open. intros Hwf Ho. destruct (tile_at m c) eqn:E; [|done].
  eauto using tile_at_Some_in_grid.
Qed.

Lemma createLayer_wf w h ts id :
  wf_map w h (createLayer {| width := w; height := h; tileSize := ts; layers := [] |} id).1.
Proof.
  split; [done|]. split; [done|]. simpl. eexists. split; [reflexivity|]. simpl.
  split; [by rewrite length_replicate|].
  apply Forall_replicate. by rewrite length_replicate.
Qed.

(** A loop of [setTile] over a list of cells. *)
Lemma foldl_setTile_wf w h t (cells : list Vector2D) m :
  wf_map w h m → wf_map w h (foldl (λ m c, setTile m 0 c.1 c.2 t) m cells).
Proof.
  revert m. induction cells as [|c cells IH]; intros m Hwf; simpl; [done|].
  apply IH. by apply setTile_wf.
Qed.

Lemma foldl_setTile_tile_at w h t (cells : list Vector2D) m c :
  wf_map w h m →
  tile_at (foldl (λ m c, setTile m 0 c.1 c.2 t) m cells) c =
  if decide (c ∈ cells ∧ in_grid w h c) then Some t else tile_at m c.
Proof.
  revert m. induction cells as [|c0 cells IH]; intros m Hwf; cbn [foldl].
  - case_decide as H; [|done]. destruct H as [H _]. by apply elem_of_nil in H.
  - rewrite IH by (by apply setTile_wf).
    rewrite (tile_at_setTile w h) by done. destruct c0 as [x0 y0]. cbn [fst snd].
    repeat case_decide; try done; exfalso; rewrite ?elem_of_cons in *; intuition congruence.
Qed.

Lemma fill_walls_cells w h m :
  fill_walls w h m =
  foldl (λ m c, setTile m 0 c.1 c.2 wallTile) m
        (y ← seqZ 0 h; x ← seqZ 0 w; [(x, y)]).
Proof.
  unfold fill_walls. generalize (seqZ 0 h) as ys. intros ys. revert m.
  induction ys as [|y ys IH]; intros m; simpl; [done|].
  rewrite foldl_app, <- IH. f_equal.
  generalize (seqZ 0 w) as xs. intros xs. revert m.
  induction xs as [|x xs IHx]; intros m; simpl; [done|]. by rewrite <- IHx.
Qed.

Lemma elem_of_grid_list w h (c : Vector2D) :
  c ∈ (y ← seqZ 0 h; x ← seqZ 0 w; [(x, y)]) ↔ in_grid w h c.
Proof.
  destruct c as [x y]. unfold in_grid. simpl. rewrite list_elem_of_bind. split.
  - intros (y' & Hin & Hy). apply list_elem_of_bind in Hin as (x' & Hin & Hx).
    apply list_elem_of_singleton in Hin. inversion Hin; subst.
    apply elem_of_seqZ in Hx, Hy. lia.
  - intros [Hx Hy]. exists y. split; [|apply elem_of_seqZ; lia].
    apply list_elem_of_bind. exists x. split; [by apply list_elem_of_singleton|].
    apply elem_of_seqZ. lia.
Qed.

Lemma fill_walls_wf w h m : wf_map w h m → wf_map w h (fill_walls w h m).
Proof. intros. rewrite fill_walls_cells. by apply foldl_setTile_wf. Qed.

Lemma fill_walls_tile_at w h m c :
  wf_map w h m → in_grid w h c → tile_at (fill_walls w h m) c = Some wallTile.
Proof.
  intros Hwf Hg. rewrite fill_walls_cells, (foldl_setTile_tile_at w h) by done.
  rewrite decide_True; [done|]. split; [|done]. by apply elem_of_grid_list.
Qed.

(** ** Paths and cycles in the grid *)

Lemma adjacent_sym a b : adjacent a b → adjacent b a.
Proof. unfold adjacent. lia. Qed.

Lemma adjacent_irrefl a : ¬ adjacent a a.
Proof. unfold adjacent. lia. Qed.

Lemma reach_mono (P Q : Vector2D → Prop) a c :
  (∀ x, P x → Q x) → reach P a c → reach Q a c.
Proof.
  intros HPQ Hr. induction Hr as [c Hc|a b c _ IH Hadj Hc].
  - apply reach_here. auto.
  - eapply reach_next; eauto.
Qed.

Lemma walk_tail a l : walk (a :: l) → walk l.
Proof. destruct l; simpl; tauto. Qed.

Lemma walk_snoc l a d :
  l ≠ [] → walk l → adjacent (List.last l d) a → walk (l ++ [a]).
Proof.
  induction l as [|x l IH]; [done|]. intros _ Hw Hl.
  destruct l as [|y l'].
  - simpl in *. tauto.
  - destruct Hw as [Hxy Hw]. change (adjacent x y ∧ walk ((y :: l') ++ [a])).
    split; [done|]. apply IH; [done|done|]. exact Hl.
Qed.

(** Moving the first cell of a cycle to its end gives a cycle. *)
Lemma cycle_rotate1 P a l : simple_cycle P (a :: l) → simple_cycle P (l ++ [a]).
Proof.
  intros (Hlen & Hnd & HP & Hw & Hc).
  repeat split.
  - rewrite length_app. simpl in *. lia.
  - apply NoDup_app. apply NoDup_cons in Hnd as [Hna Hnd].
    split; [done|]. split; [|apply NoDup_singleton].
    intros x Hx Hx'. apply list_elem_of_singleton in Hx'. by subst.
  - apply Forall_app. apply Forall_cons in HP as [Ha HP]. split; [done|].
    by apply Forall_singleton.
  - destruct l as [|b l']; [simpl in Hlen; lia|].
    apply (walk_snoc _ _ a); [done|by eapply walk_tail|]. exact Hc.
  - destruct l as [|b l']; [simpl in Hlen; lia|].
    simpl. change (adjacent (List.last (l' ++ [a]) b) b).
    rewrite List.last_last. by destruct Hw.
Qed.

Lemma cycle_rotate P l1 v l2 :
  simple_cycle P (l1 ++ v :: l2) → simple_cycle P (v :: l2 ++ l1).
Proof.
  revert l2. induction l1 as [|x l1 IH]; intros l2 Hc.
  - by rewrite app_nil_r.
  - apply cycle_rotate1 in Hc. rewrite <- app_assoc in Hc. simpl in Hc.
    apply IH in Hc. rewrite <- app_assoc in Hc. exact Hc.
Qed.

(** Every cell of a simple cycle has two distinct neighbours on it. *)
Lemma cycle_two_neighbours P l v :
  simple_cycle P l → v ∈ l →
  ∃ a b, a ∈ l ∧ b ∈ l ∧ a ≠ b ∧ adjacent v a ∧ adjacent v b.
Proof.
  intros Hc Hv. apply list_elem_of_split in Hv as (l1 & l2 & ->).
  apply cycle_rotate in Hc.
  assert (Hsub : ∀ x, x ∈ v :: l2 ++ l1 → x ∈ l1 ++ v :: l2).
  { intros x. rewrite elem_of_cons, !elem_of_app, elem_of_cons. tauto. }
  destruct Hc as (Hlen & Hnd & _ & Hw & Hcl).
  destruct (l2 ++ l1) as [|b [|c r]] eqn:E; [simpl in Hlen; lia..|].
  exists b, (List.last (c :: r) v). destruct Hw as [Hvb _].
  assert (Hlast : List.last (c :: r) v ∈ c :: r).
  { apply list_elem_of_In. destruct (exists_last (l := c :: r)) as (r' & z & Ez); [done|].
    rewrite Ez, List.last_last, <- Ez.
    apply list_elem_of_In. rewrite Ez. apply elem_of_app. right. by left. }
  repeat split.
  - apply Hsub. right. by left.
  - apply Hsub. right. by right.
  - intros ->. apply NoDup_cons in Hnd as [_ Hnd].
    apply NoDup_cons in Hnd as [Hnb _]. done.
  - done.
  - apply adjacent_sym. exact Hcl.
Qed.

(** Opening a cell with at most one open neighbour creates no cycle. *)
Lemma acyclic_add_leaf (P P' : Vector2D → Prop) v :
  (∀ l, ¬ simple_cycle P l) →
  (∀ c, P' c → P c ∨ c = v) →
  (∀ a b, P a → P b → adjacent v a → adjacent v b → a = b) →
  ∀ l, ¬ simple_cycle P' l.
Proof.
  intros Hac Hsub Hleaf l Hc.
  destruct (decide (v ∈ l)) as [Hv|Hv].
  - destruct (cycle_two_neighbours _ _ _ Hc Hv) as (a & b & Ha & Hb & Hab & Hva & Hvb).
    destruct Hc as (_ & _ & HP & _).
    rewrite Forall_forall in HP.
    assert (P a).
    { destruct (Hsub a (HP a Ha)) as [ ? | -> ]; [done|]. by apply adjacent_irrefl in Hva. }
    assert (P b).
    { destruct (Hsub b (HP b Hb)) as [ ? | -> ]; [done|]. by apply adjacent_irrefl in Hvb. }
    apply Hab. by apply Hleaf.
  - apply (Hac l). destruct Hc as (Hlen & Hnd & HP & Hw & Hcl).
    repeat split; try done. rewrite Forall_forall in HP |- *.
    intros x Hx. destruct (Hsub x (HP x Hx)) as [ ? | -> ]; done.
Qed.

(** ** The visited array *)

Lemma mark_visited_wf w h v x y : wf_visited w h v → wf_visited w h (mark_visited v x y).
Proof.
  intros [Hlen Hrows]. split.
  - unfold mark_visited. by rewrite length_alter.
  - apply Forall_alter; [done|]. intros row Hrow Hlk. rewrite length_insert.
    eapply (proj1 (Forall_lookup _ _) Hrows); eauto.
Qed.

Lemma is_visited_mark w h v x y c :
  wf_visited w h v → in_grid w h (x, y) → 0 ≤ c.1 → 0 ≤ c.2 →
  is_visited (mark_visited v x y) c.1 c.2 =
  if decide (c = (x, y)) then true else is_visited v c.1 c.2.
Proof.
  intros [Hlen Hrows] [Hx Hy] Hc1 Hc2. destruct c as [x' y']. simpl in *.
  unfold is_visited, mark_visited. rewrite list_lookup_alter.
  destruct (decide (Z.to_nat y = Z.to_nat y')) as [Ey|Ey].
  - assert (y = y') by lia. subst y'.
    destruct (v !! Z.to_nat y) as [row|] eqn:Hrow; simpl.
    + assert (Z.to_nat w ≤ length row)%nat
        by (eapply (proj1 (Forall_lookup _ _) Hrows); eauto).
      destruct (decide (x' = x)) as [->|Nx].
      * rewrite decide_True by done. rewrite list_lookup_insert_eq by lia. done.
      * rewrite decide_False by congruence.
        rewrite list_lookup_insert_ne by lia. done.
    + apply lookup_ge_None in Hrow. lia.
  - rewrite decide_False; [done|]. intros Heq. inversion Heq; subst. done.
Qed.

(** ** The carving loop: what one iteration does *)

Ltac zmod := Z.div_mod_to_equations; lia.

Lemma directions_spec (d : Vector2D) :
  d ∈ directions ↔ d = (0, -2) ∨ d = (2, 0) ∨ d = (0, 2) ∨ d = (-2, 0).
Proof.
  unfold directions. rewrite !elem_of_cons, elem_of_nil. tauto.
Qed.

Lemma between_cases p q c :
  between p q c ↔
  (q = (p.1, p.2 - 2) ∧ c = (p.1, p.2 - 1)) ∨
  (q = (p.1 + 2, p.2) ∧ c = (p.1 + 1, p.2)) ∨
  (q = (p.1, p.2 + 2) ∧ c = (p.1, p.2 + 1)) ∨
  (q = (p.1 - 2, p.2) ∧ c = (p.1 - 1, p.2)).
Proof.
  destruct p as [p1 p2], q as [q1 q2], c as [c1 c2]. unfold between.
  rewrite directions_spec. simpl. split.
  - intros [Hd Hc]. inversion Hc; subst; clear Hc.
    destruct Hd as [Hd|[Hd|[Hd|Hd]]]; inversion Hd as [[H1 H2]];
      [left|right; left|right; right; left|right; right; right];
      rewrite H1, H2; split; f_equal; try lia; zmod.
  - intros [[Hq Hc]|[[Hq Hc]|[[Hq Hc]|[Hq Hc]]]];
      inversion Hq; inversion Hc; subst; clear Hq Hc;
      (split; [|f_equal; zmod]).
    + left. f_equal; lia.
    + right; left. f_equal; lia.
    + right; right; left. f_equal; lia.
    + right; right; right. f_equal; lia.
Qed.

Lemma neighbors_spec w h v current n :
  n ∈ neighbors w h v current ↔
  (∃ d, d ∈ directions ∧ n = (current.1 + d.1, current.2 + d.2)) ∧
  0 < n.1 < w - 1 ∧ 0 < n.2 < h - 1 ∧ is_visited v n.1 n.2 = false.
Proof.
  unfold neighbors. rewrite list_elem_of_In, filter_In, <- list_elem_of_In.
  rewrite list_elem_of_fmap. unfold neighbor_ok.
  rewrite !andb_true_iff, !Z.ltb_lt, negb_true_iff. split.
  - intros [(d & -> & Hd) ((((? & ?) & ?) & ?) & ?)]. split; [eauto|].
    simpl in *. repeat split; done.
  - intros [(d & Hd & ->) ([? ?] & [? ?] & ?)]. split; [eauto|].
    simpl in *. repeat split; done.
Qed.

(** The two outcomes of an iteration: backtrack, or carve towards a
    neighbour that passes the test. *)
Lemma carve_step_cases w h st current rest :
  cs_stack st = current :: rest →
  (neighbors w h (cs_visited st) current = [] ∧
   carve_step w h st =
     {| cs_map := cs_map st; cs_visited := cs_visited st; cs_stack := rest;
        cs_random := cs_random st |}) ∨
  (∃ next,
     next ∈ neighbors w h (cs_visited st) current ∧
     carve_step w h st =
       {| cs_map :=
            setTile
              (setTile (cs_map st) 0 (current.1 + (next.1 - current.1) / 2)
                       (current.2 + (next.2 - current.2) / 2) pathTile)
              0 next.1 next.2 pathTile;
          cs_visited := mark_visited (cs_visited st) next.1 next.2;
          cs_stack := next :: current :: rest;
          cs_random := tl (cs_random st) |}).
Proof.
  intros Hs. unfold carve_step. rewrite Hs.
  destruct (neighbors w h (cs_visited st) current) as [|n ns] eqn:E.
  - left. done.
  - right. set (l := n :: ns). set (i := random_index (cs_random st) (length l)).
    exists (nth i l current). split; [|done].
    apply list_elem_of_In, nth_In. unfold i, random_index.
    apply Nat.mod_upper_bound. done.
Qed.

(** ** The invariant holds on entry to the loop *)

Lemma expected_tile_solid V W c :
  solid (expected_tile V W c) = false ↔ c = start ∨ c ∈ V ∨ c ∈ W.
Proof.
  unfold expected_tile. repeat case_decide; simpl; split; intros; try done; tauto.
Qed.

Lemma inv_open w h V W st c :
  carve_inv w h V W st →
  is_open (cs_map st) c = true ↔ in_grid w h c ∧ (c ∈ V ∨ c ∈ W).
Proof.
  intros I. unfold is_open. split.
  - intros Ho. destruct (tile_at (cs_map st) c) as [t|] eqn:Et; [|done].
    assert (Hg : in_grid w h c) by (eapply tile_at_Some_in_grid; eauto using inv_wf).
    split; [done|]. rewrite (inv_tiles _ _ _ _ _ I c Hg) in Et.
    inversion Et; subst. apply negb_true_iff, expected_tile_solid in Ho.
    destruct Ho as [-> |Ho]; [|done]. left. eapply inv_start; eauto.
  - intros [Hg Hc]. rewrite (inv_tiles _ _ _ _ _ I c Hg).
    apply negb_true_iff, expected_tile_solid. tauto.
Qed.

Lemma new_visited_Ok w h v :
  new_visited w h = Ok v →
  0 ≤ h ∧ (0 < h → 0 ≤ w) ∧ v = replicate (Z.to_nat h) (replicate (Z.to_nat w) false).
Proof.
  unfold new_visited, array_length_ok.
  destruct (negb ((0 <=? h) && (h <? 2 ^ 32))) eqn:Eh; [done|].
  destruct ((0 <? h) && negb ((0 <=? w) && (w <? 2 ^ 32))) eqn:Ew; [done|].
  intros [= <-].
  apply negb_false_iff, andb_true_iff in Eh as [Eh _]. apply Z.leb_le in Eh.
  split; [done|]. split; [|done]. intros Hh.
  apply andb_false_iff in Ew as [Ew|Ew].
  - apply Z.ltb_ge in Ew. lia.
  - apply negb_false_iff, andb_true_iff in Ew as [Ew _]. by apply Z.leb_le in Ew.
Qed.

Lemma carve_init_Ok g rnd st :
  carve_init g rnd = Ok st →
  let w := mg_width g in
  let h := mg_height g in
  2 ≤ h ∧ 0 ≤ w ∧
  cs_stack st = [start] ∧ cs_random st = rnd ∧
  cs_map st =
    setTile (fill_walls w h
               (createLayer {| width := w; height := h; tileSize := 32; layers := [] |}
                            "maze").1) 0 startX startY startTile ∧
  cs_visited st =
    <[1%nat := js_store false 1 true (replicate (Z.to_nat w) false)]>
      (replicate (Z.to_nat h) (replicate (Z.to_nat w) false)).
Proof.
  unfold carve_init. simpl.
  destruct (new_visited (mg_width g) (mg_height g)) as [v|] eqn:Ev; [|done].
  apply new_visited_Ok in Ev as (Hh & Hw & ->). simpl.
  unfold mark_start. change (Z.to_nat startY) with 1%nat.
  change (Z.to_nat startX) with 1%nat.
  destruct (replicate _ _ !! 1%nat) as [row|] eqn:Erow; [|done].
  apply lookup_replicate in Erow as [-> Hlt]. simpl. intros [= <-]. simpl.
  repeat split; try done; lia.
Qed.

Lemma carve_init_inv g rnd st :
  carve_init g rnd = Ok st →
  carve_inv (mg_width g) (mg_height g) [start] [] st.
Proof.
  intros Hinit. apply carve_init_Ok in Hinit.
  set (w := mg_width g) in *. set (h := mg_height g) in *.
  destruct Hinit as (Hh & Hw & Hstack & _ & Hmap & Hvis).
  assert (Hwf0 : wf_map w h (fill_walls w h
            (createLayer {| width := w; height := h; tileSize := 32; layers := [] |}
                         "maze").1))
    by apply fill_walls_wf, createLayer_wf.
  assert (Htiles : ∀ c, in_grid w h c →
            tile_at (cs_map st) c = Some (expected_tile [start] [] c)).
  { intros c Hg. rewrite Hmap, (tile_at_setTile w h) by done.
    unfold expected_tile. change (startX, startY) with start.
    rewrite (fill_walls_tile_at w h) by (done || apply createLayer_wf).
    repeat case_decide; try done; exfalso;
      rewrite ?list_elem_of_singleton, ?elem_of_nil in *; tauto. }
  assert (Hwf : wf_map w h (cs_map st)) by (rewrite Hmap; by apply setTile_wf).
  assert (Hopen : ∀ c, is_open (cs_map st) c = true → c = start).
  { intros c Ho. pose proof (is_open_in_grid w h _ _ Hwf Ho) as Hg.
    unfold is_open in Ho. rewrite (Htiles c Hg) in Ho.
    apply negb_true_iff, expected_tile_solid in Ho.
    rewrite list_elem_of_singleton, elem_of_nil in Ho. tauto. }
  split.
  - done.
  - rewrite Hvis. split.
    + by rewrite length_insert, length_replicate.
    + apply Forall_insert; [apply Forall_replicate; by rewrite length_replicate|].
      unfold js_store. case_decide.
      * by rewrite length_insert, length_replicate.
      * rewrite !length_app, length_replicate. lia.
  - apply NoDup_singleton.
  - by apply list_elem_of_singleton.
  - intros c Hc. apply list_elem_of_singleton in Hc. by left.
  - intros [x y] [Hx Hy]. simpl in *. rewrite list_elem_of_singleton, Hvis.
    unfold is_visited. 
    destruct (decide (y = 1)) as [-> |Hy1].
    + change (Z.to_nat 1) with 1%nat.
      rewrite list_lookup_insert_eq by (rewrite length_replicate; lia). simpl.
      unfold js_store. rewrite length_replicate. case_decide as Hlen.
      * destruct (decide (x = 1)) as [-> |Hx1].
        -- change (Z.to_nat 1) with 1%nat.
           rewrite list_lookup_insert_eq by (rewrite length_replicate; lia). done.
        -- rewrite list_lookup_insert_ne by lia.
           rewrite lookup_replicate_2 by lia. simpl. split; [done|].
           intros [= ->]. done.
      * assert (x = 0) as -> by lia. assert (w = 1) as -> by lia. simpl.
        split; [done|]. intros [= ?].
    + rewrite list_lookup_insert_ne by lia.
      rewrite lookup_replicate_2 by lia. simpl.
      rewrite lookup_replicate_2 by lia. simpl. split; [done|].
      intros [= -> ->]. done.
  - rewrite Hstack. done.
  - intros c n Hc Hnc. rewrite Hstack in Hnc. done.
  - apply NoDup_nil_2.
  - intros c Hc. by apply elem_of_nil in Hc.
  - done.
  - done.
  - intros c Ho. rewrite (Hopen c Ho). apply reach_here.
    by rewrite <- (Hopen c Ho).
  - intros l (Hlen & Hnd & HP & _).
    destruct l as [|a [|b l']]; [simpl in Hlen; lia..|].
    apply Forall_cons in HP as [Ha HP]. apply Forall_cons in HP as [Hb _].
    apply Hopen in Ha, Hb. subst. apply NoDup_cons in Hnd as [Hn _].
    apply Hn. by left.
Qed.

(** ** The invariant is kept by every iteration *)

Lemma inv_V_odd w h V W st c :
  carve_inv w h V W st → c ∈ V →
  c.1 mod 2 = 1 ∧ c.2 mod 2 = 1 ∧ 1 ≤ c.1 ∧ 1 ≤ c.2.
Proof.
  intros I Hc. destruct (inv_V_lat _ _ _ _ _ I c Hc) as [-> |(? & ? & ? & ?)].
  - done.
  - lia.
Qed.

Lemma inv_W_mixed w h V W st c :
  carve_inv w h V W st → c ∈ W → (c.1 + c.2) mod 2 = 1.
Proof.
  intros I Hc. destruct (inv_W _ _ _ _ _ I c Hc) as (p & q & Hp & Hq & _ & Hb).
  pose proof (inv_V_odd _ _ _ _ _ _ I Hp) as (? & ? & _).
  apply between_cases in Hb.
  destruct Hb as [[_ ->]|[[_ ->]|[[_ ->]|[_ ->]]]]; simpl; zmod.
Qed.

Lemma pop_inv w h V W st current rest :
  carve_inv w h V W st → cs_stack st = current :: rest →
  neighbors w h (cs_visited st) current = [] →
  carve_inv w h V W
    {| cs_map := cs_map st; cs_visited := cs_visited st; cs_stack := rest;
       cs_random := cs_random st |}.
Proof.
  intros I Hs Hnone.
  destruct I as [? ? ? ? ? Hvisited Hstack Hclosed ? ? ? ? ? ?]. split; simpl; try done.
  - intros c Hc. apply Hstack. rewrite Hs. by right.
  - intros c n Hc Hnr Hd Hn1 Hn2.
    destruct (decide (c = current)) as [-> |Hne].
    + destruct (is_visited (cs_visited st) n.1 n.2) eqn:Ev.
      * apply Hvisited; [unfold in_grid; lia|done].
      * assert (Hin : n ∈ neighbors w h (cs_visited st) current).
        { apply neighbors_spec. split; [|done].
          eexists. split; [exact Hd|]. destruct n. simpl. f_equal; lia. }
        rewrite Hnone in Hin. by apply elem_of_nil in Hin.
    + apply (Hclosed c); try done. rewrite Hs. intros Hin.
      apply elem_of_cons in Hin as [?|?]; done.
Qed.

Section push.
Context (w h : Z) (V W : list Vector2D) (st : CarveState).
Context (cx cy nx ny : Z) (rest : list Vector2D).
Context (I : carve_inv w h V W st).
Context (Hs : cs_stack st = (cx, cy) :: rest).
Context (Hn : (nx, ny) ∈ neighbors w h (cs_visited st) (cx, cy)).

Context (wx wy : Z).
Context (Hwx : wx = cx + (nx - cx) / 2) (Hwy : wy = cy + (ny - cy) / 2).

Local Abbreviation m2 :=
  (setTile (setTile (cs_map st) 0 wx wy pathTile) 0 nx ny pathTile).

Lemma push_current : (cx, cy) ∈ V.
Proof. apply (inv_stack _ _ _ _ _ I). rewrite Hs. by left. Qed.

Lemma push_geometry :
  (nx = cx ∧ ny = cy - 2 ∧ wx = cx ∧ wy = cy - 1) ∨
  (nx = cx + 2 ∧ ny = cy ∧ wx = cx + 1 ∧ wy = cy) ∨
  (nx = cx ∧ ny = cy + 2 ∧ wx = cx ∧ wy = cy + 1) ∨
  (nx = cx - 2 ∧ ny = cy ∧ wx = cx - 1 ∧ wy = cy).
Proof.
  apply neighbors_spec in Hn as [(d & Hd & Heq) _].
  apply directions_spec in Hd. rewrite Hwx, Hwy. clear Hwx Hwy. simpl in Heq.
  destruct Hd as [-> |[-> |[-> | ->]]]; inversion Heq; subst; simpl;
    [left|right; left|right; right; left|right; right; right];
    repeat split; try lia; zmod.
Qed.

Lemma push_between : between (cx, cy) (nx, ny) (wx, wy).
Proof.
  apply between_cases. simpl.
  destruct push_geometry as [(-> & -> & -> & ->)|[(-> & -> & -> & ->)|
    [(-> & -> & -> & ->)|(-> & -> & -> & ->)]]]; tauto.
Qed.

Lemma push_next_inner : inner_lattice w h (nx, ny).
Proof.
  pose proof (inv_V_odd _ _ _ _ _ _ I push_current) as (? & ? & _).
  pose proof push_geometry as G.
  apply neighbors_spec in Hn as (_ & ? & ? & _). simpl in *.
  unfold inner_lattice. simpl. repeat split; try lia;
    destruct G as [?|[?|[?|?]]]; zmod.
Qed.

Lemma push_next_grid : in_grid w h (nx, ny).
Proof.
  destruct push_next_inner as (? & ? & _). unfold in_grid. simpl in *. lia.
Qed.

Lemma push_wall_grid : in_grid w h (wx, wy).
Proof.
  destruct push_next_inner as (? & ? & _). pose proof push_geometry.
  unfold in_grid. simpl in *. lia.
Qed.

Lemma push_next_fresh : (nx, ny) ∉ V.
Proof.
  intros Hin. apply (inv_visited _ _ _ _ _ I _ push_next_grid) in Hin.
  apply neighbors_spec in Hn as (_ & _ & _ & Hv). simpl in *. congruence.
Qed.

Lemma push_next_not_wall : (nx, ny) ∉ W.
Proof.
  intros Hin. apply (inv_W_mixed _ _ _ _ _ _ I) in Hin.
  destruct push_next_inner as (_ & _ & ? & ?). simpl in *. zmod.
Qed.

Lemma push_wall_not_visited : (wx, wy) ∉ V.
Proof.
  intros Hin. apply (inv_V_odd _ _ _ _ _ _ I) in Hin as (? & ? & _).
  pose proof (inv_V_odd _ _ _ _ _ _ I push_current) as (? & ? & _).
  pose proof push_geometry. simpl in *. zmod.
Qed.

(** An open lattice cell next to the wall cell is the current cell. *)
Lemma push_wall_neighbour a :
  a ∈ V → adjacent (wx, wy) a → a = (cx, cy).
Proof.
  intros Ha Hadj. pose proof (inv_V_odd _ _ _ _ _ _ I Ha) as (? & ? & _).
  pose proof (inv_V_odd _ _ _ _ _ _ I push_current) as (? & ? & _).
  assert (a ≠ (nx, ny)) by (intros ->; by apply push_next_fresh).
  pose proof push_geometry as G. destruct a as [a1 a2]. unfold adjacent in Hadj.
  simpl in *.
  assert (a1 = cx ∧ a2 = cy ∨ a1 = nx ∧ a2 = ny) as [[-> ->]|[-> ->]];
    [|done|done].
  destruct G as [?|[?|[?|?]]]; zmod.
Qed.

Lemma push_wall_fresh : (wx, wy) ∉ W.
Proof.
  intros Hin. destruct (inv_W _ _ _ _ _ I _ Hin) as (p & q & Hp & Hq & _ & Hb).
  pose proof (inv_V_odd _ _ _ _ _ _ I Hp) as (? & ? & _).
  pose proof (inv_V_odd _ _ _ _ _ _ I Hq) as (? & ? & _).
  pose proof (inv_V_odd _ _ _ _ _ _ I push_current) as (? & ? & _).
  pose proof push_geometry as G.
  assert (p = (nx, ny) ∨ q = (nx, ny)) as [-> | ->];
    [|by apply push_next_fresh..].
  apply between_cases in Hb. destruct p as [p1 p2], q as [q1 q2]. simpl in *.
  assert ((p1 = nx ∧ p2 = ny) ∨ (q1 = nx ∧ q2 = ny)) as [[-> ->]|[-> ->]];
    [|by left|by right].
  destruct Hb as [[Hq' Hw]|[[Hq' Hw]|[[Hq' Hw]|[Hq' Hw]]]];
    inversion Hq'; inversion Hw; subst q1 q2;
    destruct G as [?|[?|[?|?]]]; zmod.
Qed.

(** A removed wall next to the new cell would have the new cell as one of
    its two ends. *)
Lemma push_next_neighbour a :
  a ∈ W → adjacent (nx, ny) a → False.
Proof.
  intros Ha Hadj. destruct (inv_W _ _ _ _ _ I _ Ha) as (p & q & Hp & Hq & _ & Hb).
  pose proof (inv_V_odd _ _ _ _ _ _ I Hp) as (? & ? & _).
  pose proof (inv_V_odd _ _ _ _ _ _ I Hq) as (? & ? & _).
  destruct push_next_inner as (_ & _ & ? & ?).
  assert (p = (nx, ny) ∨ q = (nx, ny)) as [-> | ->];
    [|by apply push_next_fresh..].
  apply between_cases in Hb. destruct p as [p1 p2], q as [q1 q2], a as [a1 a2].
  unfold adjacent in Hadj. simpl in *.
  assert ((p1 = nx ∧ p2 = ny) ∨ (q1 = nx ∧ q2 = ny)) as [[-> ->]|[-> ->]];
    [|by left|by right].
  destruct Hb as [[Hq' Hw]|[[Hq' Hw]|[[Hq' Hw]|[Hq' Hw]]]];
    inversion Hq'; inversion Hw; subst q1 q2 a1 a2; zmod.
Qed.

Lemma push_wf : wf_map w h m2.
Proof. do 2 apply setTile_wf. apply (inv_wf _ _ _ _ _ I). Qed.

Lemma push_tile_at c :
  tile_at m2 c =
  if decide (c = (nx, ny)) then Some pathTile
  else if decide (c = (wx, wy)) then Some pathTile
  else tile_at (cs_map st) c.
Proof.
  rewrite (tile_at_setTile w h) by (apply setTile_wf, (inv_wf _ _ _ _ _ I)).
  rewrite (tile_at_setTile w h) by apply (inv_wf _ _ _ _ _ I).
  pose proof push_next_grid. pose proof push_wall_grid.
  repeat case_decide; try done; exfalso; intuition congruence.
Qed.

Lemma push_open c :
  is_open m2 c = true ↔
  is_open (cs_map st) c = true ∨ c = (wx, wy) ∨ c = (nx, ny).
Proof.
  unfold is_open. rewrite push_tile_at.
  repeat case_decide; subst; simpl; split; intros; try done; try tauto.
  all: intuition congruence.
Qed.

Lemma push_current_open : is_open (cs_map st) (cx, cy) = true.
Proof.
  apply (inv_open _ _ _ _ _ _ I). split; [|left; apply push_current].
  pose proof push_next_inner as (? & ? & _). pose proof push_geometry as G.
  destruct (inv_V_lat _ _ _ _ _ I _ push_current) as [Heq|(? & ? & _)].
  - injection Heq as E1 E2. unfold in_grid, startX, startY in *. simpl in *. lia.
  - unfold in_grid. simpl in *. lia.
Qed.

Lemma push_inv :
  carve_inv w h ((nx, ny) :: V) ((wx, wy) :: W)
    {| cs_map := m2; cs_visited := mark_visited (cs_visited st) nx ny;
       cs_stack := (nx, ny) :: (cx, cy) :: rest;
       cs_random := tl (cs_random st) |}.
Proof.
  split; simpl.
  - apply push_wf.
  - apply mark_visited_wf, (inv_vwf _ _ _ _ _ I).
  - apply NoDup_cons. split; [apply push_next_fresh|apply (inv_V_nodup _ _ _ _ _ I)].
  - right. apply (inv_start _ _ _ _ _ I).
  - intros c Hc. apply elem_of_cons in Hc as [-> |Hc].
    + right. apply push_next_inner.
    + by apply (inv_V_lat _ _ _ _ _ I).
  - intros c Hg. destruct Hg as [Hg1 Hg2].
    rewrite (is_visited_mark w h) by
      (first [apply (inv_vwf _ _ _ _ _ I)|apply push_next_grid|lia]).
    rewrite elem_of_cons. case_decide.
    + tauto.
    + rewrite (inv_visited _ _ _ _ _ I c) by done. tauto.
  - intros c Hc. apply elem_of_cons in Hc as [-> |Hc]; [by left|]. right.
    apply (inv_stack _ _ _ _ _ I). by rewrite Hs.
  - intros c n Hc Hnc Hd Hn1 Hn2.
    assert (c ≠ (nx, ny)) by (intros ->; apply Hnc; apply elem_of_cons; by left).
    apply elem_of_cons in Hc as [?|Hc]; [done|]. apply elem_of_cons. right.
    apply (inv_closed _ _ _ _ _ I c); try done.
    rewrite Hs. intros Hin. apply Hnc. apply elem_of_cons. by right.
  - apply NoDup_cons. split; [apply push_wall_fresh|apply (inv_W_nodup _ _ _ _ _ I)].
  - intros c Hc. apply elem_of_cons in Hc as [-> |Hc].
    + exists (cx, cy), (nx, ny).
      split; [apply elem_of_cons; right; apply push_current|].
      split; [apply elem_of_cons; by left|]. split; [|apply push_between].
      intros Heq. apply push_next_fresh. rewrite Heq. apply (inv_start _ _ _ _ _ I).
    + destruct (inv_W _ _ _ _ _ I _ Hc) as (p & q & ? & ? & ? & ?).
      exists p, q. split; [apply elem_of_cons; by right|].
      split; [apply elem_of_cons; by right|]. done.
  - by rewrite (inv_count _ _ _ _ _ I).
  - intros c Hg. rewrite push_tile_at. unfold expected_tile.
    assert ((nx, ny) ≠ start).
    { intros Heq. apply push_next_fresh. rewrite Heq. apply (inv_start _ _ _ _ _ I). }
    assert ((wx, wy) ≠ start).
    { intros Heq. apply push_wall_not_visited. rewrite Heq.
      apply (inv_start _ _ _ _ _ I). }
    rewrite (inv_tiles _ _ _ _ _ I c Hg). unfold expected_tile.
    repeat case_decide; try done; exfalso; rewrite ?elem_of_cons in *; intuition congruence.
  - intros c Ho.
    assert (Hmono : ∀ x, is_open (cs_map st) x = true → is_open m2 x = true).
    { intros x Hx. apply push_open. by left. }
    assert (Hwall : reachable m2 start (wx, wy)).
    { eapply reach_next.
      - eapply reach_mono; [exact Hmono|].
        apply (inv_reach _ _ _ _ _ I), push_current_open.
      - pose proof push_geometry. unfold adjacent. simpl. lia.
      - apply push_open. right. by left. }
    apply push_open in Ho as [Ho|[-> | ->]].
    + eapply reach_mono; [exact Hmono|]. by apply (inv_reach _ _ _ _ _ I).
    + exact Hwall.
    + eapply reach_next; [exact Hwall| |].
      * pose proof push_geometry. unfold adjacent. simpl. lia.
      * apply push_open. right. by right.
  - unfold acyclic.
    apply (acyclic_add_leaf
             (λ c, is_open (cs_map st) c = true ∨ c = (wx, wy)) _ (nx, ny)).
    + apply (acyclic_add_leaf (λ c, is_open (cs_map st) c = true) _ (wx, wy)).
      * apply (inv_acyclic _ _ _ _ _ I).
      * tauto.
      * intros a b Ha Hb Hwa Hwb.
        apply (inv_open _ _ _ _ _ _ I) in Ha as [_ Ha], Hb as [_ Hb].
        assert (Hmix : ∀ x, x ∈ W → adjacent (wx, wy) x → False).
        { intros x Hx Hadj. apply (inv_W_mixed _ _ _ _ _ _ I) in Hx.
          pose proof push_geometry.
          pose proof (inv_V_odd _ _ _ _ _ _ I push_current) as (? & ? & _).
          unfold adjacent in Hadj. destruct x. simpl in *. zmod. }
        destruct Ha as [Ha|Ha]; [|by destruct (Hmix a)].
        destruct Hb as [Hb|Hb]; [|by destruct (Hmix b)].
        rewrite (push_wall_neighbour a), (push_wall_neighbour b); done.
    + intros c Hc. apply push_open in Hc. tauto.
    + intros a b Ha Hb Hna Hnb.
      assert (Hone : ∀ x, is_open (cs_map st) x = true ∨ x = (wx, wy) →
                          adjacent (nx, ny) x → x = (wx, wy)).
      { intros x [Hx|Hx] Hadj; [|done]. exfalso.
        apply (inv_open _ _ _ _ _ _ I) in Hx as [_ [Hx|Hx]].
        - apply (inv_V_odd _ _ _ _ _ _ I) in Hx as (? & ? & _).
          destruct push_next_inner as (_ & _ & ? & ?).
          unfold adjacent in Hadj. destruct x. simpl in *. zmod.
        - by apply (push_next_neighbour x). }
      rewrite (Hone a), (Hone b); done.
Qed.
End push.

(** ** The carving loop as a whole *)

Lemma elem_of_odd_range n k : k ∈ odd_range n ↔ 0 < k < n - 1 ∧ k mod 2 = 1.
Proof.
  unfold odd_range. rewrite list_elem_of_fmap. split.
  - intros (i & -> & Hi). apply elem_of_seqZ in Hi. zmod.
  - intros [Hk Hodd]. exists ((k - 1) / 2). split; [zmod|].
    apply elem_of_seqZ. zmod.
Qed.

Lemma elem_of_lattice_cells w h c : c ∈ lattice_cells w h ↔ inner_lattice w h c.
Proof.
  destruct c as [x y]. unfold lattice_cells, inner_lattice. simpl.
  rewrite list_elem_of_bind. split.
  - intros (y' & Hin & Hy). apply list_elem_of_bind in Hin as (x' & Hin & Hx).
    apply list_elem_of_singleton in Hin. inversion Hin; subst.
    apply elem_of_odd_range in Hx, Hy. tauto.
  - intros (Hx & Hy & Hox & Hoy). exists y. split; [|by apply elem_of_odd_range].
    apply list_elem_of_bind. exists x. split; [by apply list_elem_of_singleton|].
    by apply elem_of_odd_range.
Qed.

Lemma length_cells {A B} (ys : list A) (xs : list B) :
  length (y ← ys; x ← xs; [(x, y)]) = (length ys * length xs)%nat.
Proof.
  induction ys as [|y ys IH]; [done|]. cbn [mbind list_bind]. 
  change (length ((x ← xs; [(x, y)]) ++ (y ← ys; x ← xs; [(x, y)])) =
          (length (y :: ys) * length xs)%nat).
  rewrite length_app, IH. simpl. f_equal.
  clear. induction xs as [|x xs IH]; [done|]. simpl. by rewrite <- IH.
Qed.

Lemma length_lattice_cells w h :
  (length (lattice_cells w h) ≤ Z.to_nat (half_up w * half_up h))%nat.
Proof.
  assert (length (lattice_cells w h) =
          (length (odd_range h) * length (odd_range w))%nat) as ->
    by apply (length_cells (odd_range h) (odd_range w)).
  unfold odd_range, half_up. rewrite !length_fmap, !length_seqZ.
  assert ((w + 1) / 2 = (w - 1) / 2 + 1) as -> by zmod.
  assert ((h + 1) / 2 = (h - 1) / 2 + 1) as -> by zmod.
  generalize ((w - 1) / 2) ((h - 1) / 2). intros a b.
  destruct (decide (0 < a ∧ 0 < b)) as [[Ha Hb]|Hn]; [nia|].
  assert (Z.to_nat a = 0%nat ∨ Z.to_nat b = 0%nat) as [-> | ->] by lia; lia.
Qed.

Lemma inv_V_bound w h V W st :
  carve_inv w h V W st → (length V ≤ S (length (lattice_cells w h)))%nat.
Proof.
  intros I. change (S (length (lattice_cells w h))) with (length (start :: lattice_cells w h)).
  apply submseteq_length, NoDup_submseteq; [apply (inv_V_nodup _ _ _ _ _ I)|].
  intros c Hc. apply elem_of_cons.
  destruct (inv_V_lat _ _ _ _ _ I c Hc); [by left|right].
  by apply elem_of_lattice_cells.
Qed.

(** An iteration either backtracks or visits one new lattice cell; in both
    cases the invariant is kept and the potential drops by one. *)
Lemma carve_step_inv w h V W st :
  carve_inv w h V W st → cs_stack st ≠ [] →
  (carve_inv w h V W (carve_step w h st) ∧
   S (length (cs_stack (carve_step w h st))) = length (cs_stack st)) ∨
  (∃ next wc,
     (next ∉ V) ∧ inner_lattice w h next ∧
     carve_inv w h (next :: V) (wc :: W) (carve_step w h st) ∧
     cs_stack (carve_step w h st) = next :: cs_stack st).
Proof.
  intros I Hne. destruct (cs_stack st) as [|[cx cy] rest] eqn:Hs; [done|].
  destruct (carve_step_cases w h st _ _ Hs) as [[Hnone ->]|([nx ny] & Hn & ->)].
  - left. split; [by eapply pop_inv|done].
  - right. eexists (nx, ny), _. split; [|split; [|split]].
    + eapply push_next_fresh; eauto.
    + eapply push_next_inner; eauto.
    + eapply push_inv; eauto.
    + done.
Qed.

Lemma carve_loop_inv w h fuel : ∀ V W st,
  carve_inv w h V W st → (potential w h V st ≤ fuel)%nat →
  ∃ W',
    carve_inv w h (reverse (visits fuel w h st) ++ V) W' (carve_loop fuel w h st) ∧
    cs_stack (carve_loop fuel w h st) = [].
Proof.
  induction fuel as [|fuel IH]; intros V W st I Hpot.
  - unfold potential in Hpot. exists W. simpl. split; [done|].
    destruct (cs_stack st); [done|simpl in Hpot; lia].
  - simpl. destruct (cs_stack st) as [|c rest] eqn:Hs.
    + exists W. simpl. rewrite Hs. done.
    + assert (Hne : cs_stack st ≠ []) by (by rewrite Hs).
      destruct (carve_step_inv w h V W st I Hne) as [[I' Hlen]|(next & wc & Hf & Hl & I' & Hst)].
      * rewrite Hs in Hlen. simpl in Hlen.
        assert (Hlt : (length (c :: rest) <? length (cs_stack (carve_step w h st)))%nat = false)
          by (apply Nat.ltb_ge; simpl; lia).
        rewrite Hlt. simpl. apply (IH V W); [done|].
        unfold potential in *. rewrite Hs in Hpot. simpl in Hpot. lia.
      * rewrite Hs in Hst.
        assert (Hlt : (length (c :: rest) <? length (cs_stack (carve_step w h st)))%nat = true)
          by (apply Nat.ltb_lt; rewrite Hst; simpl; lia).
        rewrite Hlt, Hst. simpl.
        destruct (IH (next :: V) (wc :: W) (carve_step w h st) I') as (W' & I'' & Hend).
        { pose proof (inv_V_bound _ _ _ _ _ I') as Hb. simpl in Hb.
          unfold potential in *. rewrite Hs in Hpot. rewrite Hst. simpl in *. lia. }
        exists W'. split; [|done]. by rewrite reverse_cons, <- app_assoc.
Qed.

(** Once the stack is empty, further iterations change nothing. *)
Lemma carve_loop_stable w h fuel : ∀ st fuel',
  cs_stack (carve_loop fuel w h st) = [] → (fuel ≤ fuel')%nat →
  carve_loop fuel' w h st = carve_loop fuel w h st ∧
  visits fuel' w h st = visits fuel w h st.
Proof.
  induction fuel as [|fuel IH]; intros st fuel' Hend Hle.
  - simpl in *. destruct fuel'; simpl; rewrite ?Hend; done.
  - destruct fuel' as [|fuel']; [lia|]. simpl in *.
    destruct (cs_stack st) eqn:Hs; [done|].
    destruct (IH (carve_step w h st) fuel' Hend) as [-> ->]; [lia|done].
Qed.

(** With an empty stack every cell of the lattice has been visited: the tree
    spans the lattice. *)
Lemma inv_spanning w h V W st :
  carve_inv w h V W st → cs_stack st = [] →
  ∀ c, inner_lattice w h c → c ∈ V.
Proof.
  intros I Hend.
  assert (H : ∀ k : nat, ∀ c, inner_lattice w h c → c.1 + c.2 ≤ Z.of_nat k → c ∈ V).
  { induction k as [|k IH]; intros [x y] (Hx & Hy & Hox & Hoy) Hk; simpl in *; [lia|].
    destruct (decide (1 < x)) as [Hx1|Hx1].
    - apply (inv_closed _ _ _ _ _ I (x - 2, y)); simpl; try done.
      + apply IH; [|simpl; lia]. unfold inner_lattice. simpl.
        repeat split; try lia; zmod.
      + rewrite Hend. apply not_elem_of_nil.
      + apply directions_spec. right; left. f_equal; lia.
    - destruct (decide (1 < y)) as [Hy1|Hy1].
      + apply (inv_closed _ _ _ _ _ I (x, y - 2)); simpl; try done.
        * apply IH; [|simpl; lia]. unfold inner_lattice. simpl.
          repeat split; try lia; zmod.
        * rewrite Hend. apply not_elem_of_nil.
        * apply directions_spec. right; right; left. f_equal; lia.
      + assert (x = 1) as -> by lia. assert (y = 1) as -> by lia.
        apply (inv_start _ _ _ _ _ I). }
  intros c Hc. apply (H (Z.to_nat (c.1 + c.2)) c Hc).
  destruct Hc as (? & ? & _). lia.
Qed.

Lemma initial_potential g rnd st :
  carve_init g rnd = Ok st →
  (potential (mg_width g) (mg_height g) [start] st ≤
   carve_fuel (mg_width g) (mg_height g))%nat.
Proof.
  intros Hinit. apply carve_init_Ok in Hinit as (_ & _ & Hs & _).
  unfold potential, carve_fuel. rewrite Hs. simpl.
  pose proof (length_lattice_cells (mg_width g) (mg_height g)). lia.
Qed.

(** The state in which the loop of [generate] ends. *)
Lemma carve_final g rnd st0 :
  carve_init g rnd = Ok st0 →
  let w := mg_width g in
  let h := mg_height g in
  let st := carve_loop (carve_fuel w h) w h st0 in
  ∃ W, carve_inv w h (reverse (visits (carve_fuel w h) w h st0) ++ [start]) W st ∧
       cs_stack st = [].
Proof.
  intros Hinit. cbv zeta.
  apply (carve_loop_inv _ _ _ [start] []).
  - by apply (carve_init_inv g rnd).
  - by apply (initial_potential g rnd).
Qed.

(** ** Termination of the carving loop *)

(** C5.  Whenever [generate] reaches its carving loop, the loop empties its
    stack within [carve_fuel] = 2 * ceil(width/2) * ceil(height/2) + 1
    iterations, whatever the random choices, and running it longer changes
    nothing.  The cells it marks visited and pushes are pairwise distinct
    lattice cells, all different from the start cell pushed before the loop;
    there are at most ceil(width/2) * ceil(height/2) of them, and this also
    bounds the visits including the start cell when the width is positive. *)
Theorem carve_loop_terminates (g : MazeGenerator) (rnd : list nat) (st0 : CarveState) :
  carve_init g rnd = Ok st0 →
  let w := mg_width g in
  let h := mg_height g in
  let fuel := carve_fuel w h in
  let bound := Z.to_nat (half_up w * half_up h) in
  cs_stack (carve_loop fuel w h st0) = [] ∧
  (∀ fuel', (fuel ≤ fuel')%nat →
     carve_loop fuel' w h st0 = carve_loop fuel w h st0 ∧
     visits fuel' w h st0 = visits fuel w h st0) ∧
  NoDup (start :: visits fuel w h st0) ∧
  (∀ c, c ∈ visits fuel w h st0 → inner_lattice w h c) ∧
  (length (visits fuel w h st0) ≤ bound)%nat ∧
  (1 ≤ w → (S (length (visits fuel w h st0)) ≤ bound)%nat).
Proof.
  intros Hinit w h fuel bound.
  destruct (carve_final g rnd st0 Hinit) as (W & I & Hend).
  fold w h fuel in I, Hend.
  pose proof (carve_init_Ok _ _ _ Hinit) as (Hh & _).
  fold h in Hh.
  assert (Hnd : NoDup (start :: visits fuel w h st0)).
  { pose proof (inv_V_nodup _ _ _ _ _ I) as Hnd.
    apply NoDup_app in Hnd as (Hnd & Hdis & _).
    apply NoDup_cons. split.
    - intros Hin. apply (Hdis start); [by apply elem_of_reverse|by left].
    - by rewrite reverse_Permutation in Hnd. }
  assert (Hlat : ∀ c, c ∈ visits fuel w h st0 → inner_lattice w h c).
  { intros c Hc.
    destruct (inv_V_lat _ _ _ _ _ I c) as [-> |Hl]; [|by apply NoDup_cons in Hnd as [? _]|done].
    apply elem_of_app. left. by apply elem_of_reverse. }
  pose proof (inv_V_bound _ _ _ _ _ I) as Hb.
  rewrite length_app, length_reverse in Hb.
  change (length [start]) with 1%nat in Hb.
  pose proof (length_lattice_cells w h) as HN. fold bound in HN.
  split; [done|]. split; [intros fuel' Hle; by apply carve_loop_stable|].
  split; [done|]. split; [done|]. split; [subst bound; lia|].
  intros Hw. destruct (decide (3 ≤ w ∧ 3 ≤ h)) as [[Hw3 Hh3]|Hsmall].
  - assert (Hsub : (length (start :: visits fuel w h st0)
                      ≤ length (lattice_cells w h))%nat).
    { apply submseteq_length, NoDup_submseteq; [done|].
      intros c Hc. apply elem_of_lattice_cells.
      apply elem_of_cons in Hc as [-> |Hc]; [|by apply Hlat].
      unfold inner_lattice, start, startX, startY. simpl. repeat split; lia. }
    rewrite length_cons in Hsub. subst bound. lia.
  - destruct (visits fuel w h st0) as [|c l] eqn:Ev.
    + simpl. subst bound. unfold half_up.
      assert (1 ≤ (w + 1) / 2) by zmod. assert (1 ≤ (h + 1) / 2) by zmod. nia.
    + destruct (Hlat c) as (? & ? & _); [by left|]. lia.
Qed.

(** [carve_loop_terminates] at a 5 by 5 maze. *)
Lemma carve_loop_terminates_witness :
  carve_init sample_generator sample_random = Ok sample_entry ∧
  cs_stack (carve_loop (carve_fuel 5 5) 5 5 sample_entry) = [].
Proof.
  assert (H : carve_init sample_generator sample_random = Ok sample_entry)
    by (vm_compute; reflexivity).
  split; [exact H|].
  exact (proj1 (carve_loop_terminates sample_generator sample_random sample_entry H)).
Defined.

(** [generate] throws exactly when it cannot set up the visited array: the
    loop itself never fails. *)
Lemma generate_Ok_iff g rnd :
  (∃ m, generate g rnd = Ok m) ↔ (∃ st0, carve_init g rnd = Ok st0).
Proof.
  unfold generate, carve. split.
  - intros [m Hm]. destruct (carve_init g rnd); [eauto|done].
  - intros [st0 ->]. simpl. eauto.
Qed.

Lemma carve_init_Ok_iff g rnd :
  (∃ st0, carve_init g rnd = Ok st0) ↔
  2 ≤ mg_height g < 2 ^ 32 ∧ 0 ≤ mg_width g < 2 ^ 32.
Proof.
  split.
  - intros [st0 H]. pose proof (carve_init_Ok _ _ _ H) as (Hh & Hw & _).
    unfold carve_init in H. simpl in H. unfold new_visited, array_length_ok in H.
    destruct (negb ((0 <=? mg_height g) && (mg_height g <? 2 ^ 32))) eqn:E1; [done|].
    destruct ((0 <? mg_height g) &&
              negb ((0 <=? mg_width g) && (mg_width g <? 2 ^ 32))) eqn:E2; [done|].
    apply negb_false_iff, andb_true_iff in E1 as [_ E1]. apply Z.ltb_lt in E1.
    apply andb_false_iff in E2 as [E2|E2]; [apply Z.ltb_ge in E2; lia|].
    apply negb_false_iff, andb_true_iff in E2 as [_ E2]. apply Z.ltb_lt in E2. lia.
  - intros [Hh Hw]. unfold carve_init. simpl. unfold new_visited, array_length_ok.
    assert ((0 <=? mg_height g) && (mg_height g <? 2 ^ 32) = true) as ->
      by (apply andb_true_iff; split; [apply Z.leb_le|apply Z.ltb_lt]; lia).
    assert ((0 <=? mg_width g) && (mg_width g <? 2 ^ 32) = true) as ->
      by (apply andb_true_iff; split; [apply Z.leb_le|apply Z.ltb_lt]; lia).
    rewrite andb_false_r. simpl. unfold mark_start.
    change (Z.to_nat startY) with 1%nat.
    rewrite lookup_replicate_2 by lia. simpl. eauto.
Qed.

(** ** The end-selection scan *)

Lemma foldl_cells {A B C} (f : C → B * A → C) (ys : list A) (xs : list B) (a : C) :
  foldl (λ acc y, foldl (λ acc x, f acc (x, y)) acc xs) a ys =
  foldl f a (y ← ys; x ← xs; [(x, y)]).
Proof.
  revert a. induction ys as [|y ys IH]; intros a; [done|].
  change (y ← y :: ys; x ← xs; [(x, y)])
    with ((x ← xs; [(x, y)]) ++ (y ← ys; x ← xs; [(x, y)])).
  rewrite foldl_app, <- IH. simpl. f_equal.
  clear. revert a. induction xs as [|x xs IH]; intros a; [done|]. simpl. by rewrite IH.
Qed.

Lemma scan_end_flat w h m :
  scan_end w h m = foldl (scan_cell m) (0, start) (lattice_cells w h).
Proof. unfold scan_end, lattice_cells. apply (foldl_cells (scan_cell m)). Qed.

Lemma scan_cell_eq m d e c :
  scan_cell m (d, e) c =
  if is_path (tile_at m c) && (d <? manhattan c) then (manhattan c, c) else (d, e).
Proof.
  unfold scan_cell, tile_at. simpl.
  destruct (is_path _); [|done]. simpl. by destruct (d <? manhattan c).
Qed.

(** The scan keeps the first cell of greatest distance among the Path cells
    it has seen that beat the initial distance. *)
Lemma scan_fold_spec m (L : list Vector2D) : ∀ d0 e0,
  let r := foldl (scan_cell m) (d0, e0) L in
  (r = (d0, e0) ∧
   ∀ c, c ∈ L → is_path (tile_at m c) = true → manhattan c ≤ d0) ∨
  (∃ L1 L2,
     L = L1 ++ r.2 :: L2 ∧ is_path (tile_at m r.2) = true ∧
     r.1 = manhattan r.2 ∧ d0 < r.1 ∧
     (∀ c, c ∈ L1 → is_path (tile_at m c) = true → manhattan c < r.1) ∧
     (∀ c, c ∈ L2 → is_path (tile_at m c) = true → manhattan c ≤ r.1)).
Proof.
  induction L as [|c L IH]; intros d0 e0; cbn zeta.
  - left. split; [done|]. intros c Hc. by apply elem_of_nil in Hc.
  - cbn [foldl]. rewrite scan_cell_eq.
    destruct (is_path (tile_at m c)) eqn:Hp; [destruct (d0 <? manhattan c) eqn:Hd|];
      cbn [andb].
    + apply Z.ltb_lt in Hd.
      destruct (IH (manhattan c) c) as [[Hr Hall]|(L1 & L2 & HL & Hpe & Hre & Hlt & H1 & H2)].
      * right. exists [], L. cbv zeta in Hr. rewrite Hr. simpl.
        repeat split; try done. intros x Hx. by apply elem_of_nil in Hx.
      * right. exists (c :: L1), L2. cbv zeta in *.
        split; [by rewrite HL at 1|]. split; [done|]. split; [done|].
        split; [lia|]. split; [|done].
        intros x Hx Hxp. apply elem_of_cons in Hx as [-> |Hx]; [lia|by apply H1].
    + apply Z.ltb_ge in Hd.
      destruct (IH d0 e0) as [[Hr Hall]|(L1 & L2 & HL & Hpe & Hre & Hlt & H1 & H2)].
      * left. split; [done|]. intros x Hx Hxp.
        apply elem_of_cons in Hx as [-> |Hx]; [lia|by apply Hall].
      * right. exists (c :: L1), L2. cbv zeta in *.
        split; [by rewrite HL at 1|]. split; [done|]. split; [done|].
        split; [lia|]. split; [|done].
        intros x Hx Hxp. apply elem_of_cons in Hx as [-> |Hx]; [lia|by apply H1].
    + destruct (IH d0 e0) as [[Hr Hall]|(L1 & L2 & HL & Hpe & Hre & Hlt & H1 & H2)].
      * left. split; [done|]. intros x Hx Hxp.
        apply elem_of_cons in Hx as [-> |Hx]; [congruence|by apply Hall].
      * right. exists (c :: L1), L2. cbv zeta in *.
        split; [by rewrite HL at 1|]. split; [done|]. split; [done|].
        split; [lia|]. split; [|done].
        intros x Hx Hxp. apply elem_of_cons in Hx as [-> |Hx]; [congruence|by apply H1].
Qed.

Lemma scan_end_cases w h m :
  let r := scan_end w h m in
  (r = (0, start) ∧
   ∀ c, c ∈ lattice_cells w h → is_path (tile_at m c) = true → manhattan c ≤ 0) ∨
  (∃ L1 L2,
     lattice_cells w h = L1 ++ r.2 :: L2 ∧ is_path (tile_at m r.2) = true ∧
     r.1 = manhattan r.2 ∧ 0 < r.1 ∧
     (∀ c, c ∈ L1 → is_path (tile_at m c) = true → manhattan c < r.1) ∧
     (∀ c, c ∈ L2 → is_path (tile_at m c) = true → manhattan c ≤ r.1)).
Proof. cbv zeta. rewrite scan_end_flat. apply scan_fold_spec. Qed.

(** ** The map returned by [generate] *)

Lemma is_path_Some m c :
  is_path (tile_at m c) = true ↔ ∃ t, tile_at m c = Some t ∧ type t = PATH.
Proof.
  unfold is_path. destruct (tile_at m c) as [t|].
  - rewrite bool_decide_eq_true. split; [eauto|]. by intros (t' & [= <-] & H).
  - split; [done|]. by intros (t' & ? & _).
Qed.

Lemma expected_tile_path V W c :
  type (expected_tile V W c) = PATH ↔ c ≠ start ∧ (c ∈ V ∨ c ∈ W).
Proof.
  unfold expected_tile. repeat case_decide; simpl; split; intros; try done; tauto.
Qed.

Lemma inv_is_path w h V W st c :
  carve_inv w h V W st →
  is_path (tile_at (cs_map st) c) = true ↔
  in_grid w h c ∧ c ≠ start ∧ (c ∈ V ∨ c ∈ W).
Proof.
  intros I. rewrite is_path_Some. split.
  - intros (t & Ht & Hty).
    assert (Hg : in_grid w h c) by (eapply tile_at_Some_in_grid; eauto using inv_wf).
    rewrite (inv_tiles _ _ _ _ _ I c Hg) in Ht. inversion Ht; subst.
    split; [done|]. by apply expected_tile_path.
  - intros (Hg & Hc). eexists. split; [by apply (inv_tiles _ _ _ _ _ I)|].
    by apply expected_tile_path.
Qed.

(** The cell chosen by the scan is the start cell or an open cell. *)
Lemma scan_end_choice w h V W st :
  carve_inv w h V W st →
  let e := (scan_end w h (cs_map st)).2 in
  e = start ∨ (is_path (tile_at (cs_map st) e) = true ∧ inner_lattice w h e).
Proof.
  intros I. cbv zeta.
  destruct (scan_end_cases w h (cs_map st)) as [[-> _]|(L1 & L2 & HL & Hp & _)].
  - by left.
  - right. split; [done|]. apply elem_of_lattice_cells. rewrite HL.
    apply elem_of_app. right. by left.
Qed.

Lemma place_end_tile_at w h V W st c :
  carve_inv w h V W st →
  tile_at (place_end w h (cs_map st)) c =
  if decide (c = (scan_end w h (cs_map st)).2 ∧ in_grid w h c) then Some endTile
  else tile_at (cs_map st) c.
Proof.
  intros I. unfold place_end.
  rewrite (tile_at_setTile w h) by apply (inv_wf _ _ _ _ _ I).
  by rewrite <- surjective_pairing.
Qed.

Lemma place_end_open w h V W st c :
  carve_inv w h V W st →
  is_open (place_end w h (cs_map st)) c = is_open (cs_map st) c.
Proof.
  intros I. unfold is_open at 1. rewrite (place_end_tile_at w h V W) by done.
  case_decide as Hc; [|done]. destruct Hc as [-> Hg]. simpl. symmetry.
  apply (inv_open _ _ _ _ _ _ I). split; [done|].
  destruct (scan_end_choice w h V W st I) as [-> |[Hp _]].
  - left. apply (inv_start _ _ _ _ _ I).
  - apply (inv_is_path _ _ _ _ _ _ I) in Hp. tauto.
Qed.

Lemma place_end_wf w h m : wf_map w h m → wf_map w h (place_end w h m).
Proof. intros. unfold place_end. by apply setTile_wf. Qed.

Lemma generate_Ok g rnd m :
  generate g rnd = Ok m →
  ∃ st0, carve_init g rnd = Ok st0 ∧
    m = place_end (mg_width g) (mg_height g)
          (cs_map (carve_loop (carve_fuel (mg_width g) (mg_height g))
                              (mg_width g) (mg_height g) st0)).
Proof.
  unfold generate, carve. destruct (carve_init g rnd) as [st0|]; [|done].
  simpl. intros [= <-]. eauto.
Qed.

(** ** Counting cells *)

Lemma elem_of_grid_cells m c :
  c ∈ grid_cells m ↔ in_grid (width m) (height m) c.
Proof. apply elem_of_grid_list. Qed.

Lemma NoDup_grid_cells m : NoDup (grid_cells m).
Proof.
  unfold grid_cells. apply NoDup_bind; [| |apply NoDup_seqZ].
  - intros y1 y2 c _ _ H1 H2.
    apply list_elem_of_bind in H1 as (x1 & H1 & _), H2 as (x2 & H2 & _).
    apply list_elem_of_singleton in H1, H2. congruence.
  - intros y _. apply NoDup_bind; [| |apply NoDup_seqZ].
    + intros x1 x2 c _ _ H1 H2. apply list_elem_of_singleton in H1, H2. congruence.
    + intros x _. apply NoDup_singleton.
Qed.

Lemma length_filter_listing (f : Vector2D → bool) (L K : list Vector2D) :
  NoDup L → NoDup K → (∀ c, c ∈ K ↔ c ∈ L ∧ f c = true) →
  length (List.filter f L) = length K.
Proof.
  intros HL HK Hiff. apply Permutation_length, NoDup_Permutation; [|done|].
  - by apply NoDup_ListNoDup, List.NoDup_filter, NoDup_ListNoDup.
  - intros c. rewrite Hiff, !list_elem_of_In. apply filter_In.
Qed.

Lemma on_lattice_spec c : on_lattice c = true ↔ c.1 mod 2 = 1 ∧ c.2 mod 2 = 1.
Proof.
  unfold on_lattice. rewrite andb_true_iff, !Zodd_mod, !Z.eqb_eq. done.
Qed.

Lemma inv_W_grid w h V W st c : carve_inv w h V W st → c ∈ W → in_grid w h c.
Proof.
  intros I Hc. destruct (inv_W _ _ _ _ _ I c Hc) as (p & q & Hp & Hq & Hqs & Hb).
  destruct (inv_V_lat _ _ _ _ _ I q Hq) as [?|(? & ? & _)]; [done|].
  apply between_cases in Hb. unfold in_grid.
  destruct Hb as [[-> ->]|[[-> ->]|[[-> ->]|[-> ->]]]]; simpl in *; lia.
Qed.

(** ** Connectivity and the tree property *)

Lemma simple_cycle_ext (P Q : Vector2D → Prop) l :
  (∀ c, P c → Q c) → simple_cycle P l → simple_cycle Q l.
Proof.
  intros HPQ (Hlen & Hnd & HP & Hw & Hc). repeat split; try done.
  eapply Forall_impl; eauto.
Qed.

(** C1 (as amended).  In every maze returned by [generate], whatever the
    random choices: every cell of kind Path, Start or End is reachable from
    the cell (1,1) through 4-adjacent non-solid cells; every cell of the odd
    sub-lattice strictly inside the border is carved; the non-solid cells
    contain no cycle; and, when the width is at least 2 (so that (1,1) is a
    cell of the grid), the number of removed walls between lattice cells is
    the number of carved cells of the odd sub-lattice minus one. *)
Theorem generate_spanning_tree (g : MazeGenerator) (rnd : list nat) (m : TileMap) :
  generate g rnd = Ok m →
  (∀ c t, tile_at m c = Some t → carved_kind t = true → reachable m start c) ∧
  (∀ c, inner_lattice (mg_width g) (mg_height g) c → is_open m c = true) ∧
  acyclic m ∧
  (2 ≤ mg_width g →
   Z.of_nat (removed_walls m) = Z.of_nat (carved_cells m) - 1).
Proof.
  intros Hgen. apply generate_Ok in Hgen as (st0 & Hinit & ->).
  set (w := mg_width g). set (h := mg_height g).
  destruct (carve_final g rnd st0 Hinit) as (W & I & Hend). fold w h in I, Hend.
  set (V := reverse (visits (carve_fuel w h) w h st0) ++ [start]) in *.
  set (st := carve_loop (carve_fuel w h) w h st0) in *.
  pose proof (carve_init_Ok _ _ _ Hinit) as (Hh & _). fold h in Hh.
  pose proof (place_end_open w h V W st) as Hopen.
  split; [|split; [|split]].
  - intros c t Ht Hk.
    assert (Ho : is_open (cs_map st) c = true).
    { rewrite <- Hopen by done. unfold is_open. rewrite Ht.
      rewrite (place_end_tile_at w h V W) in Ht by done.
      case_decide as Hc; [by inversion Ht|].
      assert (Hg : in_grid w h c)
        by (eapply tile_at_Some_in_grid; eauto using inv_wf).
      rewrite (inv_tiles _ _ _ _ _ I c Hg) in Ht. inversion Ht; subst.
      revert Hk. unfold expected_tile. by repeat case_decide. }
    eapply reach_mono; [|by apply (inv_reach _ _ _ _ _ I)].
    intros x Hx. by rewrite Hopen.
  - intros c Hc. rewrite Hopen by done. apply (inv_open _ _ _ _ _ _ I).
    split; [destruct Hc as (? & ? & _); unfold in_grid; lia|].
    left. by apply (inv_spanning w h V W st).
  - intros l Hc. apply (inv_acyclic _ _ _ _ _ I l).
    eapply simple_cycle_ext; [|exact Hc]. intros x Hx. by rewrite <- Hopen.
  - intros Hw.
    pose proof (place_end_wf w h _ (inv_wf _ _ _ _ _ I)) as (Hmw & Hmh & _).
    assert (HV : carved_cells (place_end w h (cs_map st)) = length V).
    { apply length_filter_listing;
        [apply NoDup_grid_cells|apply (inv_V_nodup _ _ _ _ _ I)|].
      intros c. rewrite elem_of_grid_cells, Hmw, Hmh, andb_true_iff, Hopen by done.
      rewrite (inv_open _ _ _ _ _ _ I), on_lattice_spec. split.
      - intros Hc. pose proof (inv_V_odd _ _ _ _ _ _ I Hc) as (? & ? & _).
        assert (in_grid w h c).
        { destruct (inv_V_lat _ _ _ _ _ I c Hc) as [-> |(? & ? & _)];
            unfold in_grid, start, startX, startY; simpl; lia. }
        tauto.
      - intros (_ & (_ & [Hc|Hc]) & Ho1 & Ho2); [done|].
        apply (inv_W_mixed _ _ _ _ _ _ I) in Hc. zmod. }
    assert (HW : removed_walls (place_end w h (cs_map st)) = length W).
    { apply length_filter_listing;
        [apply NoDup_grid_cells|apply (inv_W_nodup _ _ _ _ _ I)|].
      intros c. rewrite elem_of_grid_cells, Hmw, Hmh, andb_true_iff, Hopen by done.
      rewrite (inv_open _ _ _ _ _ _ I), negb_true_iff, <- not_true_iff_false.
      rewrite on_lattice_spec. split.
      - intros Hc. pose proof (inv_W_mixed _ _ _ _ _ _ I Hc).
        pose proof (inv_W_grid _ _ _ _ _ _ I Hc). split; [done|].
        split; [tauto|]. intros [? ?]. zmod.
      - intros (_ & (_ & [Hc|Hc]) & Hno); [|done].
        pose proof (inv_V_odd _ _ _ _ _ _ I Hc) as (? & ? & _). tauto. }
    rewrite HV, HW, (inv_count _ _ _ _ _ I). lia.
Qed.

(** [generate_spanning_tree] on the 5 by 5 sample. *)
Lemma generate_spanning_tree_witness :
  generate sample_generator sample_random = Ok sample_maze ∧
  acyclic sample_maze ∧
  Z.of_nat (removed_walls sample_maze) = Z.of_nat (carved_cells sample_maze) - 1.
Proof.
  assert (H : generate sample_generator sample_random = Ok sample_maze)
    by (vm_compute; reflexivity).
  split; [exact H|].
  pose proof (generate_spanning_tree sample_generator sample_random sample_maze H)
    as (_ & _ & Hac & Hcount).
  split; [exact Hac|]. apply Hcount. simpl. lia.
Defined.

(** C1 as stated fails for a maze one cell wide: the start cell (1,1) lies
    outside the grid, nothing is carved, and 0 removed walls is not 0 carved
    lattice cells minus one. *)
Lemma generate_tree_count_fails_narrow :
  generate narrow_generator [] = Ok narrow_maze ∧
  Z.of_nat (removed_walls narrow_maze) ≠ Z.of_nat (carved_cells narrow_maze) - 1.
Proof.
  split; [vm_compute; reflexivity|]. vm_compute. discriminate.
Qed.

(** ** The end cell *)

Lemma seq_sorted a n : StronglySorted lt (seq a n).
Proof.
  revert a. induction n as [|n IH]; intros a; simpl; constructor; [apply IH|].
  apply Forall_forall. intros x Hx. apply list_elem_of_In, in_seq in Hx. lia.
Qed.

Lemma odd_range_sorted n : StronglySorted Z.lt (odd_range n).
Proof.
  unfold odd_range, seqZ. rewrite <- list_fmap_compose.
  eapply StronglySorted_fmap; [|apply seq_sorted]. intros x y Hxy. simpl. lia.
Qed.

Lemma lattice_cells_sorted w h : StronglySorted scan_before (lattice_cells w h).
Proof.
  unfold lattice_cells. pose proof (odd_range_sorted h) as Hys.
  induction Hys as [|y ys Hys IH Hall]; [constructor|].
  change (StronglySorted scan_before
            ((x ← odd_range w; [(x, y)]) ++ (y ← ys; x ← odd_range w; [(x, y)]))).
  apply StronglySorted_app_2; [| |exact IH].
  - intros c1 c2 H1 H2. apply list_elem_of_bind in H1 as (x1 & H1 & _).
    apply list_elem_of_singleton in H1. subst c1.
    apply list_elem_of_bind in H2 as (y2 & H2 & Hy2).
    apply list_elem_of_bind in H2 as (x2 & H2 & _).
    apply list_elem_of_singleton in H2. subst c2.
    rewrite Forall_forall in Hall. left. simpl. by apply Hall.
  - pose proof (odd_range_sorted w) as Hxs. clear -Hxs.
    induction Hxs as [|x xs Hxs IH Hall]; [constructor|].
    simpl. constructor; [exact IH|].
    apply Forall_forall. intros c Hc. apply list_elem_of_bind in Hc as (x' & Hc & Hx').
    apply list_elem_of_singleton in Hc. subst c.
    rewrite Forall_forall in Hall. right. simpl. split; [done|by apply Hall].
Qed.

Lemma lattice_cells_after w h L1 e L2 c :
  lattice_cells w h = L1 ++ e :: L2 → c ∈ L2 → scan_before e c.
Proof.
  intros HL Hc. pose proof (lattice_cells_sorted w h) as Hs. rewrite HL in Hs.
  apply StronglySorted_app_1_r in Hs. inversion Hs as [|? ? _ Hall]; subst.
  rewrite Forall_forall in Hall. by apply Hall.
Qed.

Lemma carve_Ok g rnd st :
  carve g rnd = Ok st →
  ∃ st0, carve_init g rnd = Ok st0 ∧
    st = carve_loop (carve_fuel (mg_width g) (mg_height g)) (mg_width g) (mg_height g) st0.
Proof.
  unfold carve. destruct (carve_init g rnd) as [st0|]; [|done].
  simpl. intros [= <-]. eauto.
Qed.

Lemma generate_carve g rnd st :
  carve g rnd = Ok st →
  generate g rnd = Ok (place_end (mg_width g) (mg_height g) (cs_map st)).
Proof. unfold generate. by intros ->. Qed.

(** C4 (as amended).  Let the carving loop of [generate] end with the map
    [m], and suppose [m] has a Path cell on the odd sub-lattice.  Then the
    cell [e] that [generate] marks End is a Path cell of [m] on the odd
    sub-lattice; its Manhattan distance from (1,1) is at least that of every
    Path cell of [m], the removed walls off the lattice included; and every
    Path cell of the lattice at the same distance is [e] itself or comes
    after [e] in the row-major scan. *)
Theorem generate_end_cell (g : MazeGenerator) (rnd : list nat) (st : CarveState) :
  carve g rnd = Ok st →
  let w := mg_width g in
  let h := mg_height g in
  let m := cs_map st in
  let e := (scan_end w h m).2 in
  (∃ c, inner_lattice w h c ∧ is_path (tile_at m c) = true) →
  generate g rnd = Ok (place_end w h m) ∧
  tile_at (place_end w h m) e = Some endTile ∧
  is_path (tile_at m e) = true ∧ inner_lattice w h e ∧
  (∀ c, is_path (tile_at m c) = true → manhattan c ≤ manhattan e) ∧
  (∀ c, inner_lattice w h c → is_path (tile_at m c) = true →
        manhattan c = manhattan e → c = e ∨ scan_before e c).
Proof.
  intros Hcarve w h m e (c0 & Hc0 & Hp0).
  pose proof (generate_carve _ _ _ Hcarve) as Hgen.
  apply carve_Ok in Hcarve as (st0 & Hinit & Hst).
  destruct (carve_final g rnd st0 Hinit) as (W & I & _). cbv zeta in I.
  rewrite <- Hst in I. fold w h in I.
  set (V := reverse (visits (carve_fuel w h) w h st0) ++ [start]) in *.
  assert (Hfar : ∀ c, c ∈ V → c ≠ start → 2 ≤ manhattan c).
  { intros [x y] Hc Hne. pose proof (inv_V_odd _ _ _ _ _ _ I Hc) as (? & ? & ? & ?).
    unfold manhattan, startX, startY. simpl in *.
    assert (x ≠ 1 ∨ y ≠ 1)
      by (destruct (decide (x = 1)) as [-> |]; [right; intros ->; by apply Hne|by left]).
    zmod. }
  destruct (scan_end_cases w h m) as [[_ Hall]|(L1 & L2 & HL & Hpe & Hre & Hpos & H1 & H2)].
  { exfalso. apply (inv_is_path _ _ _ _ _ _ I) in Hp0 as Hp0'.
    destruct Hp0' as (_ & Hne & [Hv|Hw]).
    - specialize (Hfar c0 Hv Hne). apply elem_of_lattice_cells in Hc0.
      specialize (Hall c0 Hc0 Hp0). lia.
    - apply (inv_W_mixed _ _ _ _ _ _ I) in Hw. destruct Hc0 as (_ & _ & ? & ?). zmod. }
  fold e in HL, Hpe, Hre, H1, H2. rewrite Hre in H1, H2.
  assert (He : inner_lattice w h e).
  { apply elem_of_lattice_cells. rewrite HL. apply elem_of_app. right. by left. }
  assert (Hlat : ∀ c, inner_lattice w h c → is_path (tile_at m c) = true →
                      manhattan c < manhattan e ∨ c = e ∨
                      (manhattan c ≤ manhattan e ∧ scan_before e c)).
  { intros c Hc Hp. apply elem_of_lattice_cells in Hc. rewrite HL in Hc.
    apply elem_of_app in Hc as [Hc|Hc]; [left; by apply H1|].
    apply elem_of_cons in Hc as [-> |Hc]; [by right; left|].
    right; right. split; [by apply H2|]. by eapply lattice_cells_after. }
  assert (HV : ∀ c, c ∈ V → c ≠ start → manhattan c ≤ manhattan e).
  { intros c Hc Hne.
    assert (Hin : inner_lattice w h c)
      by (destruct (inv_V_lat _ _ _ _ _ I c Hc); done).
    assert (Hp : is_path (tile_at m c) = true).
    { apply (inv_is_path _ _ _ _ _ _ I). destruct Hin as (? & ? & _).
      unfold in_grid. repeat split; try lia; tauto. }
    destruct (Hlat c Hin Hp) as [?|[-> |[? _]]]; lia. }
  split; [exact Hgen|]. split.
  { unfold place_end. rewrite (tile_at_setTile w h) by apply (inv_wf _ _ _ _ _ I).
    fold e. rewrite <- surjective_pairing. rewrite decide_True; [done|].
    split; [done|]. destruct He as (? & ? & _). unfold in_grid. lia. }
  split; [exact Hpe|]. split; [exact He|]. split.
  - intros c Hp. apply (inv_is_path _ _ _ _ _ _ I) in Hp as (_ & Hne & [Hv|Hw]).
    + by apply HV.
    + destruct (inv_W _ _ _ _ _ I c Hw) as (p & q & Hp & Hq & Hqs & Hb).
      pose proof (inv_V_odd _ _ _ _ _ _ I Hp) as (_ & _ & ? & ?).
      pose proof (inv_V_odd _ _ _ _ _ _ I Hq) as (_ & _ & ? & ?).
      pose proof (HV q Hq Hqs) as Hqe.
      apply between_cases in Hb. destruct p as [p1 p2].
      assert (Hpe' : (p1, p2) ≠ start → manhattan (p1, p2) ≤ manhattan e) by (by apply HV).
      unfold manhattan, start, startX, startY in *. simpl in *.
      destruct Hb as [[-> ->]|[[-> ->]|[[-> ->]|[-> ->]]]]; simpl in *.
      * assert ((p1, p2) ≠ (1, 1)) by (intros [= ? ?]; lia). specialize (Hpe' ltac:(done)). lia.
      * lia.
      * lia.
      * assert ((p1, p2) ≠ (1, 1)) by (intros [= ? ?]; lia). specialize (Hpe' ltac:(done)). lia.
  - intros c Hc Hp Heq. destruct (Hlat c Hc Hp) as [?|[?|[_ ?]]]; [lia|by left|by right].
Qed.

(** The hypothesis of [generate_end_cell] in terms of the dimensions: the
    loop leaves a Path cell on the lattice exactly when the lattice has a
    second cell. *)
Lemma lattice_path_iff_dims g rnd st :
  carve g rnd = Ok st →
  (∃ c, inner_lattice (mg_width g) (mg_height g) c ∧
        is_path (tile_at (cs_map st) c) = true) ↔
  (5 ≤ mg_width g ∧ 3 ≤ mg_height g) ∨ (3 ≤ mg_width g ∧ 5 ≤ mg_height g).
Proof.
  intros Hcarve. apply carve_Ok in Hcarve as (st0 & Hinit & ->).
  set (w := mg_width g). set (h := mg_height g).
  destruct (carve_final g rnd st0 Hinit) as (W & I & Hend). fold w h in I, Hend.
  split.
  - intros ([x y] & (Hx & Hy & Hox & Hoy) & Hp).
    apply (inv_is_path _ _ _ _ _ _ I) in Hp as (_ & Hne & _). simpl in *.
    destruct (decide (x = 1)) as [-> |Hx1]; [|left; zmod].
    destruct (decide (y = 1)) as [-> |Hy1]; [done|right; zmod].
  - intros Hdim.
    assert (∃ c, inner_lattice w h c ∧ c ≠ start) as (c & Hc & Hne).
    { destruct Hdim as [[? ?]|[? ?]]; [exists (3, 1)|exists (1, 3)];
        (split; [unfold inner_lattice; simpl; repeat split; lia|done]). }
    exists c. split; [done|]. apply (inv_is_path _ _ _ _ _ _ I).
    split; [destruct Hc as (? & ? & _); unfold in_grid; lia|].
    split; [done|]. left. by eapply inv_spanning.
Qed.

(** [generate_end_cell] on the 5 by 5 sample: the End cell is (3,3). *)
Lemma generate_end_cell_witness :
  carve sample_generator sample_random = Ok sample_carved ∧
  (∃ c, inner_lattice 5 5 c ∧ is_path (tile_at (cs_map sample_carved) c) = true) ∧
  generate sample_generator sample_random =
    Ok (place_end 5 5 (cs_map sample_carved)) ∧
  tile_at (place_end 5 5 (cs_map sample_carved)) (3, 3) = Some endTile.
Proof.
  assert (H : carve sample_generator sample_random = Ok sample_carved)
    by (vm_compute; reflexivity).
  assert (Hc : ∃ c, inner_lattice 5 5 c ∧
                    is_path (tile_at (cs_map sample_carved) c) = true).
  { exists (3, 1). split; [|vm_compute; reflexivity].
    unfold inner_lattice. simpl. repeat split; lia. }
  split; [exact H|]. split; [exact Hc|].
  pose proof (generate_end_cell sample_generator sample_random sample_carved H Hc)
    as (Hgen & Hend & _).
  split; [exact Hgen|exact Hend].
Defined.

(** C4 as stated fails for the 3 by 3 maze: the only carved cell is the
    start cell, and the cell marked End, (1,1), held the Start tile and not a
    Path tile. *)
Lemma generate_end_not_path_tiny :
  carve tiny_generator [] = Ok tiny_carved ∧
  generate tiny_generator [] = Ok tiny_maze ∧
  tile_at tiny_maze (1, 1) = Some endTile ∧
  tile_at (cs_map tiny_carved) (1, 1) = Some startTile ∧
  is_path (tile_at (cs_map tiny_carved) (1, 1)) = false.
Proof. repeat split; vm_compute; reflexivity. Qed.

(** ** Construction of tile maps and layers *)

(** C8 (as amended).  [createLayer] never fails and never looks at the ids
    already in use: for every map and every id, fresh or not, it appends one
    new layer carrying that id, with [height] rows of [width] tiles, every
    tile of kind Empty and not solid, and leaves the earlier layers as they
    were. *)
Theorem createLayer_appends (m : TileMap) (id : string) :
  let r := createLayer m id in
  layers r.1 = layers m ++ [r.2] ∧
  width r.1 = width m ∧ height r.1 = height m ∧ tileSize r.1 = tileSize m ∧
  layer_id r.2 = id ∧ visible r.2 = true ∧
  length (tiles r.2) = Z.to_nat (height m) ∧
  Forall (λ row, length row = Z.to_nat (width m) ∧
                 Forall (λ t, type t = EMPTY ∧ solid t = false) row) (tiles r.2).
Proof.
  simpl. repeat split.
  - by rewrite length_replicate.
  - apply Forall_replicate. split; [by rewrite length_replicate|].
    by apply Forall_replicate.
Qed.

(** C8 as stated fails: on the sample maze, which already has a layer
    "maze", [createLayer] with the id "maze" appends a second layer with
    that id, and [getLayer] still answers with the first one. *)
Lemma createLayer_duplicate_id :
  let m := (createLayer sample_maze "maze").1 in
  layer_id <$> layers sample_maze = ["maze"] ∧
  layer_id <$> layers m = ["maze"; "maze"] ∧
  getLayer m "maze" = getLayer sample_maze "maze".
Proof. repeat split. Qed.

(** [generate] throws while it sets up its visited array, exactly when the
    height is below 2 or a dimension is not an array length. *)
Lemma generate_throws_iff g rnd :
  (∃ e, generate g rnd = Throw e) ↔
  ¬ (2 ≤ mg_height g < 2 ^ 32 ∧ 0 ≤ mg_width g < 2 ^ 32).
Proof.
  rewrite <- (carve_init_Ok_iff g rnd), <- (generate_Ok_iff g rnd). split.
  - intros [e He] [m Hm]. congruence.
  - intros Hn. destruct (generate g rnd) as [m|e] eqn:E; [|eauto].
    exfalso. apply Hn. eauto.
Qed.

(** C9 (as amended).  Neither constructor validates its arguments: for all
    integers, positive or not, [new TileMap] returns a map with those
    dimensions and no layer, and [new MazeGenerator] returns a generator
    with those dimensions.  An invalid shape shows only when [generate] is
    called on the generator: it throws exactly when the height is below 2 or
    a dimension is not an array length. *)
Theorem constructors_never_fail (w h : Z) (ts : Q) :
  TileMap_new w h ts = Ok {| width := w; height := h; tileSize := ts; layers := [] |} ∧
  MazeGenerator_new w h = Ok {| mg_width := w; mg_height := h |} ∧
  ∀ rnd, (∃ e, generate {| mg_width := w; mg_height := h |} rnd = Throw e) ↔
         ¬ (2 ≤ h < 2 ^ 32 ∧ 0 ≤ w < 2 ^ 32).
Proof.
  split; [done|]. split; [done|]. intros rnd.
  apply (generate_throws_iff {| mg_width := w; mg_height := h |}).
Qed.

(** C9 as stated fails: a width of 0, a height of -1 and a cell size of 0
    are accepted by both constructors. *)
Lemma constructors_accept_non_positive :
  (∃ m, TileMap_new 0 (-1) 0 = Ok m ∧ width m = 0 ∧ height m = -1 ∧ (tileSize m == 0)%Q) ∧
  (∃ g, MazeGenerator_new 0 (-1) = Ok g ∧ mg_width g = 0 ∧ mg_height g = -1).
Proof. split; eexists; repeat split. Qed.

(** ** Collision resolution between two entities *)

Lemma Qlt_bool_iff a b : Qlt_bool a b = true ↔ (a < b)%Q.
Proof.
  unfold Qlt_bool. rewrite negb_true_iff, <- not_true_iff_false, Qle_bool_iff.
  split; [apply Qnot_le_lt|apply Qlt_not_le].
Qed.

Lemma Qlt_bool_false a b : Qlt_bool a b = false ↔ (b <= a)%Q.
Proof. unfold Qlt_bool. rewrite negb_false_iff. apply Qle_bool_iff. Qed.

Lemma onCollision_body e other :
  e_x (onCollision e other) = e_x e ∧ e_y (onCollision e other) = e_y e ∧
  velocity (onCollision e other) = velocity e ∧
  e_width (onCollision e other) = e_width e ∧
  e_height (onCollision e other) = e_height e ∧
  e_solid (onCollision e other) = e_solid e ∧
  active (onCollision e other) = active e.
Proof.
  unfold onCollision. destruct (as_player e); [|done].
  destruct (includes _ _); [done|]. by destruct (includes _ _).
Qed.

(** C3 (as amended).  For two solid, overlapping bodies whose overlap depths
    on X and on Y are equal, [resolveCollision] resolves vertically: it
    leaves [a]'s x position and x velocity unchanged, moves [a] to the nearer
    horizontal edge of [b] (above [b] when [a.y < b.y], below it otherwise)
    and zeroes [a]'s y velocity. *)
Theorem resolveCollision_tie_vertical (a b : Entity) :
  checkCollision a b = true →
  (overlapX a b == overlapY a b)%Q →
  let a' := (resolveCollision a b).1 in
  e_x a' = e_x a ∧ (velocity a').1 = (velocity a).1 ∧
  e_y a' = (if Qlt_bool (e_y a) (e_y b) then e_y b - e_height a
            else e_y b + e_height b)%Q ∧
  (velocity a').2 = 0%Q.
Proof.
  intros Hc Htie. cbv zeta. unfold resolveCollision. rewrite Hc. cbn [negb fst].
  destruct (onCollision_body
              (push_out a (e_x b) (e_y b) (e_width b) (e_height b)) b)
    as (-> & -> & -> & _).
  unfold push_out. fold (overlapX a b) (overlapY a b).
  assert (Qlt_bool (overlapX a b) (overlapY a b) = false) as ->.
  { apply Qlt_bool_false. rewrite Htie. apply Qle_refl. }
  by destruct (Qlt_bool (e_y a) (e_y b)).
Qed.

(** [resolveCollision_tie_vertical] on two boxes overlapping by 5 on each
    axis. *)
Lemma resolveCollision_tie_vertical_witness :
  checkCollision box_a box_b = true ∧
  (overlapX box_a box_b == overlapY box_a box_b)%Q ∧
  e_x (resolveCollision box_a box_b).1 = e_x box_a ∧
  (velocity (resolveCollision box_a box_b).1).2 = 0%Q.
Proof.
  assert (H1 : checkCollision box_a box_b = true) by reflexivity.
  assert (H2 : (overlapX box_a box_b == overlapY box_a box_b)%Q) by reflexivity.
  pose proof (resolveCollision_tie_vertical box_a box_b H1 H2) as (Hx & _ & _ & Hv).
  split; [exact H1|]. split; [exact H2|]. split; [exact Hx|exact Hv].
Defined.

(** C3 as stated fails: with equal overlap depths the body is not moved on
    the X axis and keeps its x velocity, while its y position and y velocity
    change. *)
Lemma resolveCollision_tie_not_horizontal :
  let a' := (resolveCollision box_a box_b).1 in
  checkCollision box_a box_b = true ∧
  (overlapX box_a box_b == overlapY box_a box_b)%Q ∧
  ¬ (e_x a' == e_x box_b - e_width box_a)%Q ∧
  ¬ ((velocity a').1 == 0)%Q ∧
  ¬ (e_y a' == e_y box_a)%Q ∧
  ¬ ((velocity a').2 == (velocity box_a).2)%Q.
Proof. repeat split; vm_compute; discriminate. Qed.

(** ** Collision resolution against the tile map *)



(** ** Win and lose *)

(** C2 (as amended).  In one evaluation of [checkGameState] in which the
    player's cell (floor of its top-left corner over the tile size, layer 0;
    the tile size is not 0, as a cell index requires) has kind End and the
    player's health is at most 0, the win test first
    sets [gameOver] and [won], and the lose test, which is evaluated
    whatever the win test found, then sets [won] back to false.  The
    evaluation ends with [won = false]; [gameOver] is true unless the restart
    key was pressed, in which case [restart] has reset it. *)
Theorem checkGameState_lose_overrides_win
    (g : GameEngine) (p : Entity) (d : PlayerData) (m : TileMap) (tile : Tile) :
  the_player g = Some p → as_player p = Some d → tileMap g = Some m →
  ¬ (tileSize m == 0)%Q →
  getTile m 0 (Qfloor (e_x p / tileSize m)) (Qfloor (e_y p / tileSize m)) = Some tile →
  type tile = END →
  (health d <= 0)%Q →
  gameOver (win_check g p (state g)) = true ∧ won (win_check g p (state g)) = true ∧
  won (state (checkGameState g)) = false ∧
  gameOver (state (checkGameState g)) = negb (isKeyPressed (inputSystem g) "space").
Proof.
  intros Hp Hd Hm _ Htile Hend Hhealth.
  assert (Hwin : win_check g p (state g) = set_outcome (state g) true true).
  { unfold win_check. by rewrite Hm, Htile, Hend. }
  assert (Hlose : lose_check p (win_check g p (state g)) =
                  set_outcome (win_check g p (state g)) true false).
  { unfold lose_check. rewrite Hd. apply Qle_bool_iff in Hhealth. by rewrite Hhealth. }
  rewrite Hwin. split; [done|]. split; [done|].
  unfold checkGameState. rewrite Hp. cbv zeta. rewrite Hlose, Hwin. simpl.
  destruct (isKeyPressed (inputSystem g) "space"); [|done].
  unfold restart. simpl. by destruct (player g).
Qed.

(** [checkGameState_lose_overrides_win] on a spent player standing on the
    End cell of the 3 by 3 maze. *)
Lemma checkGameState_lose_overrides_win_witness :
  the_player tiny_engine = Some spent_player ∧
  tileMap tiny_engine = Some tiny_maze ∧
  getTile tiny_maze 0 1 1 = Some endTile ∧
  won (state (checkGameState tiny_engine)) = false.
Proof.
  assert (H1 : the_player tiny_engine = Some spent_player) by reflexivity.
  assert (H2 : tileMap tiny_engine = Some tiny_maze) by reflexivity.
  assert (H3 : getTile tiny_maze 0
                 (Qfloor (e_x spent_player / tileSize tiny_maze))
                 (Qfloor (e_y spent_player / tileSize tiny_maze)) = Some endTile)
    by reflexivity.
  assert (H4 : (0 <= 0)%Q) by apply Qle_refl.
  assert (H5 : ¬ (tileSize tiny_maze == 0)%Q) by (intros H; discriminate H).
  pose proof (checkGameState_lose_overrides_win tiny_engine spent_player
                {| health := 0; score := 0; speed := 150 |} tiny_maze endTile
                H1 eq_refl H2 H5 H3 eq_refl H4) as (_ & _ & Hwon & _).
  split; [exact H1|]. split; [exact H2|]. split; [reflexivity|exact Hwon].
Defined.

(** C2 as stated fails: for a player standing on the End cell with health 0
    the evaluation ends with [gameOver = true] and [won = false]. *)
Lemma checkGameState_win_overwritten :
  the_player tiny_engine = Some spent_player ∧
  getTile tiny_maze 0 (Qfloor (e_x spent_player / tileSize tiny_maze))
                      (Qfloor (e_y spent_player / tileSize tiny_maze)) = Some endTile ∧
  as_player spent_player = Some {| health := 0; score := 0; speed := 150 |} ∧
  gameOver (state (checkGameState tiny_engine)) = true ∧
  won (state (checkGameState tiny_engine)) ≠ true.
Proof. repeat split. vm_compute. discriminate. Qed.

(** ** The frame callback and the fixed time step *)

Lemma isKeyPressed_settled i key : isKeyPressed (input_update i) key = false.
Proof. unfold isKeyPressed, input_update. cbn [keys previousKeys]. apply andb_negb_r. Qed.

Lemma getDirection_update i : getDirection (input_update i) = getDirection i.
Proof. done. Qed.

(** The fields that [restart] leaves alone. *)
Lemma restart_frame g :
  tileMap (restart g) = tileMap g ∧ player (restart g) = player g ∧
  inputSystem (restart g) = inputSystem g ∧ accumulator (restart g) = accumulator g ∧
  running (restart g) = running g ∧ paused (restart g) = paused g ∧
  lastTime (restart g) = lastTime g.
Proof. unfold restart. simpl. destruct (player g) eqn:E; simpl; repeat split; done. Qed.

Lemma checkGameState_frame g :
  tileMap (checkGameState g) = tileMap g ∧ player (checkGameState g) = player g ∧
  inputSystem (checkGameState g) = inputSystem g ∧
  accumulator (checkGameState g) = accumulator g ∧
  running (checkGameState g) = running g ∧ paused (checkGameState g) = paused g ∧
  lastTime (checkGameState g) = lastTime g.
Proof.
  unfold checkGameState. destruct (the_player g); [|repeat split]. cbv zeta.
  match goal with |- context [if ?b then _ else _] => destruct b end; [|repeat split].
  match goal with |- context [restart ?x] => pose proof (restart_frame x) as H end.
  exact H.
Qed.

Lemma checkGameState_entities g :
  isKeyPressed (inputSystem g) "space" = false →
  entities (checkGameState g) = entities g.
Proof.
  intros Hk. unfold checkGameState. destruct (the_player g); [|done]. cbv zeta.
  simpl. rewrite Hk, andb_false_r. done.
Qed.

Lemma update_frame dt g :
  tileMap (update dt g) = tileMap g ∧ player (update dt g) = player g ∧
  inputSystem (update dt g) = inputSystem g ∧
  accumulator (update dt g) = accumulator g ∧
  running (update dt g) = running g ∧ paused (update dt g) = paused g ∧
  lastTime (update dt g) = lastTime g.
Proof.
  unfold update. cbv zeta.
  match goal with |- context [checkGameState ?x] =>
    pose proof (checkGameState_frame x) as H end.
  exact H.
Qed.

Lemma update_entities dt g :
  isKeyPressed (inputSystem g) "space" = false →
  entities (update dt g) =
  step_entities (tileMap g) (player g) dt (getDirection (inputSystem g)) (entities g).
Proof. intros Hk. unfold update. cbv zeta. by rewrite checkGameState_entities. Qed.

Lemma play_app m pl ds1 ds2 es :
  play m pl (ds1 ++ ds2) es = play m pl ds2 (play m pl ds1 es).
Proof. unfold play. apply foldl_app. Qed.

Lemma physics_loop_frame fuel : ∀ g,
  tileMap (physics_loop fuel g) = tileMap g ∧
  player (physics_loop fuel g) = player g ∧
  inputSystem (physics_loop fuel g) = inputSystem g ∧
  running (physics_loop fuel g) = running g ∧
  paused (physics_loop fuel g) = paused g ∧
  lastTime (physics_loop fuel g) = lastTime g.
Proof.
  induction fuel as [|fuel IH]; intros g; [done|]. simpl.
  destruct (Qle_bool frameTime (accumulator g)); [|done].
  destruct (IH (with_accumulator (update frameTime g)
                  (accumulator (update frameTime g) - frameTime)%Q))
    as (-> & -> & -> & -> & -> & ->).
  simpl. destruct (update_frame frameTime g) as (? & ? & ? & _ & ? & ? & ?). done.
Qed.

(** The passes of the loop act on the bodies as that many physics steps
    with the direction held by the input system. *)
Lemma physics_loop_entities fuel : ∀ g,
  isKeyPressed (inputSystem g) "space" = false →
  entities (physics_loop fuel g) =
  play (tileMap g) (player g)
       (replicate (loop_steps fuel (accumulator g)) (getDirection (inputSystem g)))
       (entities g).
Proof.
  induction fuel as [|fuel IH]; intros g Hk; [done|]. simpl.
  destruct (Qle_bool frameTime (accumulator g)); [|done].
  destruct (update_frame frameTime g) as (Hm & Hp & Hi & Ha & _).
  rewrite IH by (simpl; by rewrite Hi). simpl.
  rewrite Hm, Hp, Hi, Ha, update_entities by done. done.
Qed.

Lemma run_frame_frame g f :
  tileMap (run_frame g f) = tileMap g ∧ player (run_frame g f) = player g.
Proof.
  unfold run_frame, gameLoop. simpl.
  destruct (running g); [|done]. simpl. destruct (paused g); [done|]. simpl.
  match goal with |- context [physics_loop ?n ?x] =>
    destruct (physics_loop_frame n x) as (-> & -> & _) end. done.
Qed.

Lemma run_frame_entities g f :
  entities (run_frame g f) =
  play (tileMap g) (player g)
       (replicate (frame_steps g f) (frame_direction g f)) (entities g).
Proof.
  unfold run_frame, gameLoop, frame_steps, frame_direction. simpl.
  destruct (running g); [|done]. simpl. destruct (paused g); [done|]. simpl.
  rewrite physics_loop_entities by apply isKeyPressed_settled. done.
Qed.

(** A run acts on the bodies as the sequence of physics steps it makes. *)
Lemma run_frames_entities fs : ∀ g,
  entities (run_frames fs g) =
  play (tileMap g) (player g) (run_directions fs g) (entities g).
Proof.
  induction fs as [|f fs IH]; intros g; [done|].
  change (run_frames (f :: fs) g) with (run_frames fs (run_frame g f)).
  cbn [run_directions]. rewrite IH, play_app, run_frame_entities.
  by destruct (run_frame_frame g f) as [-> ->].
Qed.

(** C7.  Two runs of the frame callback from engines with the same grid and
    the same bodies, whose physics steps read the same sequence of
    directions (hence as many steps in both), end with identical bodies,
    however the accumulators, the timestamps and the frame boundaries
    distribute those steps over the frames. *)
Theorem fixed_timestep_determinism (g1 g2 : GameEngine) (fs1 fs2 : list Frame) :
  tileMap g1 = tileMap g2 → entities g1 = entities g2 → player g1 = player g2 →
  run_directions fs1 g1 = run_directions fs2 g2 →
  entities (run_frames fs1 g1) = entities (run_frames fs2 g2).
Proof.
  intros Hm He Hp Hd. rewrite !run_frames_entities. by rewrite Hm, He, Hp, Hd.
Qed.

(** [fixed_timestep_determinism] on the sample engine: two physics steps to
    the right, run within one frame of 40 ms or within two frames of 20 ms. *)
Lemma fixed_timestep_determinism_witness :
  run_directions one_long_frame sample_engine = [RIGHT; RIGHT] ∧
  run_directions two_short_frames sample_engine = [RIGHT; RIGHT] ∧
  entities (run_frames one_long_frame sample_engine) =
  entities (run_frames two_short_frames sample_engine).
Proof.
  assert (H1 : run_directions one_long_frame sample_engine = [RIGHT; RIGHT])
    by (vm_compute; reflexivity).
  assert (H2 : run_directions two_short_frames sample_engine = [RIGHT; RIGHT])
    by (vm_compute; reflexivity).
  split; [exact H1|]. split; [exact H2|].
  exact (fixed_timestep_determinism sample_engine sample_engine
           one_long_frame two_short_frames eq_refl eq_refl eq_refl (eq_trans H1 (eq_sym H2))).
Defined.

(** The loop of the frame callback leaves on its own test: the fuel
    [steps_due] is enough. *)
Lemma frameTime_value : (frameTime == 50 # 3)%Q.
Proof. reflexivity. Qed.

Lemma physics_loop_exit fuel : ∀ g,
  (accumulator g < (inject_Z (Z.of_nat fuel) + 1) * frameTime)%Q →
  Qle_bool frameTime (accumulator (physics_loop fuel g)) = false.
Proof.
  induction fuel as [|fuel IH]; intros g Hlt.
  - cbn [physics_loop]. change (inject_Z (Z.of_nat 0)) with 0%Q in Hlt.
    apply not_true_iff_false. rewrite Qle_bool_iff.
    apply Qlt_not_le. rewrite frameTime_value in Hlt |- *. lra.
  - cbn [physics_loop]. destruct (Qle_bool frameTime (accumulator g)) eqn:E; [|done].
    apply IH. cbn [accumulator with_accumulator].
    destruct (update_frame frameTime g) as (_ & _ & _ & -> & _).
    rewrite Nat2Z.inj_succ, <- Z.add_1_r, inject_Z_plus in Hlt.
    change (inject_Z 1) with 1%Q in Hlt.
    rewrite frameTime_value in Hlt |- *. lra.
Qed.

Lemma steps_due_enough a :
  (a < (inject_Z (Z.of_nat (steps_due a)) + 1) * frameTime)%Q.
Proof.
  unfold steps_due. pose proof (Qlt_floor (a / frameTime)) as Hf.
  assert (Hle : (inject_Z (Qfloor (a / frameTime) + 1)
                 <= inject_Z (Z.of_nat (Z.to_nat (Qfloor (a / frameTime)))) + 1)%Q).
  { rewrite inject_Z_plus. apply Qplus_le_l. rewrite <- Zle_Qle. lia. }
  set (n := inject_Z (Z.of_nat (Z.to_nat (Qfloor (a / frameTime))))) in *.
  set (k := inject_Z (Qfloor (a / frameTime) + 1)) in *.
  assert (Hdiv : (a / frameTime == a * (3 # 50))%Q)
    by (rewrite frameTime_value; unfold Qdiv; reflexivity).
  rewrite Hdiv in Hf. rewrite frameTime_value. lra.
Qed.

Lemma gameLoop_exit ts g :
  running g = true → paused g = false →
  Qle_bool frameTime (accumulator (gameLoop ts g)) = false.
Proof.
  intros Hr Hp. unfold gameLoop. rewrite Hr, Hp. simpl.
  apply physics_loop_exit. simpl. apply steps_due_enough.
Qed.

(** ** A maze without a Path cell on the lattice *)

Lemma find_all_false {A} (f : A → bool) (l : list A) :
  (∀ x, x ∈ l → f x = false) → List.find f l = None.
Proof.
  induction l as [|a l IH]; intros H; [done|]. simpl.
  rewrite (H a) by (by left). apply IH. intros x Hx. apply H. by right.
Qed.

Lemma restart_row_no_start m y p :
  (∀ c t, tile_at m c = Some t → type t ≠ START) → restart_row m y p = p.
Proof.
  intros Hno. unfold restart_row. rewrite find_all_false; [done|].
  intros x _. destruct (getTile m 0 x y) as [t|] eqn:E; [|done].
  apply bool_decide_eq_false. specialize (Hno (x, y) t E). by destruct (type t).
Qed.

Lemma restart_player_no_start m p :
  (∀ c t, tile_at m c = Some t → type t ≠ START) →
  e_x (restart_player (Some m) p) = e_x p ∧ e_y (restart_player (Some m) p) = e_y p.
Proof.
  intros Hno. unfold restart_player.
  set (p0 := match as_player p with Some d => _ | None => p end).
  assert (Hp0 : e_x p0 = e_x p ∧ e_y p0 = e_y p) by (subst p0; by destruct (as_player p)).
  destruct Hp0 as [<- <-]. generalize p0. clear p0.
  induction (seqZ 0 (height m)) as [|y ys IH]; intros p0; [done|].
  simpl. rewrite restart_row_no_start by done. apply IH.
Qed.

(** With both dimensions at most 4 the lattice has no cell but (1,1), so the
    loop carves no Path cell on it. *)
Lemma small_maze_no_path g rnd st c :
  carve g rnd = Ok st → mg_width g ≤ 4 → mg_height g ≤ 4 →
  inner_lattice (mg_width g) (mg_height g) c →
  is_path (tile_at (cs_map st) c) = false.
Proof.
  intros Hcarve Hw Hh (Hx & Hy & Hox & Hoy).
  apply carve_Ok in Hcarve as (st0 & Hinit & ->).
  destruct (carve_final g rnd st0 Hinit) as (W & I & _). cbv zeta in I.
  apply not_true_iff_false. intros Hp.
  apply (inv_is_path _ _ _ _ _ _ I) in Hp as (_ & Hne & _). apply Hne.
  destruct c as [x y]. unfold start, startX, startY. simpl in *. f_equal; zmod.
Qed.

(** C10 (as amended).  Suppose the carving loop of [generate] ends without a
    Path cell on the odd sub-lattice, in a maze at least 2 cells wide, so
    that (1,1) is a cell of the grid.  Then [generate] puts the End tile on
    (1,1) in place of the Start tile: the returned map has an End cell and
    no Start cell, and a [restart] of an engine holding that map finds no
    Start tile and leaves the player where it is. *)
Theorem generate_without_path_loses_start
    (g : MazeGenerator) (rnd : list nat) (st : CarveState) :
  carve g rnd = Ok st →
  let w := mg_width g in
  let h := mg_height g in
  let m := place_end w h (cs_map st) in
  2 ≤ w →
  (∀ c, inner_lattice w h c → is_path (tile_at (cs_map st) c) = false) →
  generate g rnd = Ok m ∧
  tile_at (cs_map st) start = Some startTile ∧
  tile_at m start = Some endTile ∧
  (∀ c t, tile_at m c = Some t → type t ≠ START) ∧
  (∀ ge i p, tileMap ge = Some m → player ge = Some i → entities ge !! i = Some p →
     ∃ p', entities (restart ge) !! i = Some p' ∧ e_x p' = e_x p ∧ e_y p' = e_y p).
Proof.
  intros Hcarve w h m Hw Hnone.
  pose proof (generate_carve _ _ _ Hcarve) as Hgen.
  apply carve_Ok in Hcarve as (st0 & Hinit & Hst).
  destruct (carve_final g rnd st0 Hinit) as (W & I & _). cbv zeta in I.
  rewrite <- Hst in I. fold w h in I.
  pose proof (carve_init_Ok _ _ _ Hinit) as (Hh & _). fold h in Hh.
  assert (Hsg : in_grid w h start)
    by (unfold in_grid, start, startX, startY; simpl; lia).
  assert (He : (scan_end w h (cs_map st)).2 = start).
  { destruct (scan_end_choice w h _ W st I) as [He|[Hp Hl]]; [done|].
    rewrite (Hnone _ Hl) in Hp. done. }
  assert (Hnostart : ∀ c t, tile_at m c = Some t → type t ≠ START).
  { intros c t Ht. subst m. rewrite (place_end_tile_at w h _ W) in Ht by done.
    rewrite He in Ht. case_decide as Hc; [by inversion Ht|].
    assert (Hg : in_grid w h c)
      by (eapply tile_at_Some_in_grid; eauto using inv_wf).
    rewrite (inv_tiles _ _ _ _ _ I c Hg) in Ht. inversion Ht; subst.
    unfold expected_tile. repeat case_decide; try done. tauto. }
  split; [exact Hgen|]. split; [|split; [|split; [exact Hnostart|]]].
  - rewrite (inv_tiles _ _ _ _ _ I start Hsg). unfold expected_tile.
    by rewrite decide_True.
  - subst m. rewrite (place_end_tile_at w h _ W) by done. rewrite He.
    by rewrite decide_True.
  - intros ge i p Hm Hi Hp. unfold restart. simpl. rewrite Hi. simpl.
    rewrite list_lookup_alter_eq, Hp. simpl. eexists. split; [reflexivity|].
    rewrite Hm. by apply restart_player_no_start.
Qed.

(** [generate_without_path_loses_start] on the 3 by 3 maze. *)
Lemma generate_without_path_loses_start_witness :
  carve tiny_generator [] = Ok tiny_carved ∧
  (∀ c, inner_lattice 3 3 c → is_path (tile_at (cs_map tiny_carved) c) = false) ∧
  generate tiny_generator [] = Ok (place_end 3 3 (cs_map tiny_carved)) ∧
  tile_at (place_end 3 3 (cs_map tiny_carved)) start = Some endTile.
Proof.
  assert (H1 : carve tiny_generator [] = Ok tiny_carved) by (vm_compute; reflexivity).
  assert (H2 : 2 ≤ mg_width tiny_generator) by (simpl; lia).
  assert (H3 : ∀ c, inner_lattice 3 3 c →
                    is_path (tile_at (cs_map tiny_carved) c) = false).
  { intros [x y] (Hx & Hy & _). simpl in *.
    assert (x = 1) as -> by lia. assert (y = 1) as -> by lia. reflexivity. }
  pose proof (generate_without_path_loses_start tiny_generator [] tiny_carved H1 H2 H3)
    as (Hgen & _ & Hend & _).
  split; [exact H1|]. split; [exact H3|]. split; [exact Hgen|exact Hend].
Defined.

(** C10 as stated fails for a maze 1 cell wide and 3 high, one of the sizes
    the claim names: the loop carves no Path cell, but (1,1) is outside the
    grid, the End tile is placed nowhere, and every tile of the returned map
    is a Wall. *)
Lemma generate_narrow_has_no_end :
  carve narrow_generator [] = Ok narrow_carved ∧
  (∀ c, inner_lattice 1 3 c → is_path (tile_at (cs_map narrow_carved) c) = false) ∧
  generate narrow_generator [] = Ok narrow_maze ∧
  Forall (λ l, Forall (Forall (λ t, type t = WALL)) (tiles l)) (layers narrow_maze).
Proof.
  split; [vm_compute; reflexivity|]. split.
  { intros c (Hx & _). lia. }
  split; [vm_compute; reflexivity|].
  repeat constructor.
Qed.

(** * Further properties *)

(** ** Tile maps built through the public methods *)

Lemma setTile_dims m li x y t :
  width (setTile m li x y t) = width m ∧ height (setTile m li x y t) = height m ∧
  tileSize (setTile m li x y t) = tileSize m ∧
  length (layers (setTile m li x y t)) = length (layers m) ∧
  layer_id <$> layers (setTile m li x y t) = layer_id <$> layers m.
Proof.
  unfold setTile. destruct (out_of_range m li x y); [done|]. simpl.
  repeat split; [by rewrite length_alter|].
  apply list_eq. intros i. rewrite !list_lookup_fmap, list_lookup_alter.
  case_decide; [subst|done]. by destruct (layers m !! Z.to_nat li).
Qed.

Lemma createLayer_ok m id : map_ok m → map_ok (createLayer m id).1.
Proof.
  intros Hok. unfold map_ok. simpl. apply Forall_app. split; [done|].
  apply Forall_singleton. split; simpl; [by rewrite length_replicate|].
  apply Forall_replicate. by rewrite length_replicate.
Qed.

Lemma setTile_ok m li x y t : map_ok m → map_ok (setTile m li x y t).
Proof.
  intros Hok. unfold setTile. destruct (out_of_range m li x y); [done|].
  unfold map_ok. simpl. apply Forall_alter; [done|].
  intros l Hl [Hlen Hrows]. split; simpl.
  - by rewrite length_alter.
  - apply Forall_alter; [done|]. intros row _ Hrow. by rewrite length_insert.
Qed.

Lemma built_ok m : built m → map_ok m.
Proof.
  induction 1 as [w h ts|m id _ IH|m li x y t _ IH].
  - constructor.
  - by apply createLayer_ok.
  - by apply setTile_ok.
Qed.

Lemma getTile_is_Some_ok m li x y :
  map_ok m →
  is_Some (getTile m li x y) ↔
  0 ≤ li < Z.of_nat (length (layers m)) ∧ 0 ≤ x < width m ∧ 0 ≤ y < height m.
Proof.
  intros Hok. unfold getTile.
  destruct (out_of_range m li x y) eqn:E.
  - split; [by intros [? ?]|]. intros H. apply out_of_range_false in H. congruence.
  - apply out_of_range_false in E as H. split; [done|]. intros _.
    destruct H as (Hli & Hx & Hy).
    destruct (lookup_lt_is_Some_2 (layers m) (Z.to_nat li)) as [l Hl]; [lia|].
    rewrite Hl. simpl.
    destruct (proj1 (Forall_lookup _ _) Hok _ _ Hl) as [Hlen Hrows].
    destruct (lookup_lt_is_Some_2 (tiles l) (Z.to_nat y)) as [row Hrow]; [lia|].
    rewrite Hrow. simpl. apply lookup_lt_is_Some_2.
    rewrite (proj1 (Forall_lookup _ _) Hrows _ _ Hrow). lia.
Qed.

(** X1.  On a tile map built from the constructor by [createLayer] and
    [setTile], every layer keeps [height] rows of [width] tiles, and
    [getTile] returns a tile exactly when the layer index and the
    coordinates are in range: it answers null outside and never reaches a
    missing row inside. *)
Theorem getTile_in_range_iff (m : TileMap) (layerIndex x y : Z) :
  built m →
  map_ok m ∧
  (is_Some (getTile m layerIndex x y) ↔
   0 ≤ layerIndex < Z.of_nat (length (layers m)) ∧
   0 ≤ x < width m ∧ 0 ≤ y < height m).
Proof.
  intros Hb. pose proof (built_ok m Hb). split; [done|].
  by apply getTile_is_Some_ok.
Qed.

Lemma getTile_setTile_ok m li x y t li' x' y' :
  map_ok m →
  getTile (setTile m li x y t) li' x' y' =
  if decide ((li, x, y) = (li', x', y') ∧ out_of_range m li x y = false)
  then Some t else getTile m li' x' y'.
Proof.
  intros Hok.
  assert (Hr' : out_of_range (setTile m li x y t) li' x' y' = out_of_range m li' x' y').
  { unfold out_of_range.
    destruct (setTile_dims m li x y t) as (-> & -> & _ & -> & _). done. }
  unfold getTile at 1. rewrite Hr'. unfold getTile.
  destruct (out_of_range m li' x' y') eqn:E'.
  { case_decide as H; [|done]. destruct H as [[= <- <- <-] H]. congruence. }
  unfold setTile. destruct (out_of_range m li x y) eqn:E.
  { rewrite decide_False; [done|]. by intros [_ ?]. }
  apply out_of_range_false in E as (Hli & Hx & Hy).
  apply out_of_range_false in E' as (Hli' & Hx' & Hy').
  simpl. rewrite list_lookup_alter.
  destruct (decide (Z.to_nat li = Z.to_nat li')) as [El|El].
  - assert (li = li') by lia. subst li'.
    destruct (layers m !! Z.to_nat li) as [l|] eqn:Hl; simpl;
      [|apply lookup_ge_None in Hl; lia].
    destruct (proj1 (Forall_lookup _ _) Hok _ _ Hl) as [Hlen Hrows].
    rewrite list_lookup_alter.
    destruct (decide (Z.to_nat y = Z.to_nat y')) as [Ey|Ey].
    + assert (y = y') by lia. subst y'.
      destruct (tiles l !! Z.to_nat y) as [row|] eqn:Hrow; simpl;
        [|apply lookup_ge_None in Hrow; lia].
      destruct (decide (x = x')) as [<- |Nx].
      * rewrite decide_True by done. apply list_lookup_insert_eq.
        rewrite (proj1 (Forall_lookup _ _) Hrows _ _ Hrow). lia.
      * rewrite decide_False by (intros [[= ?] _]; done).
        apply list_lookup_insert_ne. lia.
    + rewrite decide_False; [done|]. intros [[= ? ?] _]. subst. done.
  - rewrite decide_False; [done|]. intros [[= ? ? ?] _]. subst. done.
Qed.

(** X2.  [setTile] followed by [getTile] on a built tile map: a write inside
    the range is read back at that layer and cell and changes no other
    cell of any layer; a write outside the range leaves the map as it was.
    Neither changes the dimensions, the tile size or the layer ids. *)
Theorem getTile_setTile (m : TileMap) (layerIndex x y : Z) (t : Tile)
    (layerIndex' x' y' : Z) :
  built m →
  getTile (setTile m layerIndex x y t) layerIndex' x' y' =
    (if decide ((layerIndex, x, y) = (layerIndex', x', y') ∧
                is_Some (getTile m layerIndex x y))
     then Some t else getTile m layerIndex' x' y') ∧
  (getTile m layerIndex x y = None → setTile m layerIndex x y t = m) ∧
  width (setTile m layerIndex x y t) = width m ∧
  height (setTile m layerIndex x y t) = height m ∧
  tileSize (setTile m layerIndex x y t) = tileSize m ∧
  layer_id <$> layers (setTile m layerIndex x y t) = layer_id <$> layers m.
Proof.
  intros Hb. pose proof (built_ok m Hb) as Hok.
  assert (Hiff : is_Some (getTile m layerIndex x y) ↔ out_of_range m layerIndex x y = false).
  { rewrite getTile_is_Some_ok, out_of_range_false by done. done. }
  split; [|split].
  - rewrite getTile_setTile_ok by done.
    repeat case_decide; try done; exfalso; tauto.
  - intros Hnone.
    assert (out_of_range m layerIndex x y = true) as E.
    { destruct (out_of_range m layerIndex x y); [done|].
      destruct (proj2 Hiff eq_refl) as [? ?]. congruence. }
    unfold setTile. by rewrite E.
  - destruct (setTile_dims m layerIndex x y t) as (? & ? & ? & _ & ?). done.
Qed.

(** Every maze returned by [generate] is a built tile map. *)
Lemma generate_built g rnd m : generate g rnd = Ok m → built m.
Proof.
  intros H. apply generate_Ok in H as (st0 & Hinit & ->).
  apply carve_init_Ok in Hinit as (_ & _ & Hs & _ & Hm & _).
  assert (Hfill : ∀ w h m, built m → built (fill_walls w h m)).
  { intros w h m Hb. rewrite fill_walls_cells.
    generalize (y ← seqZ 0 h; x ← seqZ 0 w; [(x, y)]). intros cells. revert m Hb.
    induction cells as [|c cells IH]; intros m Hb; [done|]. simpl. apply IH.
    by constructor. }
  assert (Hloop : ∀ fuel w h st, built (cs_map st) → built (cs_map (carve_loop fuel w h st))).
  { induction fuel as [|fuel IH]; intros w h st Hb; [done|]. simpl.
    destruct (cs_stack st) as [|c rest] eqn:E; [done|]. apply IH.
    destruct (carve_step_cases w h st _ _ E) as [[_ ->]|(n & _ & ->)]; [done|].
    simpl. by do 2 constructor. }
  unfold place_end. constructor. apply Hloop. rewrite Hm. constructor.
  apply Hfill. constructor. constructor.
Qed.

Lemma sample_maze_built : built sample_maze.
Proof. apply (generate_built sample_generator sample_random). vm_compute. reflexivity. Qed.

(** [getTile_in_range_iff] on the sample maze. *)
Lemma getTile_in_range_iff_witness :
  built sample_maze ∧ map_ok sample_maze ∧ getTile sample_maze 0 5 0 = None.
Proof.
  pose proof (getTile_in_range_iff sample_maze 0 5 0 sample_maze_built) as [Hok _].
  split; [exact sample_maze_built|]. split; [exact Hok|reflexivity].
Defined.

(** [getTile_setTile] on the sample maze. *)
Lemma getTile_setTile_witness :
  built sample_maze ∧
  getTile (setTile sample_maze 0 2 2 pathTile) 0 2 2 = Some pathTile.
Proof.
  split; [exact sample_maze_built|].
  pose proof (getTile_setTile sample_maze 0 2 2 pathTile 0 2 2 sample_maze_built)
    as [H _].
  rewrite H. reflexivity.
Defined.

Lemma isSolid_true m x y :
  isSolid m x y = true ↔
  ∃ layerIndex t, getTile m layerIndex x y = Some t ∧ solid t = true.
Proof.
  unfold isSolid. rewrite existsb_exists. split.
  - intros (i & _ & Hs). unfold tile_solid in Hs.
    destruct (getTile m (Z.of_nat i) x y) as [t|] eqn:E; [eauto|done].
  - intros (li & t & Ht & Hs).
    assert (Hr : out_of_range m li x y = false)
      by (unfold getTile in Ht; by destruct (out_of_range m li x y)).
    apply out_of_range_false in Hr as (Hli & _).
    exists (Z.to_nat li). split; [apply in_seq; lia|].
    rewrite Z2Nat.id by lia. by rewrite Ht.
Qed.

(** X3.  [isSolid] is true exactly when some layer holds a solid tile at the
    cell; in particular it is false for every cell outside the grid. *)
Theorem isSolid_iff (m : TileMap) (x y : Z) :
  (isSolid m x y = true ↔ ∃ layerIndex t, getTile m layerIndex x y = Some t ∧ solid t = true) ∧
  (¬ (0 ≤ x < width m ∧ 0 ≤ y < height m) → isSolid m x y = false).
Proof.
  split; [apply isSolid_true|]. intros Hout. apply not_true_iff_false. intros Hs.
  apply isSolid_true in Hs as (li & t & Ht & _). apply Hout.
  assert (Hr : out_of_range m li x y = false)
    by (unfold getTile in Ht; by destruct (out_of_range m li x y)).
  apply out_of_range_false in Hr. tauto.
Qed.

Lemma find_app {A} (f : A → bool) (l k : list A) :
  List.find f (l ++ k) =
  match List.find f l with Some a => Some a | None => List.find f k end.
Proof. induction l as [|a l IH]; [done|]. simpl. by destruct (f a). Qed.

(** X4.  After [createLayer m id], [getLayer] with [id] finds the first
    layer carrying that id, which is the new layer only when the id was
    fresh, and lookups of other ids are unchanged.  The tiles of the earlier
    layers are unchanged, and the new layer, at the last index, reads as the
    Empty tile at every cell of the grid. *)
Theorem createLayer_lookup (m : TileMap) (id id' : string) (layerIndex x y : Z) :
  let r := createLayer m id in
  getLayer r.1 id = Some (default r.2 (getLayer m id)) ∧
  (id' ≠ id → getLayer r.1 id' = getLayer m id') ∧
  (layerIndex < Z.of_nat (length (layers m)) →
   getTile r.1 layerIndex x y = getTile m layerIndex x y) ∧
  (0 ≤ x < width m → 0 ≤ y < height m →
   getTile r.1 (Z.of_nat (length (layers m))) x y = Some emptyTile).
Proof.
  cbv zeta. split; [|split; [|split]].
  - unfold getLayer. simpl. rewrite find_app. simpl.
    rewrite bool_decide_eq_true_2 by done. by destruct (find _ (layers m)).
  - intros Hne. unfold getLayer. simpl. rewrite find_app. simpl.
    rewrite bool_decide_eq_false_2 by done. by destruct (find _ (layers m)).
  - intros Hli. unfold getTile, out_of_range. simpl. rewrite length_app. simpl.
    destruct (decide (0 ≤ layerIndex)) as [H0|H0].
    + assert ((Z.of_nat (length (layers m) + 1) <=? layerIndex) = false) as ->
        by (apply Z.leb_gt; lia).
      assert ((Z.of_nat (length (layers m)) <=? layerIndex) = false) as ->
        by (apply Z.leb_gt; lia).
      rewrite lookup_app_l by lia. done.
    + assert ((layerIndex <? 0) = true) as -> by (apply Z.ltb_lt; lia). done.
  - intros Hx Hy. unfold getTile.
    assert (out_of_range (createLayer m id).1 (Z.of_nat (length (layers m))) x y = false)
      as ->.
    { apply out_of_range_false. simpl. rewrite length_app. simpl. lia. }
    simpl. rewrite Nat2Z.id, lookup_app_r by lia. rewrite Nat.sub_diag. simpl.
    rewrite lookup_replicate_2 by lia. simpl. by rewrite lookup_replicate_2 by lia.
Qed.

(** ** Tile and world coordinates *)

(** X5.  For a non-zero tile size, [worldToTile] undoes [tileToWorld]; for a
    positive tile size, the cell [worldToTile] gives for a point contains
    the point: its top-left corner is at or before the point, and the point
    lies less than one tile size after it, on both axes. *)
Theorem world_tile_round_trip (m : TileMap) (tile : Vector2D) (p : Q * Q) :
  (¬ (tileSize m == 0)%Q → worldToTile m (tileToWorld m tile) = tile) ∧
  ((0 < tileSize m)%Q →
   let corner := tileToWorld m (worldToTile m p) in
   (corner.1 <= p.1 ∧ p.1 < corner.1 + tileSize m ∧
    corner.2 <= p.2 ∧ p.2 < corner.2 + tileSize m)%Q).
Proof.
  split.
  - intros Hne. destruct tile as [x y]. unfold worldToTile, tileToWorld. cbn [fst snd].
    assert (H : ∀ k : Z, Qfloor (inject_Z k * tileSize m / tileSize m) = k).
    { intros k. rewrite (Qfloor_comp _ (inject_Z k)); [apply Qfloor_Z|].
      by apply Qdiv_mult_l. }
    by rewrite !H.
  - intros Hpos. cbv zeta. unfold worldToTile, tileToWorld. cbn [fst snd].
    assert (H : ∀ a : Q,
              (inject_Z (Qfloor (a / tileSize m)) * tileSize m <= a ∧
               a < inject_Z (Qfloor (a / tileSize m)) * tileSize m + tileSize m)%Q).
    { intros a. pose proof (Qfloor_le (a / tileSize m)) as Hl.
      pose proof (Qlt_floor (a / tileSize m)) as Hu.
      rewrite inject_Z_plus in Hu. change (inject_Z 1) with 1%Q in Hu.
      set (k := inject_Z (Qfloor (a / tileSize m))) in *.
      assert (Ha : (a == a / tileSize m * tileSize m)%Q).
      { unfold Qdiv. rewrite <- Qmult_assoc, (Qmult_comm (/ tileSize m)).
        rewrite Qmult_inv_r by (intros E; rewrite E in Hpos; by apply Qlt_irrefl in Hpos).
        by rewrite Qmult_1_r. }
      split.
      - apply Qle_trans with (a / tileSize m * tileSize m)%Q;
          [|rewrite <- Ha; apply Qle_refl].
        apply Qmult_le_compat_r; [done|by apply Qlt_le_weak].
      - apply Qle_lt_trans with (a / tileSize m * tileSize m)%Q;
          [rewrite <- Ha; apply Qle_refl|].
        assert ((k * tileSize m + tileSize m == (k + 1) * tileSize m)%Q) as -> by ring.
        by apply Qmult_lt_compat_r. }
    destruct (H p.1) as [? ?], (H p.2) as [? ?]. done.
Qed.

(** [world_tile_round_trip] on the sample maze (tile size 32): the point
    (70, 33) lies in the cell (2, 1). *)
Lemma world_tile_round_trip_witness :
  ¬ (tileSize sample_maze == 0)%Q ∧ (0 < tileSize sample_maze)%Q ∧
  worldToTile sample_maze (tileToWorld sample_maze (2, 1)) = (2, 1) ∧
  worldToTile sample_maze (70, 33)%Q = (2, 1).
Proof.
  assert (H1 : ¬ (tileSize sample_maze == 0)%Q) by (intros H; discriminate H).
  assert (H2 : (0 < tileSize sample_maze)%Q) by reflexivity.
  split; [exact H1|]. split; [exact H2|].
  split; [|reflexivity].
  exact (proj1 (world_tile_round_trip sample_maze (2, 1) (70, 33)%Q) H1).
Defined.

(** ** The shape of a generated maze *)

(** What [generate] returns, in terms of the state in which its loop ends. *)
Lemma generate_inv g rnd m :
  generate g rnd = Ok m →
  ∃ st V W,
    carve_inv (mg_width g) (mg_height g) V W st ∧ cs_stack st = [] ∧
    m = place_end (mg_width g) (mg_height g) (cs_map st) ∧
    2 ≤ mg_height g ∧ 0 ≤ mg_width g.
Proof.
  intros H. apply generate_Ok in H as (st0 & Hinit & ->).
  destruct (carve_final g rnd st0 Hinit) as (W & I & Hend). cbv zeta in I, Hend.
  pose proof (carve_init_Ok _ _ _ Hinit) as (Hh & Hw & _).
  eauto 10.
Qed.

Lemma final_tile w h V W st c :
  carve_inv w h V W st → in_grid w h c →
  tile_at (place_end w h (cs_map st)) c =
  Some (if decide (c = (scan_end w h (cs_map st)).2) then endTile
        else expected_tile V W c).
Proof.
  intros I Hg. rewrite (place_end_tile_at w h V W) by done.
  rewrite (inv_tiles _ _ _ _ _ I c Hg). repeat case_decide; try done; tauto.
Qed.

Lemma inv_W_inner w h V W st c :
  carve_inv w h V W st → c ∈ W → 0 < c.1 < w - 1 ∧ 0 < c.2 < h - 1.
Proof.
  intros I Hc. destruct (inv_W _ _ _ _ _ I c Hc) as (p & q & Hp & Hq & Hqs & Hb).
  destruct (inv_V_lat _ _ _ _ _ I q Hq) as [?|(? & ? & _)]; [done|].
  pose proof (inv_V_odd _ _ _ _ _ _ I Hp) as (_ & _ & ? & ?).
  assert (p.1 < w - 1 ∧ p.2 < h - 1).
  { destruct (inv_V_lat _ _ _ _ _ I p Hp) as [-> |(? & ? & _)]; [|lia].
    unfold start, startX, startY. simpl. lia. }
  apply between_cases in Hb.
  destruct Hb as [[-> ->]|[[-> ->]|[[-> ->]|[-> ->]]]]; simpl in *; lia.
Qed.

(** [setTile] and the loops built from it keep the tile size and the ids of
    the layers. *)
Lemma same_frame_trans m1 m2 m3 : same_frame m1 m2 → same_frame m2 m3 → same_frame m1 m3.
Proof. intros [? ?] [? ?]. split; congruence. Qed.

Lemma setTile_frame m li x y t : same_frame m (setTile m li x y t).
Proof. destruct (setTile_dims m li x y t) as (_ & _ & ? & _ & ?). by split. Qed.

Lemma fill_walls_frame w h m : same_frame m (fill_walls w h m).
Proof.
  rewrite fill_walls_cells.
  generalize (y ← seqZ 0 h; x ← seqZ 0 w; [(x, y)]). intros cells. revert m.
  induction cells as [|c cells IH]; intros m; [by split|]. simpl.
  eapply same_frame_trans; [apply setTile_frame|apply IH].
Qed.

Lemma carve_loop_frame fuel w h : ∀ st,
  same_frame (cs_map st) (cs_map (carve_loop fuel w h st)).
Proof.
  induction fuel as [|fuel IH]; intros st; [by split|]. simpl.
  destruct (cs_stack st) as [|c rest] eqn:E; [by split|].
  eapply same_frame_trans; [|apply IH].
  destruct (carve_step_cases w h st _ _ E) as [[_ ->]|(n & _ & ->)]; [by split|].
  simpl. eapply same_frame_trans; apply setTile_frame.
Qed.

(** The frame of a generated map: the generator's dimensions, tile size 32
    and the single layer "maze". *)
Lemma generate_frame g rnd m :
  generate g rnd = Ok m →
  width m = mg_width g ∧ height m = mg_height g ∧ tileSize m = 32%Q ∧
  layer_id <$> layers m = ["maze"].
Proof.
  intros Hgen. destruct (generate_inv _ _ _ Hgen) as (st & V & W & I & _ & Hm & _).
  set (w := mg_width g) in *. set (h := mg_height g) in *.
  pose proof (place_end_wf w h _ (inv_wf _ _ _ _ _ I)) as (Hmw & Hmh & _).
  rewrite <- Hm in Hmw, Hmh.
  split; [done|]. split; [done|].
  apply generate_Ok in Hgen as (st0 & Hinit & Hm').
  apply carve_init_Ok in Hinit as (_ & _ & _ & _ & Hm0 & _).
  assert (same_frame
            (createLayer {| width := w; height := h; tileSize := 32; layers := [] |}
                         "maze").1 m) as [-> ->]; [|done].
  rewrite Hm'. unfold place_end.
  eapply same_frame_trans; [|apply setTile_frame].
  eapply same_frame_trans; [|apply carve_loop_frame]. rewrite Hm0.
  eapply same_frame_trans; [|apply setTile_frame]. apply fill_walls_frame.
Qed.

(** X6.  Every maze returned by [generate] has the generator's dimensions,
    tile size 32 and the single layer "maze"; each of its tiles is one of the
    four tiles the generator writes (Wall, Start, Path, End), so none is
    Empty and a tile is solid exactly when it is a Wall. *)
Theorem generate_tiles (g : MazeGenerator) (rnd : list nat) (m : TileMap) :
  generate g rnd = Ok m →
  width m = mg_width g ∧ height m = mg_height g ∧ (tileSize m == 32)%Q ∧
  layer_id <$> layers m = ["maze"] ∧
  ∀ c t, tile_at m c = Some t →
    (t = wallTile ∨ t = startTile ∨ t = pathTile ∨ t = endTile) ∧
    (solid t = true ↔ type t = WALL).
Proof.
  intros Hgen. destruct (generate_inv _ _ _ Hgen) as (st & V & W & I & _ & Hm & _).
  set (w := mg_width g) in *. set (h := mg_height g) in *.
  destruct (generate_frame _ _ _ Hgen) as (Hmw & Hmh & Hts & Hid).
  fold w in Hmw. fold h in Hmh.
  split; [done|]. split; [done|]. split; [by rewrite Hts|]. split; [done|].
  intros c t Ht.
  assert (Hg : in_grid w h c).
  { rewrite Hm in Ht.
    eapply tile_at_Some_in_grid; [apply place_end_wf, (inv_wf _ _ _ _ _ I)|done]. }
  rewrite Hm, (final_tile w h V W) in Ht by done. inversion Ht; subst t.
  unfold expected_tile. repeat case_decide; simpl; (split; [tauto|]); split; done.
Qed.

(** [generate_tiles] on the 5 by 5 sample. *)
Lemma generate_tiles_witness :
  generate sample_generator sample_random = Ok sample_maze ∧
  width sample_maze = 5 ∧ layer_id <$> layers sample_maze = ["maze"].
Proof.
  assert (H : generate sample_generator sample_random = Ok sample_maze)
    by (vm_compute; reflexivity).
  pose proof (generate_tiles sample_generator sample_random sample_maze H)
    as (Hw & _ & _ & Hid & _).
  split; [exact H|]. split; [exact Hw|exact Hid].
Defined.

(** X7.  A generated maze is closed and its corridors are one cell wide:
    every tile that is not a Wall lies at (1,1) or strictly inside the
    border, so with both dimensions at least 3 the whole border is Wall; and
    every cell with two even coordinates is a Wall. *)
Theorem generate_enclosed (g : MazeGenerator) (rnd : list nat) (m : TileMap) :
  generate g rnd = Ok m →
  let w := mg_width g in
  let h := mg_height g in
  (∀ c t, tile_at m c = Some t → type t ≠ WALL →
          c = start ∨ (0 < c.1 < w - 1 ∧ 0 < c.2 < h - 1)) ∧
  (3 ≤ w → 3 ≤ h →
   ∀ c, in_grid w h c → c.1 = 0 ∨ c.1 = w - 1 ∨ c.2 = 0 ∨ c.2 = h - 1 →
        tile_at m c = Some wallTile) ∧
  (∀ c, in_grid w h c → c.1 mod 2 = 0 → c.2 mod 2 = 0 → tile_at m c = Some wallTile).
Proof.
  intros Hgen w h. destruct (generate_inv _ _ _ Hgen) as (st & V & W & I & _ & -> & _).
  fold w h in I.
  assert (Hwall : ∀ c, in_grid w h c → c ∉ V → c ∉ W →
                       tile_at (place_end w h (cs_map st)) c = Some wallTile).
  { intros c Hg HV HW. rewrite (final_tile w h V W) by done.
    destruct (scan_end_choice w h V W st I) as [He|[Hp _]].
    - rewrite He. rewrite decide_False
        by (intros ->; apply HV, (inv_start _ _ _ _ _ I)).
      unfold expected_tile. rewrite decide_False
        by (intros ->; apply HV, (inv_start _ _ _ _ _ I)).
      by rewrite decide_False by tauto.
    - apply (inv_is_path _ _ _ _ _ _ I) in Hp as (_ & _ & Hin).
      rewrite decide_False by (intros ->; tauto).
      unfold expected_tile. rewrite decide_False
        by (intros ->; apply HV, (inv_start _ _ _ _ _ I)).
      by rewrite decide_False by tauto. }
  assert (Hopen : ∀ c t, tile_at (place_end w h (cs_map st)) c = Some t →
                         type t ≠ WALL → c ∈ V ∨ c ∈ W).
  { intros c t Ht Hty.
    assert (Hg : in_grid w h c)
      by (eapply tile_at_Some_in_grid; [apply place_end_wf, (inv_wf _ _ _ _ _ I)|done]).
    destruct (decide (c ∈ V)) as [?|HV]; [by left|].
    destruct (decide (c ∈ W)) as [?|HW]; [by right|].
    rewrite (Hwall c Hg HV HW) in Ht. inversion Ht; subst. done. }
  split; [|split].
  - intros c t Ht Hty. destruct (Hopen c t Ht Hty) as [Hc|Hc].
    + destruct (inv_V_lat _ _ _ _ _ I c Hc) as [?|(? & ? & _)]; [by left|by right].
    + right. by apply (inv_W_inner _ _ _ _ _ _ I).
  - intros Hw Hh c Hg Hb. apply Hwall; [done| |].
    + intros Hc. destruct (inv_V_lat _ _ _ _ _ I c Hc) as [-> |(? & ? & _)]; [|lia].
      unfold start, startX, startY in Hb. simpl in Hb. lia.
    + intros Hc. apply (inv_W_inner _ _ _ _ _ _ I) in Hc. lia.
  - intros c Hg H1 H2. apply Hwall; [done| |].
    + intros Hc. apply (inv_V_odd _ _ _ _ _ _ I) in Hc as (? & _). lia.
    + intros Hc. apply (inv_W_mixed _ _ _ _ _ _ I) in Hc. zmod.
Qed.

(** [generate_enclosed] on the 5 by 5 sample: the corner (4,4) is a Wall. *)
Lemma generate_enclosed_witness :
  generate sample_generator sample_random = Ok sample_maze ∧
  tile_at sample_maze (4, 4) = Some wallTile.
Proof.
  assert (H : generate sample_generator sample_random = Ok sample_maze)
    by (vm_compute; reflexivity).
  pose proof (generate_enclosed sample_generator sample_random sample_maze H)
    as (_ & Hb & _).
  split; [exact H|]. apply Hb; simpl; unfold in_grid; simpl; lia.
Defined.

(** The Start and End tiles of the map the generator returns, when the
    lattice has a second cell. *)
Lemma final_marks w h V W st :
  carve_inv w h V W st → cs_stack st = [] →
  (5 ≤ w ∧ 3 ≤ h) ∨ (3 ≤ w ∧ 5 ≤ h) →
  let m := place_end w h (cs_map st) in
  tile_at m start = Some startTile ∧
  ∃ e, inner_lattice w h e ∧ e ≠ start ∧ tile_at m e = Some endTile ∧
       ∀ c t, tile_at m c = Some t →
              (type t = START ↔ c = start) ∧ (type t = END ↔ c = e).
Proof.
  intros I Hend Hdim. cbv zeta.
  assert (He : is_path (tile_at (cs_map st) (scan_end w h (cs_map st)).2) = true ∧
               inner_lattice w h (scan_end w h (cs_map st)).2).
  { destruct (scan_end_cases w h (cs_map st))
      as [[_ Hall]|(L1 & L2 & HL & Hpe & _)].
    - exfalso.
      assert (∃ c, inner_lattice w h c ∧ c ≠ start ∧ 0 < manhattan c) as (c & Hc & Hne & Hd).
      { destruct Hdim as [[? ?]|[? ?]]; [exists (3, 1)|exists (1, 3)];
          (split; [unfold inner_lattice; simpl; repeat split; lia|done]). }
      assert (Hp : is_path (tile_at (cs_map st) c) = true).
      { apply (inv_is_path _ _ _ _ _ _ I).
        split; [destruct Hc as (? & ? & _); unfold in_grid; lia|].
        split; [done|]. left. by eapply inv_spanning. }
      apply elem_of_lattice_cells in Hc. specialize (Hall c Hc Hp). lia.
    - split; [done|]. apply elem_of_lattice_cells. rewrite HL.
      apply elem_of_app. right. by left. }
  set (e := (scan_end w h (cs_map st)).2) in *. destruct He as [Hpe Hle].
  apply (inv_is_path _ _ _ _ _ _ I) in Hpe as (Heg & Hes & _).
  assert (Hsg : in_grid w h start)
    by (unfold in_grid, start, startX, startY; simpl; lia).
  split.
  - rewrite (final_tile w h V W) by done. fold e.
    rewrite decide_False by done. unfold expected_tile. by rewrite decide_True.
  - exists e. split; [done|]. split; [done|]. split.
    + rewrite (final_tile w h V W) by done. fold e. by rewrite decide_True.
    + intros c t Ht.
      assert (Hg : in_grid w h c)
        by (eapply tile_at_Some_in_grid; [apply place_end_wf, (inv_wf _ _ _ _ _ I)|done]).
      rewrite (final_tile w h V W) in Ht by done. fold e in Ht. inversion Ht; subst t.
      unfold expected_tile.
      repeat case_decide; simpl; split; split; intros; subst; try done.
Qed.

(** X8.  When the lattice has a second cell (width at least 5 and height at
    least 3, or the other way round), a generated maze has exactly one Start
    tile, at (1,1), and exactly one End tile, on a lattice cell other than
    (1,1). *)
Theorem generate_start_and_end (g : MazeGenerator) (rnd : list nat) (m : TileMap) :
  generate g rnd = Ok m →
  let w := mg_width g in
  let h := mg_height g in
  (5 ≤ w ∧ 3 ≤ h) ∨ (3 ≤ w ∧ 5 ≤ h) →
  tile_at m start = Some startTile ∧
  ∃ e, inner_lattice w h e ∧ e ≠ start ∧ tile_at m e = Some endTile ∧
       ∀ c t, tile_at m c = Some t →
              (type t = START ↔ c = start) ∧ (type t = END ↔ c = e).
Proof.
  intros Hgen w h Hdim.
  destruct (generate_inv _ _ _ Hgen) as (st & V & W & I & Hend & -> & _).
  by apply (final_marks w h V W).
Qed.

(** [generate_start_and_end] on the 5 by 5 sample. *)
Lemma generate_start_and_end_witness :
  generate sample_generator sample_random = Ok sample_maze ∧
  (5 ≤ 5 ∧ 3 ≤ 5 ∨ 3 ≤ 5 ∧ 5 ≤ 5) ∧
  tile_at sample_maze start = Some startTile.
Proof.
  assert (H : generate sample_generator sample_random = Ok sample_maze)
    by (vm_compute; reflexivity).
  assert (Hd : 5 ≤ 5 ∧ 3 ≤ 5 ∨ 3 ≤ 5 ∧ 5 ≤ 5) by lia.
  split; [exact H|]. split; [exact Hd|].
  exact (proj1 (generate_start_and_end sample_generator sample_random sample_maze H Hd)).
Defined.

Lemma NoDup_lattice_cells w h : NoDup (lattice_cells w h).
Proof.
  assert (Hodd : ∀ n, NoDup (odd_range n)).
  { intros n. unfold odd_range. apply NoDup_fmap_2; [|apply NoDup_seqZ].
    intros a b Hab. lia. }
  unfold lattice_cells. apply NoDup_bind; [| |apply Hodd].
  - intros y1 y2 c _ _ H1 H2.
    apply list_elem_of_bind in H1 as (x1 & H1 & _), H2 as (x2 & H2 & _).
    apply list_elem_of_singleton in H1, H2. congruence.
  - intros y _. apply NoDup_bind; [| |apply Hodd].
    + intros x1 x2 c _ _ H1 H2. apply list_elem_of_singleton in H1, H2. congruence.
    + intros x _. apply NoDup_singleton.
Qed.

(** X9.  With both dimensions at least 3, a generated maze carves every cell
    of the odd sub-lattice and nothing else on it: there are
    floor((w-1)/2) * floor((h-1)/2) carved lattice cells, and one removed wall
    fewer, whatever the random choices. *)
Theorem generate_cell_counts (g : MazeGenerator) (rnd : list nat) (m : TileMap) :
  generate g rnd = Ok m →
  let w := mg_width g in
  let h := mg_height g in
  3 ≤ w → 3 ≤ h →
  Z.of_nat (carved_cells m) = ((w - 1) / 2) * ((h - 1) / 2) ∧
  Z.of_nat (removed_walls m) = ((w - 1) / 2) * ((h - 1) / 2) - 1.
Proof.
  intros Hgen w h Hw Hh.
  destruct (generate_inv _ _ _ Hgen) as (st & V & W & I & Hend & -> & _).
  fold w h in I.
  pose proof (place_end_wf w h _ (inv_wf _ _ _ _ _ I)) as (Hmw & Hmh & _).
  pose proof (place_end_open w h V W st) as Hopen.
  assert (Hlen : Z.of_nat (length (lattice_cells w h)) = ((w - 1) / 2) * ((h - 1) / 2)).
  { assert (length (lattice_cells w h) =
            (length (odd_range h) * length (odd_range w))%nat) as ->
      by apply (length_cells (odd_range h) (odd_range w)).
    unfold odd_range. rewrite !length_fmap, !length_seqZ.
    assert (0 ≤ (w - 1) / 2) by zmod. assert (0 ≤ (h - 1) / 2) by zmod. nia. }
  assert (HVL : length V = length (lattice_cells w h)).
  { apply Permutation_length, NoDup_Permutation;
      [apply (inv_V_nodup _ _ _ _ _ I)|apply NoDup_lattice_cells|].
    intros c. rewrite elem_of_lattice_cells. split.
    - intros Hc. destruct (inv_V_lat _ _ _ _ _ I c Hc) as [-> |?]; [|done].
      unfold inner_lattice, start, startX, startY. simpl. repeat split; lia.
    - by apply (inv_spanning w h V W st). }
  assert (HV : carved_cells (place_end w h (cs_map st)) = length V).
  { apply length_filter_listing;
      [apply NoDup_grid_cells|apply (inv_V_nodup _ _ _ _ _ I)|].
    intros c. rewrite elem_of_grid_cells, Hmw, Hmh, andb_true_iff, Hopen by done.
    rewrite (inv_open _ _ _ _ _ _ I), on_lattice_spec. split.
    - intros Hc. pose proof (inv_V_odd _ _ _ _ _ _ I Hc) as (? & ? & _).
      assert (in_grid w h c).
      { destruct (inv_V_lat _ _ _ _ _ I c Hc) as [-> |(? & ? & _)];
          unfold in_grid, start, startX, startY; simpl; lia. }
      tauto.
    - intros (_ & (_ & [Hc|Hc]) & Ho1 & Ho2); [done|].
      apply (inv_W_mixed _ _ _ _ _ _ I) in Hc. zmod. }
  assert (HW : removed_walls (place_end w h (cs_map st)) = length W).
  { apply length_filter_listing;
      [apply NoDup_grid_cells|apply (inv_W_nodup _ _ _ _ _ I)|].
    intros c. rewrite elem_of_grid_cells, Hmw, Hmh, andb_true_iff, Hopen by done.
    rewrite (inv_open _ _ _ _ _ _ I), negb_true_iff, <- not_true_iff_false.
    rewrite on_lattice_spec. split.
    - intros Hc. pose proof (inv_W_mixed _ _ _ _ _ _ I Hc).
      pose proof (inv_W_grid _ _ _ _ _ _ I Hc). split; [done|].
      split; [tauto|]. intros [? ?]. zmod.
    - intros (_ & (_ & [Hc|Hc]) & Hno); [|done].
      pose proof (inv_V_odd _ _ _ _ _ _ I Hc) as (? & ? & _). tauto. }
  pose proof (inv_count _ _ _ _ _ I). fold w h. rewrite HV, HW. lia.
Qed.

(** [generate_cell_counts] on the 5 by 5 sample: 4 lattice cells, 3 walls
    removed. *)
Lemma generate_cell_counts_witness :
  generate sample_generator sample_random = Ok sample_maze ∧
  Z.of_nat (carved_cells sample_maze) = 4 ∧ Z.of_nat (removed_walls sample_maze) = 3.
Proof.
  assert (H : generate sample_generator sample_random = Ok sample_maze)
    by (vm_compute; reflexivity).
  split; [exact H|].
  apply (generate_cell_counts sample_generator sample_random sample_maze H); simpl; lia.
Defined.

(** ** Collisions between entities *)

(** X10.  [checkCollision] is symmetric in its two entities. *)
Theorem checkCollision_sym (a b : Entity) : checkCollision a b = checkCollision b a.
Proof.
  unfold checkCollision. rewrite (orb_comm (negb (e_solid a))).
  destruct (negb (e_solid b) || negb (e_solid a)); [done|].
  destruct (Qlt_bool (e_x a) _), (Qlt_bool (e_x b) _),
           (Qlt_bool (e_y a) _), (Qlt_bool (e_y b) _); done.
Qed.

Lemma checkCollision_rect a b :
  checkCollision a b =
  e_solid a && e_solid b &&
  overlaps_rect a (e_x b) (e_y b) (e_width b) (e_height b).
Proof.
  unfold checkCollision, overlaps_rect.
  destruct (e_solid a), (e_solid b); simpl; try done.
Qed.

Lemma Qlt_bool_irrefl a b : (a == b)%Q → Qlt_bool a b = false.
Proof. intros H. apply Qlt_bool_false. rewrite H. apply Qle_refl. Qed.

(** Pushing a body out of a rectangle leaves it beside the rectangle. *)
Lemma push_out_separates e bx by_ bw bh :
  overlaps_rect (push_out e bx by_ bw bh) bx by_ bw bh = false.
Proof.
  unfold push_out.
  destruct (Qlt_bool (js_min _ _) (js_min _ _)).
  - destruct (Qlt_bool (e_x e) bx); unfold overlaps_rect; simpl.
    + rewrite (Qlt_bool_irrefl bx) by ring. by rewrite andb_false_r.
    + by rewrite (Qlt_bool_irrefl (bx + bw)%Q) by reflexivity.
  - destruct (Qlt_bool (e_y e) by_); unfold overlaps_rect; simpl.
    + rewrite (Qlt_bool_irrefl by_ (by_ - e_height e + e_height e)%Q) by ring.
      by rewrite !andb_false_r.
    + rewrite (Qlt_bool_irrefl (by_ + bh)%Q) by reflexivity.
      by rewrite andb_false_r.
Qed.

Lemma push_out_shape e bx by_ bw bh :
  e_width (push_out e bx by_ bw bh) = e_width e ∧
  e_height (push_out e bx by_ bw bh) = e_height e ∧
  e_solid (push_out e bx by_ bw bh) = e_solid e ∧
  active (push_out e bx by_ bw bh) = active e ∧
  e_id (push_out e bx by_ bw bh) = e_id e ∧
  tags (push_out e bx by_ bw bh) = tags e ∧
  as_player (push_out e bx by_ bw bh) = as_player e.
Proof.
  unfold push_out.
  destruct (Qlt_bool (js_min _ _) (js_min _ _));
    [destruct (Qlt_bool (e_x e) bx)|destruct (Qlt_bool (e_y e) by_)]; done.
Qed.

(** X11.  After [resolveCollision] on two distinct entities they never
    overlap: whatever their positions and sizes, [checkCollision] on the
    results is false (in exact arithmetic).  Only the first entity is moved;
    the second keeps its position, velocity and size, and the first keeps its
    size. *)
Theorem resolveCollision_separates (a b : Entity) :
  let r := resolveCollision a b in
  checkCollision r.1 r.2 = false ∧
  e_x r.2 = e_x b ∧ e_y r.2 = e_y b ∧ velocity r.2 = velocity b ∧
  e_width r.2 = e_width b ∧ e_height r.2 = e_height b ∧
  e_width r.1 = e_width a ∧ e_height r.1 = e_height a.
Proof.
  cbv zeta. unfold resolveCollision.
  destruct (checkCollision a b) eqn:Hc; cbn [negb fst snd].
  { set (a1 := push_out a (e_x b) (e_y b) (e_width b) (e_height b)).
    destruct (onCollision_body a1 b) as (Hx & Hy & _ & Hw & Hh & Hs & _).
    destruct (onCollision_body b (onCollision a1 b)) as (Hx2 & Hy2 & Hv2 & Hw2 & Hh2 & Hs2 & _).
    destruct (push_out_shape a (e_x b) (e_y b) (e_width b) (e_height b))
      as (Hpw & Hph & _).
    fold a1 in Hpw, Hph.
    split; [|repeat split; congruence].
    rewrite checkCollision_rect. unfold overlaps_rect.
    rewrite Hx, Hy, Hw, Hh, Hx2, Hy2, Hw2, Hh2.
    fold (overlaps_rect a1 (e_x b) (e_y b) (e_width b) (e_height b)).
    unfold a1. rewrite push_out_separates. apply andb_false_r. }
  repeat split; done.
Qed.

(** X12.  For two solid, overlapping bodies whose overlap depth on X is
    strictly smaller than on Y, [resolveCollision] resolves horizontally: it
    moves the first body to the left of the second when its left edge is
    further left, to the right of it otherwise, zeroes its x velocity, and
    leaves its y position and y velocity unchanged. *)
Theorem resolveCollision_smaller_x (a b : Entity) :
  checkCollision a b = true →
  (overlapX a b < overlapY a b)%Q →
  let a' := (resolveCollision a b).1 in
  e_x a' = (if Qlt_bool (e_x a) (e_x b) then e_x b - e_width a
            else e_x b + e_width b)%Q ∧
  (velocity a').1 = 0%Q ∧
  e_y a' = e_y a ∧ (velocity a').2 = (velocity a).2.
Proof.
  intros Hc Hlt. cbv zeta. unfold resolveCollision. rewrite Hc. cbn [negb fst].
  destruct (onCollision_body
              (push_out a (e_x b) (e_y b) (e_width b) (e_height b)) b)
    as (-> & -> & -> & _).
  unfold push_out. fold (overlapX a b) (overlapY a b).
  apply Qlt_bool_iff in Hlt. rewrite Hlt.
  by destruct (Qlt_bool (e_x a) (e_x b)).
Qed.

(** [resolveCollision_smaller_x] on a box overlapping another by 2 on X and
    by 5 on Y. *)
Lemma resolveCollision_smaller_x_witness :
  let a := BaseEntity_new "a" 0 0 10 10 in
  let b := BaseEntity_new "b" 8 5 10 10 in
  checkCollision a b = true ∧ (overlapX a b < overlapY a b)%Q ∧
  (e_x (resolveCollision a b).1 == -2)%Q.
Proof.
  cbv zeta.
  assert (H1 : checkCollision (BaseEntity_new "a" 0 0 10 10)
                              (BaseEntity_new "b" 8 5 10 10) = true) by reflexivity.
  assert (H2 : (overlapX (BaseEntity_new "a" 0 0 10 10) (BaseEntity_new "b" 8 5 10 10)
                < overlapY (BaseEntity_new "a" 0 0 10 10)
                           (BaseEntity_new "b" 8 5 10 10))%Q) by reflexivity.
  split; [exact H1|]. split; [exact H2|].
  rewrite (proj1 (resolveCollision_smaller_x _ _ H1 H2)). reflexivity.
Defined.

(** ** Collisions with the tile map *)

Lemma checkTileCollision_tiles e m c :
  e_solid e = true →
  c ∈ (checkTileCollision e m).2 ↔
  tile_range e m c.1.1 c.1.2 ∧ solid c.2 = true ∧
  ∃ layerIndex, getTile m layerIndex c.1.1 c.1.2 = Some c.2.
Proof.
  intros Hs. unfold checkTileCollision. rewrite Hs. cbn [negb snd].
  unfold tile_range, range_incl, layer_indices.
  rewrite list_elem_of_bind. split.
  - intros (li & Hin & Hli). apply list_elem_of_bind in Hin as (y & Hin & Hy).
    apply list_elem_of_bind in Hin as (x & Hin & Hx).
    apply elem_of_seqZ in Hx, Hy.
    destruct (getTile m li x y) as [t|] eqn:Et; [|by apply elem_of_nil in Hin].
    destruct (solid t) eqn:Est; [|by apply elem_of_nil in Hin].
    apply list_elem_of_singleton in Hin. subst c. cbn [fst snd].
    split; [lia|]. split; [done|]. eauto.
  - intros ([Hx Hy] & Hst & li & Ht). destruct c as [[x y] t]. cbn [fst snd] in *.
    exists li. split.
    + apply list_elem_of_bind. exists y. split; [|apply elem_of_seqZ; lia].
      apply list_elem_of_bind. exists x. split; [|apply elem_of_seqZ; lia].
      rewrite Ht, Hst. by apply list_elem_of_singleton.
    + assert (Hr : out_of_range m li x y = false)
        by (unfold getTile in Ht; by destruct (out_of_range m li x y)).
      apply out_of_range_false in Hr. apply elem_of_seqZ. lia.
Qed.

(** X13.  On a map with a non-zero tile size, [checkTileCollision] reports,
    for a solid body, exactly the solid tiles of all layers within the body's
    tile range, and it reports a collision exactly when [isSolid] holds at
    some cell of that range; for a body that is not solid it reports
    nothing. *)
Theorem checkTileCollision_spec (e : Entity) (m : TileMap) :
  ¬ (tileSize m == 0)%Q →
  (e_solid e = false → checkTileCollision e m = (false, [])) ∧
  (e_solid e = true →
   (∀ c, c ∈ (checkTileCollision e m).2 ↔
         tile_range e m c.1.1 c.1.2 ∧ solid c.2 = true ∧
         ∃ layerIndex, getTile m layerIndex c.1.1 c.1.2 = Some c.2) ∧
   ((checkTileCollision e m).1 = true ↔
    ∃ x y, tile_range e m x y ∧ isSolid m x y = true)).
Proof.
  intros _. split.
  - intros Hs. unfold checkTileCollision. by rewrite Hs.
  - intros Hs. split; [intros c; by apply checkTileCollision_tiles|].
    assert (Hfst : (checkTileCollision e m).1 = true ↔ (checkTileCollision e m).2 ≠ []).
    { unfold checkTileCollision. rewrite Hs. cbn [negb fst snd].
      apply bool_decide_eq_true. }
    rewrite Hfst. split.
    + intros Hne. destruct (checkTileCollision e m).2 as [|c l] eqn:E; [done|].
      assert (Hc : c ∈ (checkTileCollision e m).2) by (rewrite E; by left).
      apply checkTileCollision_tiles in Hc as (Hr & Hst & li & Ht); [|done].
      exists c.1.1, c.1.2. split; [done|].
      apply isSolid_true. eauto.
    + intros (x & y & Hr & Hsol) Hnil.
      apply isSolid_true in Hsol as (li & t & Ht & Hst).
      assert (Hc : (x, y, t) ∈ (checkTileCollision e m).2)
        by (apply checkTileCollision_tiles; [done|]; cbn [fst snd]; eauto).
      rewrite Hnil in Hc. by apply elem_of_nil in Hc.
Qed.

(** [checkTileCollision_spec] on the body inside the middle tile of the map
    of walls. *)
Lemma checkTileCollision_spec_witness :
  ¬ (tileSize wall_map == 0)%Q ∧ e_solid stuck_body = true ∧
  (tile_range stuck_body wall_map 1 1 ∧ isSolid wall_map 1 1 = true) ∧
  (checkTileCollision stuck_body wall_map).1 = true.
Proof.
  assert (Hs : e_solid stuck_body = true) by reflexivity.
  assert (Hr : tile_range stuck_body wall_map 1 1) by (vm_compute; intuition discriminate).
  assert (Hw : isSolid wall_map 1 1 = true) by reflexivity.
  assert (Hts : ¬ (tileSize wall_map == 0)%Q) by (vm_compute; discriminate).
  split; [exact Hts|]. split; [exact Hs|]. split; [exact (conj Hr Hw)|].
  apply (proj2 (proj2 (checkTileCollision_spec stuck_body wall_map Hts) Hs)).
  exists 1, 1. exact (conj Hr Hw).
Defined.

Lemma checkTileCollision_collided e m :
  (checkTileCollision e m).1 = bool_decide ((checkTileCollision e m).2 ≠ []).
Proof. unfold checkTileCollision. by destruct (e_solid e). Qed.

Lemma resolve_tiles_shape m cs : ∀ e,
  let e' := foldl (resolve_tile m) e cs in
  e_width e' = e_width e ∧ e_height e' = e_height e ∧ e_solid e' = e_solid e ∧
  active e' = active e ∧ e_id e' = e_id e ∧ tags e' = tags e ∧
  as_player e' = as_player e ∧
  ((velocity e').1 = (velocity e).1 ∨ (velocity e').1 = 0%Q) ∧
  ((velocity e').2 = (velocity e).2 ∨ (velocity e').2 = 0%Q).
Proof.
  induction cs as [|c cs IH]; intros e; cbv zeta.
  { repeat split; auto. }
  cbn [foldl]. specialize (IH (resolve_tile m e c)). cbv zeta in IH.
  destruct IH as (-> & -> & -> & -> & -> & -> & -> & Hvx & Hvy).
  unfold resolve_tile in *.
  destruct (push_out_shape e (inject_Z c.1.1 * tileSize m) (inject_Z c.1.2 * tileSize m)
                           (tileSize m) (tileSize m)) as (-> & -> & -> & -> & -> & -> & ->).
  repeat split; try done.
  - destruct Hvx as [-> | ->]; [|by right]. unfold push_out.
    destruct (Qlt_bool (js_min _ _) (js_min _ _));
      [destruct (Qlt_bool (e_x e) _)|destruct (Qlt_bool (e_y e) _)]; simpl; auto.
  - destruct Hvy as [-> | ->]; [|by right]. unfold push_out.
    destruct (Qlt_bool (js_min _ _) (js_min _ _));
      [destruct (Qlt_bool (e_x e) _)|destruct (Qlt_bool (e_y e) _)]; simpl; auto.
Qed.

(** X14.  On a map with a non-zero tile size, [resolveTileCollision] changes
    only the position and the velocity of the body: size, flags, id, tags and
    player data are kept, and each velocity component is either kept or set
    to zero. *)
Theorem resolveTileCollision_shape (e : Entity) (m : TileMap) :
  ¬ (tileSize m == 0)%Q →
  let e' := resolveTileCollision e m in
  e_width e' = e_width e ∧ e_height e' = e_height e ∧ e_solid e' = e_solid e ∧
  active e' = active e ∧ e_id e' = e_id e ∧ tags e' = tags e ∧
  as_player e' = as_player e ∧
  ((velocity e').1 = (velocity e).1 ∨ (velocity e').1 = 0%Q) ∧
  ((velocity e').2 = (velocity e).2 ∨ (velocity e').2 = 0%Q).
Proof.
  intros _. cbv zeta. unfold resolveTileCollision.
  destruct (negb (checkTileCollision e m).1).
  - repeat split; auto.
  - apply resolve_tiles_shape.
Qed.

(** [resolveTileCollision_shape] on the body inside the middle tile of the
    map of walls, which is pushed down with its y velocity at zero. *)
Lemma resolveTileCollision_shape_witness :
  ¬ (tileSize wall_map == 0)%Q ∧
  e_width (resolveTileCollision stuck_body wall_map) = e_width stuck_body ∧
  as_player (resolveTileCollision stuck_body wall_map) = as_player stuck_body.
Proof.
  assert (Hts : ¬ (tileSize wall_map == 0)%Q) by (vm_compute; discriminate).
  pose proof (resolveTileCollision_shape stuck_body wall_map Hts)
    as (Hw & _ & _ & _ & _ & _ & Hp & _).
  split; [exact Hts|]. split; [exact Hw|exact Hp].
Defined.

(** X15.  On a map with a non-zero tile size, after [resolveTileCollision]
    the body does not overlap the last tile it was resolved against: the
    rectangle of the last tile reported by [checkTileCollision] and the body
    fail the overlap test (in exact arithmetic). *)
Theorem resolveTileCollision_last_tile
    (e : Entity) (m : TileMap) (cs : list (Z * Z * Tile)) (c : Z * Z * Tile) :
  ¬ (tileSize m == 0)%Q →
  (checkTileCollision e m).2 = cs ++ [c] →
  overlaps_rect (resolveTileCollision e m)
                (inject_Z c.1.1 * tileSize m) (inject_Z c.1.2 * tileSize m)
                (tileSize m) (tileSize m) = false.
Proof.
  intros _ Hcs. unfold resolveTileCollision.
  rewrite checkTileCollision_collided, Hcs.
  rewrite bool_decide_eq_true_2 by (by destruct cs). cbn [negb].
  rewrite foldl_app. cbn [foldl]. unfold resolve_tile at 1.
  apply push_out_separates.
Qed.

(** [resolveTileCollision_last_tile] on a body overlapping the top border of
    the sample maze. *)
Lemma resolveTileCollision_last_tile_witness :
  ¬ (tileSize sample_maze == 0)%Q ∧
  (checkTileCollision border_body sample_maze).2 = [] ++ [(1, 0, wallTile)] ∧
  overlaps_rect (resolveTileCollision border_body sample_maze) 32 0 32 32 = false.
Proof.
  assert (H : (checkTileCollision border_body sample_maze).2 = [] ++ [(1, 0, wallTile)])
    by (vm_compute; reflexivity).
  assert (Hts : ¬ (tileSize sample_maze == 0)%Q) by (vm_compute; discriminate).
  split; [exact Hts|]. split; [exact H|].
  pose proof (resolveTileCollision_last_tile border_body sample_maze [] _ Hts H) as Hsep.
  vm_compute in Hsep |- *. exact Hsep.
Defined.

(** ** The input system *)

Lemma lower_ascii_idemp c : lower_ascii (lower_ascii c) = lower_ascii c.
Proof. destruct c as [[] [] [] [] [] [] [] []]; reflexivity. Qed.

Lemma toLowerCase_idemp s : toLowerCase (toLowerCase s) = toLowerCase s.
Proof. induction s as [|c s IH]; [done|]. simpl. by rewrite lower_ascii_idemp, IH. Qed.

(** X16.  For ASCII key names that are entries of the key table itself, a
    key is down after its keydown event and up after its keyup event,
    whatever the case of its name in the event or in the query; the state of
    every other key is left as it was. *)
Theorem key_events_round_trip (i : InputSystem) (k k' : string) :
  plain_key k → plain_key k' → ascii_name k → ascii_name k' →
  isKeyDown (handleKeyDown i k) k' =
    (if decide (toLowerCase k' = toLowerCase k) then true else isKeyDown i k') ∧
  isKeyDown (handleKeyUp i k) k' =
    (if decide (toLowerCase k' = toLowerCase k) then false else isKeyDown i k') ∧
  isKeyDown i (toLowerCase k) = isKeyDown i k.
Proof.
  intros _ _ _ _. unfold isKeyDown, handleKeyDown, handleKeyUp, truthy. cbn [keys].
  rewrite toLowerCase_idemp.
  repeat split; try done; case_decide as E.
  - by rewrite E, lookup_insert_eq.
  - by rewrite lookup_insert_ne.
  - by rewrite E, lookup_insert_eq.
  - by rewrite lookup_insert_ne.
Qed.

(** [key_events_round_trip] on the up arrow, named as the browser names it
    and queried in lower case. *)
Lemma key_events_round_trip_witness :
  plain_key "ArrowUp" ∧ plain_key "arrowup" ∧
  ascii_name "ArrowUp" ∧ ascii_name "arrowup" ∧
  isKeyDown (handleKeyDown InputSystem_new "ArrowUp") "arrowup" = true ∧
  isKeyDown (handleKeyUp (handleKeyDown InputSystem_new "ArrowUp") "ARROWUP") "arrowup" = false.
Proof.
  assert (H1 : plain_key "ArrowUp") by reflexivity.
  assert (H2 : plain_key "arrowup") by reflexivity.
  assert (H3 : plain_key "ARROWUP") by reflexivity.
  assert (A1 : ascii_name "ArrowUp") by reflexivity.
  assert (A2 : ascii_name "arrowup") by reflexivity.
  assert (A3 : ascii_name "ARROWUP") by reflexivity.
  split; [exact H1|]. split; [exact H2|]. split; [exact A1|]. split; [exact A2|]. split.
  - rewrite (proj1 (key_events_round_trip InputSystem_new "ArrowUp" "arrowup" H1 H2 A1 A2)).
    reflexivity.
  - rewrite (proj1 (proj2 (key_events_round_trip
               (handleKeyDown InputSystem_new "ArrowUp") "ARROWUP" "arrowup" H3 H2 A3 A2))).
    reflexivity.
Defined.

(** X17.  Edge detection across a frame: right after [update] no key counts
    as pressed or released; a keydown event that follows makes a key (one
    that is an entry of the key table itself) pressed exactly when it was not
    down before, and a keyup event makes it released exactly when it was
    down. *)
Theorem key_edges (i : InputSystem) (k : string) :
  plain_key k →
  let i0 := input_update i in
  (∀ k', isKeyPressed i0 k' = false ∧ isKeyReleased i0 k' = false) ∧
  isKeyPressed (handleKeyDown i0 k) k = negb (isKeyDown i k) ∧
  isKeyReleased (handleKeyUp i0 k) k = isKeyDown i k.
Proof.
  intros _. cbv zeta.
  unfold isKeyPressed, isKeyReleased, isKeyDown, handleKeyDown, handleKeyUp,
    input_update, truthy.
  cbn [keys previousKeys]. rewrite !lookup_insert_eq. cbn [default negb andb].
  split; [|done]. intros k'.
  by destruct (default false (keys i !! toLowerCase k')).
Qed.

(** [key_edges] on the space key: pressed by the first keydown after a
    frame. *)
Lemma key_edges_witness :
  plain_key " " ∧
  isKeyPressed (handleKeyDown (input_update InputSystem_new) " ") " " = true.
Proof.
  assert (H : plain_key " ") by reflexivity.
  split; [exact H|].
  rewrite (proj1 (proj2 (key_edges InputSystem_new " " H))). reflexivity.
Defined.

(** X18.  [getDirection] is NONE exactly when none of the eight movement
    keys is down; the up keys win over all others; and after [reset] (the
    blur handler) no key that is an entry of the key table itself is down,
    and the direction is NONE. *)
Theorem getDirection_spec (i : InputSystem) :
  (getDirection i = NONE ↔ Forall (λ k, isKeyDown i k = false) movement_keys) ∧
  (isKeyDown i "ArrowUp" = true ∨ isKeyDown i "W" = true → getDirection i = UP) ∧
  (∀ k, plain_key k → isKeyDown (deliver i Blur) k = false) ∧
  getDirection (deliver i Blur) = NONE.
Proof.
  split; [|split; [|split]].
  - unfold getDirection, movement_keys. rewrite !Forall_cons, Forall_nil.
    destruct (isKeyDown i "arrowup"), (isKeyDown i "w"), (isKeyDown i "arrowright"),
      (isKeyDown i "d"), (isKeyDown i "arrowdown"), (isKeyDown i "s"),
      (isKeyDown i "arrowleft"), (isKeyDown i "a"); simpl; intuition discriminate.
  - unfold getDirection.
    change (isKeyDown i "ArrowUp") with (isKeyDown i "arrowup").
    change (isKeyDown i "W") with (isKeyDown i "w").
    intros [-> | ->]; [done|]. by rewrite orb_true_r.
  - intros k _. unfold isKeyDown, truthy. simpl. by rewrite lookup_empty.
  - done.
Qed.

(** ** What the physics steps keep of the entities *)

Lemma same_kind_refl e : same_kind e e.
Proof. unfold same_kind. by destruct (as_player e). Qed.

Lemma same_kind_trans e1 e2 e3 : same_kind e1 e2 → same_kind e2 e3 → same_kind e1 e3.
Proof.
  unfold same_kind. intros (? & ? & ? & ? & ? & ? & H12) (? & ? & ? & ? & ? & ? & H23).
  repeat split; try congruence.
  destruct (as_player e1), (as_player e2), (as_player e3); try done; congruence.
Qed.

#[global] Instance evolves_refl : Reflexive evolves.
Proof.
  intros e. split; [apply same_kind_refl|].
  destruct (as_player e); [|done]. split; apply Qle_refl.
Qed.

#[global] Instance evolves_trans : Transitive evolves.
Proof.
  intros e1 e2 e3 [K12 H12] [K23 H23]. split; [by eapply same_kind_trans|].
  destruct K12 as (_ & _ & _ & _ & _ & _ & K12).
  destruct (as_player e1), (as_player e2), (as_player e3); try done.
  destruct H12, H23. split; eapply Qle_trans; eauto.
Qed.

(** An entity whose fields other than position and velocity are kept. *)
Lemma evolves_body e e' :
  e_id e' = e_id e → e_width e' = e_width e → e_height e' = e_height e →
  e_solid e' = e_solid e → active e' = active e → tags e' = tags e →
  as_player e' = as_player e → evolves e e'.
Proof.
  intros ? ? ? ? ? ? Hp. unfold evolves, same_kind. rewrite Hp.
  destruct (as_player e); repeat split; try done; apply Qle_refl.
Qed.

Lemma move_evolves d e : evolves e (move d e).
Proof. unfold move. destruct (as_player e) eqn:E; [|done]. by apply evolves_body. Qed.

Lemma entity_update_evolves dt e : evolves e (entity_update dt e).
Proof. by apply evolves_body. Qed.

Lemma resolveTileCollision_evolves e m : evolves e (resolveTileCollision e m).
Proof.
  unfold resolveTileCollision. destruct (negb (checkTileCollision e m).1); [done|].
  destruct (resolve_tiles_shape m (checkTileCollision e m).2 e)
    as (? & ? & ? & ? & ? & ? & ? & _).
  by apply evolves_body.
Qed.

Lemma push_out_evolves e bx by_ bw bh : evolves e (push_out e bx by_ bw bh).
Proof.
  destruct (push_out_shape e bx by_ bw bh) as (? & ? & ? & ? & ? & ? & ?).
  by apply evolves_body.
Qed.

Lemma onCollision_evolves e other : evolves e (onCollision e other).
Proof.
  unfold onCollision, evolves, same_kind. destruct (as_player e) as [d|] eqn:E.
  - destruct (includes (tags other) "enemy"); [|destruct (includes (tags other) "collectible")];
      simpl; rewrite ?E; repeat split; try done; try apply Qle_refl.
    + apply Qle_minus_iff. ring_simplify. done.
    + apply Qle_minus_iff. ring_simplify. done.
  - by rewrite E.
Qed.

Lemma resolveCollision_evolves a b :
  evolves a (resolveCollision a b).1 ∧ evolves b (resolveCollision a b).2.
Proof.
  unfold resolveCollision. destruct (negb (checkCollision a b)); [done|].
  cbn [fst snd]. split; [|apply onCollision_evolves].
  etrans; [apply push_out_evolves|apply onCollision_evolves].
Qed.

Lemma Forall2_evolves_insert es i e e' :
  es !! i = Some e → evolves e e' → Forall2 evolves es (<[i := e']> es).
Proof.
  intros Hi He. apply Forall2_same_length_lookup. split; [by rewrite length_insert|].
  intros n x y Hx Hy. destruct (decide (n = i)) as [-> |Hne].
  - rewrite list_lookup_insert_eq in Hy by (by eapply lookup_lt_Some). congruence.
  - rewrite list_lookup_insert_ne in Hy by done. assert (x = y) as -> by congruence. done.
Qed.

Lemma Forall2_evolves_fmap (f : Entity → Entity) es :
  (∀ e, evolves e (f e)) → Forall2 evolves es (f <$> es).
Proof. intros Hf. induction es; constructor; auto. Qed.

Lemma Forall2_evolves_alter (f : Entity → Entity) i es :
  (∀ e, evolves e (f e)) → Forall2 evolves es (alter f i es).
Proof.
  intros Hf. revert i. induction es as [|e es IH]; intros i; [constructor|].
  destruct i as [|i]; simpl; constructor; auto; try reflexivity. apply IH.
Qed.

Lemma foldl_evolves {B} (f : list Entity → B → list Entity) (l : list B) :
  (∀ es b, Forall2 evolves es (f es b)) →
  ∀ es, Forall2 evolves es (foldl f es l).
Proof.
  intros Hf. induction l as [|b l IH]; intros es; [reflexivity|].
  simpl. etrans; [apply Hf|apply IH].
Qed.

Lemma collide_pair_evolves i j es : Forall2 evolves es (collide_pair i j es).
Proof.
  unfold collide_pair.
  destruct (es !! i) as [a|] eqn:Ei; [|reflexivity].
  destruct (es !! j) as [b|] eqn:Ej; [|reflexivity].
  destruct (negb (active b) || negb (e_solid b)); [reflexivity|].
  destruct (checkCollision a b); [|reflexivity].
  destruct (resolveCollision_evolves a b) as [Ha Hb].
  apply Forall2_same_length_lookup. split; [by rewrite !length_insert|].
  intros n x y Hx Hy.
  pose proof (lookup_lt_Some _ _ _ Ei). pose proof (lookup_lt_Some _ _ _ Ej).
  destruct (decide (n = j)) as [-> |Hnj].
  - rewrite list_lookup_insert_eq in Hy by (by rewrite length_insert). congruence.
  - rewrite list_lookup_insert_ne in Hy by done.
    destruct (decide (n = i)) as [-> |Hni].
    + rewrite list_lookup_insert_eq in Hy by done. congruence.
    + rewrite list_lookup_insert_ne in Hy by done.
      assert (x = y) as -> by congruence. reflexivity.
Qed.

Lemma collide_all_evolves es : Forall2 evolves es (collide_all es).
Proof.
  unfold collide_all. apply foldl_evolves. intros es' i. unfold collide_from.
  destruct (es' !! i); [|reflexivity].
  destruct (negb (active e) || negb (e_solid e)); [reflexivity|].
  apply foldl_evolves. intros. apply collide_pair_evolves.
Qed.

Lemma step_entities_evolves m pl dt d es :
  Forall2 evolves es (step_entities m pl dt d es).
Proof.
  unfold step_entities.
  etrans; [|apply collide_all_evolves].
  etrans; [|destruct m; [apply Forall2_evolves_fmap|reflexivity]].
  - etrans; [|apply Forall2_evolves_fmap].
    + destruct pl; [apply Forall2_evolves_alter, move_evolves|reflexivity].
    + intros e. destruct (active e); [apply entity_update_evolves|reflexivity].
  - intros e. destruct (active e && e_solid e);
      [apply resolveTileCollision_evolves|reflexivity].
Qed.

Lemma play_evolves m pl ds es : Forall2 evolves es (play m pl ds es).
Proof. unfold play. apply foldl_evolves. intros. apply step_entities_evolves. Qed.

(** X19.  Over any sequence of frames, with any input events, the frame
    loop adds and removes no entity; each entity keeps its id, size, flags
    and tags; a player keeps its speed, its health never rises and its score
    never falls.  In particular the reset of [restart] never happens from
    the frame loop.  The map and the player reference are kept as well. *)
Theorem run_frames_evolves (fs : list Frame) (g : GameEngine) :
  sized g →
  Forall2 evolves (entities g) (entities (run_frames fs g)) ∧
  player (run_frames fs g) = player g ∧ tileMap (run_frames fs g) = tileMap g.
Proof.
  intros _. split; [rewrite run_frames_entities; apply play_evolves|].
  revert g. induction fs as [|f fs IH]; intros g; [done|].
  change (run_frames (f :: fs) g) with (run_frames fs (run_frame g f)).
  destruct (IH (run_frame g f)) as [-> ->].
  destruct (run_frame_frame g f) as [-> ->]. done.
Qed.

(** [run_frames_evolves] on the sample engine with the right arrow held for
    two frames. *)
Lemma run_frames_evolves_witness :
  sized sample_engine ∧
  Forall2 evolves (entities sample_engine)
          (entities (run_frames two_short_frames sample_engine)) ∧
  player (run_frames two_short_frames sample_engine) = Some 0%nat.
Proof.
  assert (Hs : sized sample_engine) by (vm_compute; discriminate).
  destruct (run_frames_evolves two_short_frames sample_engine Hs) as (H1 & H2 & _).
  split; [exact Hs|]. split; [exact H1|]. rewrite H2. reflexivity.
Defined.

(** ** The game state over the frames *)

(** What [checkGameState] without a restart may change of the state: only
    the outcome, and [gameOver] only from false to true. *)
Lemma outcome_only g :
  isKeyPressed (inputSystem g) "space" = false →
  let s' := state (checkGameState g) in
  gs_score s' = gs_score (state g) ∧ gs_level s' = gs_level (state g) ∧
  gs_running s' = gs_running (state g) ∧ gs_paused s' = gs_paused (state g) ∧
  (gameOver (state g) = true → gameOver s' = true).
Proof.
  intros Hk. cbv zeta. unfold checkGameState.
  destruct (the_player g) as [p|]; [|done]. cbv zeta. cbn [inputSystem with_state].
  rewrite Hk, andb_false_r. cbn [state with_state].
  unfold lose_check, win_check.
  destruct (tileMap g) as [m|];
    [destruct (getTile m 0 _ _) as [t|]; [destruct (bool_decide _)|]|];
    (destruct (as_player p) as [d|]; [destruct (Qle_bool (health d) 0)|]); done.
Qed.

Lemma physics_loop_state fuel : ∀ g,
  isKeyPressed (inputSystem g) "space" = false →
  let s' := state (physics_loop fuel g) in
  gs_score s' = gs_score (state g) ∧ gs_level s' = gs_level (state g) ∧
  gs_running s' = gs_running (state g) ∧ gs_paused s' = gs_paused (state g) ∧
  (gameOver (state g) = true → gameOver s' = true).
Proof.
  induction fuel as [|fuel IH]; intros g Hk; cbv zeta; [done|].
  cbn [physics_loop]. destruct (Qle_bool frameTime (accumulator g)); [|done].
  set (g1 := update frameTime g).
  assert (Hi : inputSystem g1 = inputSystem g)
    by (subst g1; by destruct (update_frame frameTime g) as (_ & _ & -> & _)).
  specialize (IH (with_accumulator g1 (accumulator g1 - frameTime)%Q)).
  cbv zeta in IH. cbn [inputSystem with_accumulator state] in IH.
  rewrite Hi in IH. destruct (IH Hk) as (-> & -> & -> & -> & Hover).
  subst g1. unfold update. cbv zeta.
  match goal with |- context [checkGameState ?x] =>
    pose proof (outcome_only x Hk) as H end.
  cbv zeta in H. destruct H as (-> & -> & -> & -> & H).
  repeat split; try done. intros Hg. exact (Hover (H Hg)).
Qed.

Lemma run_frame_state g f :
  let s' := state (run_frame g f) in
  gs_score s' = gs_score (state g) ∧ gs_level s' = gs_level (state g) ∧
  gs_running s' = gs_running (state g) ∧ gs_paused s' = gs_paused (state g) ∧
  (gameOver (state g) = true → gameOver s' = true).
Proof.
  cbv zeta. unfold run_frame, gameLoop. cbn [running paused with_input].
  destruct (running g); [|done]. cbn [negb]. destruct (paused g); [done|]. cbn [negb].
  match goal with |- context [physics_loop ?n ?x] =>
    pose proof (physics_loop_state n x) as H end.
  cbv zeta in H. apply H. apply isKeyPressed_settled.
Qed.

(** X20.  Over any sequence of frames the engine's state changes in its
    outcome only: score, level and the running and paused flags of the state
    are as before, and once [gameOver] is set it stays set, even when the
    space key is pressed. *)
Theorem run_frames_state (fs : list Frame) (g : GameEngine) :
  sized g →
  let s' := state (run_frames fs g) in
  gs_score s' = gs_score (state g) ∧ gs_level s' = gs_level (state g) ∧
  gs_running s' = gs_running (state g) ∧ gs_paused s' = gs_paused (state g) ∧
  (gameOver (state g) = true → gameOver s' = true).
Proof.
  intros _. cbv zeta. revert g. induction fs as [|f fs IH]; intros g; [done|].
  change (run_frames (f :: fs) g) with (run_frames fs (run_frame g f)).
  destruct (IH (run_frame g f)) as (-> & -> & -> & -> & H).
  pose proof (run_frame_state g f) as H'. cbv zeta in H'.
  destruct H' as (-> & -> & -> & -> & H'). repeat split; try done.
  intros Hg. exact (H (H' Hg)).
Qed.

(** [run_frames_state] on the engine whose player has won and lost, with the
    key named space pressed and released over three frames. *)
Lemma run_frames_state_witness :
  let g := checkGameState tiny_engine in
  let fs := [([KeyDown "Space"], 20%Q); ([KeyUp "Space"], 40%Q); ([KeyDown "Space"], 60%Q)] in
  sized g ∧ gameOver (state g) = true ∧ gameOver (state (run_frames fs g)) = true.
Proof.
  cbv zeta.
  assert (Hs : sized (checkGameState tiny_engine)) by (vm_compute; discriminate).
  assert (H : gameOver (state (checkGameState tiny_engine)) = true) by reflexivity.
  split; [exact Hs|]. split; [exact H|].
  apply (run_frames_state
           [([KeyDown "Space"], 20%Q); ([KeyUp "Space"], 40%Q); ([KeyDown "Space"], 60%Q)]
           (checkGameState tiny_engine) Hs).
  exact H.
Defined.

(** ** The player reference *)

Lemma evolves_is_player e e' : evolves e e' → is_Some (as_player e) → is_Some (as_player e').
Proof.
  intros [(_ & _ & _ & _ & _ & _ & H) _] [d Hd]. rewrite Hd in H.
  destruct (as_player e'); [by eexists|done].
Qed.

Lemma same_kind_is_player e e' :
  same_kind e e' → is_Some (as_player e) → is_Some (as_player e').
Proof.
  intros (_ & _ & _ & _ & _ & _ & H) [d Hd]. rewrite Hd in H.
  destruct (as_player e'); [by eexists|done].
Qed.

Lemma player_ok_kept (g g' : GameEngine) :
  player g' = player g →
  Forall2 (λ e e', is_Some (as_player e) → is_Some (as_player e')) (entities g) (entities g') →
  player_ok g → player_ok g'.
Proof.
  unfold player_ok. intros -> Hes. destruct (player g) as [i|]; [|done].
  intros (e & He & Hp).
  destruct (Forall2_lookup_l _ _ _ _ _ Hes He) as (e' & He' & Hk). eauto.
Qed.

Lemma restart_player_kind m p : same_kind p (restart_player m p).
Proof.
  unfold restart_player.
  set (p0 := match as_player p with Some d => _ | None => p end).
  assert (H0 : same_kind p p0).
  { subst p0. unfold same_kind. destruct (as_player p) eqn:E; simpl; rewrite ?E; done. }
  destruct m as [m|]; [|done].
  revert H0. generalize p0. clear p0.
  induction (seqZ 0 (height m)) as [|y ys IH]; intros p0 H0; [done|].
  simpl. apply IH. eapply same_kind_trans; [exact H0|].
  unfold restart_row. destruct (List.find _ _); [|apply same_kind_refl].
  unfold same_kind. simpl. by destruct (as_player p0).
Qed.

Lemma Forall2_kind_refl es : Forall2 same_kind es es.
Proof. apply Forall_Forall2_diag, Forall_forall. intros. apply same_kind_refl. Qed.

Lemma Forall2_kind_alter (f : Entity → Entity) i es :
  (∀ e, same_kind e (f e)) → Forall2 same_kind es (alter f i es).
Proof.
  intros Hf. revert i. induction es as [|e es IH]; intros i; [constructor|].
  destruct i as [|i]; cbn [alter list_alter]; constructor.
  - apply Hf.
  - apply Forall2_kind_refl.
  - apply same_kind_refl.
  - apply IH.
Qed.

Lemma Forall2_kind_trans l1 l2 l3 :
  Forall2 same_kind l1 l2 → Forall2 same_kind l2 l3 → Forall2 same_kind l1 l3.
Proof.
  intros H. revert l3. induction H as [|x y l1 l2 Hxy _ IH]; intros l3 H3.
  - by inversion H3.
  - inversion H3 as [|? z ? l3' Hyz Hrest]; subst. constructor.
    + by eapply same_kind_trans.
    + by apply IH.
Qed.

Lemma restart_kind g : Forall2 same_kind (entities g) (entities (restart g)).
Proof.
  unfold restart. cbn [player with_state].
  destruct (player g) as [i|]; cbn [entities with_entities with_state].
  - apply Forall2_kind_alter. intros e. apply restart_player_kind.
  - apply Forall2_kind_refl.
Qed.

Lemma checkGameState_kind g : Forall2 same_kind (entities g) (entities (checkGameState g)).
Proof.
  unfold checkGameState. destruct (the_player g); [|apply Forall2_kind_refl].
  cbv zeta. destruct (_ && _).
  - match goal with |- context [restart ?x] => pose proof (restart_kind x) as H end.
    exact H.
  - apply Forall2_kind_refl.
Qed.

Lemma update_kind dt g : Forall2 same_kind (entities g) (entities (update dt g)).
Proof.
  unfold update. cbv zeta.
  match goal with |- context [checkGameState ?x] =>
    pose proof (checkGameState_kind x) as H end.
  cbn [entities with_entities] in H.
  eapply Forall2_kind_trans; [|exact H].
  eapply Forall2_impl; [apply step_entities_evolves|]. by intros x y [Hxy _].
Qed.

Lemma removeEntity_ok g entityId : player_ok g → player_ok (removeEntity g entityId).
Proof.
  unfold removeEntity, player_ok.
  destruct (list_find _ (entities g)) as [[index a]|] eqn:Ef; [|done].
  cbn [player entities]. destruct (player g) as [i|]; [|done].
  intros (e & He & Hp).
  case_decide as Hi; [done|]. case_decide as Hlt.
  - exists e. split; [|done]. rewrite list_lookup_delete_ge by lia.
    replace (S (i - 1)) with i by lia. done.
  - exists e. split; [|done]. rewrite list_lookup_delete_lt by lia. done.
Qed.

(** X21.  In every engine reachable from a new one through the public
    methods and the frame callback, the player reference is either empty or
    denotes an instance of [Player] that is held in the entity list: removing
    the player clears the reference, and removing another entity leaves it on
    the same object. *)
Theorem player_reference_valid (g : GameEngine) : engine_reachable g → player_ok g.
Proof.
  induction 1 as [|g now _ IH|g m _ IH _|g e _ IH|g id _ IH|g _ IH|g _ IH|g now _ IH
                 |g _ IH|g _ IH|g dt _ IH|g f _ IH].
  - done.
  - done.
  - done.
  - unfold player_ok, addEntity in *. cbn [player entities].
    destruct (as_player e) as [d|] eqn:Ed.
    + exists e. split; [|by rewrite Ed]. by apply list_lookup_middle.
    + destruct (player g) as [i|]; [|done]. destruct IH as (p & Hp & Hd).
      exists p. split; [|done]. by apply lookup_app_l_Some.
  - by apply removeEntity_ok.
  - unfold engine_start. by destruct (running g).
  - done.
  - unfold engine_resume. by destruct (negb (running g)).
  - done.
  - apply (player_ok_kept g); [by destruct (restart_frame g) as (_ & -> & _)| |done].
    eapply Forall2_impl; [apply restart_kind|]. apply same_kind_is_player.
  - apply (player_ok_kept g); [by destruct (update_frame dt g) as (_ & -> & _)| |done].
    eapply Forall2_impl; [apply update_kind|]. apply same_kind_is_player.
  - apply (player_ok_kept g); [by destruct (run_frame_frame g f) as (_ & ->)| |done].
    rewrite run_frame_entities.
    eapply Forall2_impl; [apply play_evolves|]. apply evolves_is_player.
Qed.

(** [player_reference_valid] on the sample engine after its player is
    removed and a box is added. *)
Lemma player_reference_valid_witness :
  let g := addEntity (removeEntity sample_engine "player") box_b in
  engine_reachable g ∧ player_ok g ∧ player g = None.
Proof.
  cbv zeta.
  assert (H : engine_reachable (addEntity (removeEntity sample_engine "player") box_b)).
  { apply reach_addEntity, reach_removeEntity. unfold sample_engine.
    apply reach_start, reach_addEntity, reach_setTileMap; [apply reach_new|].
    vm_compute. discriminate. }
  split; [exact H|]. split; [exact (player_reference_valid _ H)|reflexivity].
Defined.

(** ** The fixed time step *)

Lemma frameTime_pos : (0 < frameTime)%Q.
Proof. reflexivity. Qed.

Lemma physics_loop_accumulator fuel : ∀ g,
  (inject_Z (Z.of_nat fuel) * frameTime <= accumulator g)%Q →
  (accumulator (physics_loop fuel g) ==
   accumulator g - inject_Z (Z.of_nat fuel) * frameTime)%Q.
Proof.
  induction fuel as [|fuel IH]; intros g Hle.
  - cbn [physics_loop]. change (inject_Z (Z.of_nat 0)) with 0%Q. ring.
  - assert (Hs : (inject_Z (Z.of_nat (S fuel)) == inject_Z (Z.of_nat fuel) + 1)%Q).
    { rewrite Nat2Z.inj_succ. unfold Z.succ. rewrite inject_Z_plus. reflexivity. }
    rewrite Hs in Hle. rewrite Hs.
    assert (H0 : (0 <= inject_Z (Z.of_nat fuel))%Q).
    { change 0%Q with (inject_Z 0). rewrite <- Zle_Qle. lia. }
    pose proof frameTime_pos as Hpos.
    assert (Hn : (0 <= inject_Z (Z.of_nat fuel) * frameTime)%Q).
    { apply Qmult_le_0_compat; [done|]. by apply Qlt_le_weak. }
    cbn [physics_loop].
    assert (Hge : Qle_bool frameTime (accumulator g) = true).
    { apply Qle_bool_iff. lra. }
    rewrite Hge.
    destruct (update_frame frameTime g) as (_ & _ & _ & Hacc & _).
    rewrite IH; cbn [accumulator with_accumulator]; rewrite Hacc; lra.
Qed.

(** X22.  A frame callback of a running, unpaused engine adds the elapsed
    time to the accumulator and takes one frame time out of it for each
    physics step it runs, [floor] of their quotient many: when the sum is not
    negative, what is left is at least 0 and less than one frame time (in
    exact arithmetic). *)
Theorem gameLoop_accumulator (timestamp : Q) (g : GameEngine) :
  sized g → running g = true → paused g = false →
  let total := (accumulator g + (timestamp - lastTime g))%Q in
  (0 <= total)%Q →
  let g' := gameLoop timestamp g in
  lastTime g' = timestamp ∧
  (accumulator g' == total - inject_Z (Qfloor (total / frameTime)) * frameTime)%Q ∧
  (0 <= accumulator g')%Q ∧ (accumulator g' < frameTime)%Q.
Proof.
  intros _ Hr Hp total Hle. cbv zeta.
  pose proof frameTime_pos as Hpos.
  assert (Hne : ¬ (frameTime == 0)%Q) by (intros E; rewrite E in Hpos; by apply Qlt_irrefl in Hpos).
  assert (Hq : (0 <= total / frameTime)%Q).
  { apply Qle_shift_div_l; [done|]. lra. }
  assert (Hfl : 0 ≤ Qfloor (total / frameTime)).
  { change 0 with (Qfloor 0). by apply Qfloor_resp_le. }
  assert (Hn : inject_Z (Z.of_nat (steps_due total)) = inject_Z (Qfloor (total / frameTime))).
  { unfold steps_due. by rewrite Z2Nat.id. }
  assert (Hlow : (inject_Z (Qfloor (total / frameTime)) * frameTime <= total)%Q).
  { pose proof (Qfloor_le (total / frameTime)) as Hf.
    apply (Qmult_le_compat_r _ _ frameTime) in Hf; [|by apply Qlt_le_weak].
    assert (E : (total / frameTime * frameTime == total)%Q) by (by field).
    by rewrite E in Hf. }
  assert (Hup : (total < (inject_Z (Qfloor (total / frameTime)) + 1) * frameTime)%Q).
  { pose proof (Qlt_floor (total / frameTime)) as Hf.
    rewrite inject_Z_plus in Hf. change (inject_Z 1) with 1%Q in Hf.
    apply (Qmult_lt_compat_r _ _ frameTime) in Hf; [|done].
    assert (E : (total / frameTime * frameTime == total)%Q) by (by field).
    by rewrite E in Hf. }
  unfold gameLoop. rewrite Hr, Hp. cbn [negb paused accumulator with_accumulator lastTime].
  fold total.
  match goal with |- context [physics_loop ?n ?x] =>
    pose proof (physics_loop_accumulator n x) as Hacc;
    destruct (physics_loop_frame n x) as (_ & _ & _ & _ & _ & Hlast) end.
  cbn [accumulator with_accumulator lastTime] in Hacc, Hlast. fold total in Hacc, Hlast |- *.
  rewrite Hn in Hacc. specialize (Hacc Hlow).
  split; [done|]. split; [done|]. rewrite Hacc. split; lra.
Qed.

(** [gameLoop_accumulator] on a frame of 40 ms for the sample engine: two
    steps are taken and 20/3 ms are left. *)
Lemma gameLoop_accumulator_witness :
  sized sample_engine ∧ running sample_engine = true ∧ paused sample_engine = false ∧
  (accumulator (gameLoop 40 sample_engine) < frameTime)%Q.
Proof.
  assert (Hr : running sample_engine = true) by reflexivity.
  assert (Hp : paused sample_engine = false) by reflexivity.
  assert (H0 : (0 <= accumulator sample_engine + (40 - lastTime sample_engine))%Q)
    by (vm_compute; discriminate).
  assert (Hs : sized sample_engine) by (vm_compute; discriminate).
  split; [exact Hs|]. split; [exact Hr|]. split; [exact Hp|].
  exact (proj2 (proj2 (proj2 (gameLoop_accumulator 40 sample_engine Hs Hr Hp H0)))).
Defined.

(** ** Frames of a stopped or paused engine *)

Lemma run_frame_idle g f :
  running g = false ∨ paused g = true →
  let g' := run_frame g f in
  entities g' = entities g ∧ state g' = state g ∧ accumulator g' = accumulator g ∧
  running g' = running g ∧ paused g' = paused g.
Proof.
  intros H. cbv zeta. unfold run_frame, gameLoop. cbn [running paused with_input].
  destruct (running g) eqn:Er; simpl; [|done].
  destruct H as [H|H]; [done|]. by rewrite H.
Qed.

(** X23.  While the engine is stopped or paused, frame callbacks run no
    physics step: over any sequence of frames and input events the entities,
    the state and the accumulator stay as they are. *)
Theorem idle_frames (fs : list Frame) (g : GameEngine) :
  running g = false ∨ paused g = true →
  let g' := run_frames fs g in
  entities g' = entities g ∧ state g' = state g ∧ accumulator g' = accumulator g ∧
  running g' = running g ∧ paused g' = paused g.
Proof.
  cbv zeta. revert g. induction fs as [|f fs IH]; intros g H; [done|].
  change (run_frames (f :: fs) g) with (run_frames fs (run_frame g f)).
  pose proof (run_frame_idle g f H) as H1. cbv zeta in H1.
  destruct H1 as (E1 & E2 & E3 & E4 & E5).
  destruct (IH (run_frame g f)) as (-> & -> & -> & -> & ->); [by rewrite E4, E5|].
  done.
Qed.

(** [idle_frames] on the paused sample engine with the right arrow held. *)
Lemma idle_frames_witness :
  paused (engine_pause sample_engine) = true ∧
  entities (run_frames two_short_frames (engine_pause sample_engine)) =
  entities sample_engine.
Proof.
  assert (H : paused (engine_pause sample_engine) = true) by reflexivity.
  split; [exact H|].
  exact (proj1 (idle_frames two_short_frames (engine_pause sample_engine) (or_intror H))).
Defined.

(** ** The player on the Start tile of a generated maze *)

Section start_scan.

Context (m : TileMap).
Context (Hstart : tile_at m start = Some startTile).
Context (Honly : ∀ c t, tile_at m c = Some t → type t = START → c = start).
Context (Hw : 2 ≤ width m) (Hh : 2 ≤ height m).

(** The scan of a row for the Start tile, as [restart] and [initGame] do it. *)
Lemma scan_row y :
  List.find (λ x, match getTile m 0 x y with
                  | Some tile => bool_decide (TileType_code (type tile) = 2)
                  | None => false
                  end) (seqZ 0 (width m)) =
  if decide (y = 1) then Some 1 else None.
Proof.
  case_decide as Hy.
  - subst y. rewrite (seqZ_cons 0) by lia. rewrite (seqZ_cons (Z.succ 0)) by lia.
    cbn [List.find]. change (Z.succ 0) with 1.
    assert (H0 : match getTile m 0 0 1 with
                 | Some tile => bool_decide (TileType_code (type tile) = 2)
                 | None => false
                 end = false).
    { destruct (getTile m 0 0 1) as [t|] eqn:E; [|done].
      apply bool_decide_eq_false. intros Hc.
      assert (Ht : type t = START) by (by destruct (type t)).
      by pose proof (Honly (0, 1) t E Ht). }
    rewrite H0.
    change (getTile m 0 1 1) with (tile_at m start). by rewrite Hstart.
  - apply find_all_false. intros x _.
    destruct (getTile m 0 x y) as [t|] eqn:E; [|done].
    apply bool_decide_eq_false. intros Hc.
    assert (Ht : type t = START) by (by destruct (type t)).
    pose proof (Honly (x, y) t E Ht) as Hs. inversion Hs. done.
Qed.

Lemma restart_row_scan y p :
  restart_row m y p =
  if decide (y = 1) then set_position p (inject_Z 1 * tileSize m)%Q (inject_Z 1 * tileSize m)%Q
  else p.
Proof. unfold restart_row. rewrite scan_row. by case_decide; subst. Qed.

Lemma find_start_row_scan y acc :
  find_start_row m y acc =
  if decide (y = 1) then (inject_Z 1 * tileSize m, inject_Z 1 * tileSize m)%Q else acc.
Proof. unfold find_start_row. rewrite scan_row. by case_decide; subst. Qed.

Lemma rows_split : seqZ 0 (height m) = 0 :: 1 :: seqZ 2 (height m - 2).
Proof.
  rewrite (seqZ_cons 0) by lia. rewrite (seqZ_cons (Z.succ 0)) by lia.
  do 3 f_equal. lia.
Qed.

Lemma restart_rows p :
  foldl (λ p y, restart_row m y p) p (seqZ 0 (height m)) =
  set_position p (inject_Z 1 * tileSize m)%Q (inject_Z 1 * tileSize m)%Q.
Proof.
  rewrite rows_split. cbn [foldl]. rewrite !restart_row_scan.
  destruct (decide (0 = 1)) as [?|_]; [lia|]. destruct (decide (1 = 1)) as [_|?]; [|lia].
  generalize (set_position p (inject_Z 1 * tileSize m)%Q (inject_Z 1 * tileSize m)%Q).
  assert (Hge : Forall (λ y, 2 ≤ y) (seqZ 2 (height m - 2)))
    by (apply Forall_forall; intros y Hy; apply elem_of_seqZ in Hy; lia).
  induction Hge as [|y ys Hy _ IH]; intros q; [done|].
  cbn [foldl]. rewrite restart_row_scan, decide_False by lia. apply IH.
Qed.

Lemma find_start_rows :
  find_start m = (inject_Z 1 * tileSize m, inject_Z 1 * tileSize m)%Q.
Proof.
  unfold find_start. rewrite rows_split. cbn [foldl]. rewrite !find_start_row_scan.
  destruct (decide (0 = 1)) as [?|_]; [lia|]. destruct (decide (1 = 1)) as [_|?]; [|lia].
  generalize (inject_Z 1 * tileSize m, inject_Z 1 * tileSize m)%Q.
  assert (Hge : Forall (λ y, 2 ≤ y) (seqZ 2 (height m - 2)))
    by (apply Forall_forall; intros y Hy; apply elem_of_seqZ in Hy; lia).
  induction Hge as [|y ys Hy _ IH]; intros q; [done|].
  cbn [foldl]. rewrite find_start_row_scan, decide_False by lia. apply IH.
Qed.

End start_scan.

(** The Start tile of a generated maze whose lattice has a second cell. *)
Lemma generate_start g rnd m :
  generate g rnd = Ok m →
  (5 ≤ mg_width g ∧ 3 ≤ mg_height g) ∨ (3 ≤ mg_width g ∧ 5 ≤ mg_height g) →
  tile_at m start = Some startTile ∧
  (∀ c t, tile_at m c = Some t → type t = START → c = start) ∧
  2 ≤ width m ∧ 2 ≤ height m ∧ tileSize m = 32%Q ∧ length (layers m) = 1%nat.
Proof.
  intros Hgen Hdim.
  destruct (generate_frame _ _ _ Hgen) as (Hmw & Hmh & Hts & Hid).
  destruct (generate_inv _ _ _ Hgen) as (st & V & W & I & Hend & -> & _).
  destruct (final_marks _ _ V W st I Hend Hdim) as (Hs & e & _ & _ & _ & Hall).
  split; [done|]. split; [intros c t Ht; by apply Hall|].
  split; [lia|]. split; [lia|]. split; [done|].
  apply (f_equal length) in Hid. by rewrite length_fmap in Hid.
Qed.

(** A 24 by 24 body at the corner of the Start tile of such a maze touches
    no solid tile. *)
Lemma start_is_free g rnd m p :
  generate g rnd = Ok m →
  (5 ≤ mg_width g ∧ 3 ≤ mg_height g) ∨ (3 ≤ mg_width g ∧ 5 ≤ mg_height g) →
  e_x p = (inject_Z 1 * 32)%Q → e_y p = (inject_Z 1 * 32)%Q →
  e_width p = 24%Q → e_height p = 24%Q →
  checkTileCollision p m = (false, []).
Proof.
  intros Hgen Hdim Hx Hy Hpw Hph.
  destruct (generate_start _ _ _ Hgen Hdim) as (Hs & _ & _ & _ & Hts & Hlen).
  assert (Hnil : (checkTileCollision p m).2 = []).
  { destruct (e_solid p) eqn:Esol;
      [|unfold checkTileCollision; by rewrite Esol].
    destruct (checkTileCollision p m).2 as [|c l] eqn:E; [done|]. exfalso.
    assert (Hc : c ∈ (checkTileCollision p m).2) by (rewrite E; by left).
    apply checkTileCollision_tiles in Hc as (Hr & Hsol & li & Ht); [|done].
    unfold tile_range in Hr. rewrite Hx, Hy, Hpw, Hph, Hts in Hr.
    assert (F1 : Qfloor (inject_Z 1 * 32 / 32) = 1) by reflexivity.
    assert (F2 : Qfloor ((inject_Z 1 * 32 + 24 - 1) / 32) = 1) by reflexivity.
    rewrite F1, F2 in Hr.
    assert (c.1.1 = 1 ∧ c.1.2 = 1) as [E1 E2] by lia. rewrite E1, E2 in Ht.
    assert (Hli : li = 0).
    { assert (Hr' : out_of_range m li 1 1 = false)
        by (unfold getTile in Ht; by destruct (out_of_range m li 1 1)).
      apply out_of_range_false in Hr'. lia. }
    subst li. change (getTile m 0 1 1) with (tile_at m start) in Ht.
    rewrite Hs in Ht. inversion Ht as [Ht']. by rewrite <- Ht' in Hsol. }
  rewrite (surjective_pairing (checkTileCollision p m)).
  by rewrite checkTileCollision_collided, Hnil.
Qed.

(** X24.  On a generated maze whose lattice has a second cell, [restart]
    puts the player on the Start tile, at the pixel (32,32) of tile (1,1),
    where it touches no wall; it sets health to 100 and score to 0, keeps the
    speed and the velocity, and resets the state to a running game. *)
Theorem restart_on_generated_maze
    (g : MazeGenerator) (rnd : list nat) (m : TileMap) (e : GameEngine) (p : Entity) :
  generate g rnd = Ok m →
  (5 ≤ mg_width g ∧ 3 ≤ mg_height g) ∨ (3 ≤ mg_width g ∧ 5 ≤ mg_height g) →
  tileMap e = Some m → the_player e = Some p →
  e_width p = 24%Q → e_height p = 24%Q →
  ∃ p', the_player (restart e) = Some p' ∧
        (e_x p' == 32)%Q ∧ (e_y p' == 32)%Q ∧ velocity p' = velocity p ∧
        worldToTile m (e_x p', e_y p') = start ∧
        checkTileCollision p' m = (false, []) ∧
        (∀ d, as_player p = Some d →
              as_player p' = Some {| health := 100; score := 0; speed := speed d |}) ∧
        state (restart e) = initialState true.
Proof.
  intros Hgen Hdim Hm Hp Hpw Hph.
  destruct (generate_start _ _ _ Hgen Hdim) as (Hs & Honly & Hw & Hh & Hts & _).
  unfold the_player in Hp. destruct (player e) as [i|] eqn:Ei; [|done]. simpl in Hp.
  exists (restart_player (Some m) p).
  assert (Hpos : restart_player (Some m) p =
    set_position (match as_player p with
                  | Some d => set_player p (Some {| health := 100; score := 0; speed := speed d |})
                  | None => p
                  end) (inject_Z 1 * 32)%Q (inject_Z 1 * 32)%Q).
  { unfold restart_player. rewrite (restart_rows m Hs Honly Hw Hh). by rewrite Hts. }
  split.
  { unfold the_player, restart. cbn [player with_state]. rewrite Ei.
    cbn [player entities with_entities with_state tileMap]. rewrite Hm.
    rewrite Ei. cbn [mbind option_bind]. by rewrite list_lookup_alter_eq, Hp. }
  rewrite Hpos. cbn [e_x e_y set_position velocity as_player].
  split; [reflexivity|]. split; [reflexivity|].
  split; [by destruct (as_player p)|].
  split; [unfold worldToTile; cbn [fst snd]; rewrite Hts; reflexivity|].
  split.
  { apply (start_is_free g rnd); try done; cbn [e_width e_height set_position];
      by destruct (as_player p). }
  split.
  { intros d Hd. by rewrite Hd. }
  unfold restart. cbn [player with_state]. rewrite Ei. done.
Qed.

(** [restart_on_generated_maze] on the sample engine. *)
Lemma restart_on_generated_maze_witness :
  generate sample_generator sample_random = Ok sample_maze ∧
  the_player sample_engine = Some (Player_new "player" 32 32 24 24) ∧
  ∃ p', the_player (restart sample_engine) = Some p' ∧ (e_x p' == 32)%Q.
Proof.
  assert (H : generate sample_generator sample_random = Ok sample_maze)
    by (vm_compute; reflexivity).
  assert (Hd : 5 ≤ 5 ∧ 3 ≤ 5 ∨ 3 ≤ 5 ∧ 5 ≤ 5) by lia.
  assert (Hm : tileMap sample_engine = Some sample_maze) by reflexivity.
  assert (Hp : the_player sample_engine = Some (Player_new "player" 32 32 24 24))
    by reflexivity.
  split; [exact H|]. split; [exact Hp|].
  destruct (restart_on_generated_maze sample_generator sample_random sample_maze
              sample_engine _ H Hd Hm Hp eq_refl eq_refl) as (p' & H1 & H2 & _).
  exists p'. split; [exact H1|exact H2].
Defined.

(** X25.  [initGame] never throws: for every random supply it generates a
    21 by 21 maze and returns a running engine that holds this maze and one
    entity, the player, a 24 by 24 [Player] with health 100 placed at the
    pixel (32,32) of the Start tile (1,1), where it touches no wall. *)
Theorem initGame_spawns_on_start (now : Q) (rnd : list nat) :
  ∃ m e p,
    generate {| mg_width := 21; mg_height := 21 |} rnd = Ok m ∧
    initGame now rnd = Ok e ∧
    tileMap e = Some m ∧ entities e = [p] ∧ the_player e = Some p ∧
    p = Player_new "player" (inject_Z 1 * 32) (inject_Z 1 * 32) 24 24 ∧
    worldToTile m (e_x p, e_y p) = start ∧
    checkTileCollision p m = (false, []) ∧
    running e = true ∧ paused e = false ∧ lastTime e = now ∧
    gameOver (state e) = false.
Proof.
  destruct (proj2 (generate_Ok_iff {| mg_width := 21; mg_height := 21 |} rnd))
    as [m Hgen].
  { apply carve_init_Ok_iff. simpl. lia. }
  assert (Hdim : (5 ≤ 21 ∧ 3 ≤ 21) ∨ (3 ≤ 21 ∧ 5 ≤ 21)) by lia.
  destruct (generate_start _ _ _ Hgen Hdim) as (Hs & Honly & Hw & Hh & Hts & _).
  exists m, (spawn_player (engine_init now GameEngine_new) m),
    (Player_new "player" (inject_Z 1 * 32) (inject_Z 1 * 32) 24 24).
  split; [done|].
  split; [unfold initGame; cbn [bind_result MazeGenerator_new]; by rewrite Hgen|].
  unfold spawn_player. rewrite (find_start_rows m Hs Honly Hw Hh), Hts. cbn [fst snd].
  repeat split; try done.
  - unfold worldToTile. cbn [fst snd e_x e_y Player_new]. by rewrite Hts.
  - by apply (start_is_free {| mg_width := 21; mg_height := 21 |} rnd).
Qed.

(** ** Inactive entities *)

#[global] Instance inert_refl : Reflexive inert.
Proof. intros e. by split. Qed.

#[global] Instance inert_trans : Transitive inert.
Proof.
  intros e1 e2 e3 [A12 H12] [A23 H23]. split; [congruence|].
  intros Ha. destruct (H12 Ha) as (X1 & Y1 & P1 & V1).
  assert (Ha2 : active e2 = false) by congruence.
  destruct (H23 Ha2) as (X2 & Y2 & P2 & V2).
  repeat split; try congruence.
  intros Hn. rewrite V2 by congruence. by apply V1.
Qed.

Section pointwise.

Context (R : relation Entity) {R_refl : Reflexive R} {R_trans : Transitive R}.

Lemma Forall2_fmap_step (f : Entity → Entity) es :
  (∀ e, R e (f e)) → Forall2 R es (f <$> es).
Proof. intros Hf. induction es; constructor; auto. Qed.

Lemma Forall2_alter_step (f : Entity → Entity) i es :
  (∀ e, R e (f e)) → Forall2 R es (alter f i es).
Proof.
  intros Hf. revert i. induction es as [|e es IH]; intros i; [constructor|].
  destruct i as [|i]; cbn [alter list_alter]; constructor.
  - apply Hf.
  - reflexivity.
  - reflexivity.
  - apply IH.
Qed.

Lemma foldl_step_inv {B} (f : list Entity → B → list Entity) (P : list Entity → Prop)
    (l : list B) :
  (∀ es b, P es → Forall2 R es (f es b) ∧ P (f es b)) →
  ∀ es, P es → Forall2 R es (foldl f es l).
Proof.
  intros Hf. induction l as [|b l IH]; intros es HP; [reflexivity|].
  simpl. destruct (Hf es b HP) as [H1 H2]. etrans; [exact H1|by apply IH].
Qed.

End pointwise.

Lemma resolveCollision_active a b :
  active (resolveCollision a b).1 = active a ∧ active (resolveCollision a b).2 = active b.
Proof.
  destruct (resolveCollision_evolves a b)
    as [[(_ & _ & _ & _ & Ha & _) _] [(_ & _ & _ & _ & Hb & _) _]].
  done.
Qed.

Lemma inert_active e e' : active e = true → active e' = active e → inert e e'.
Proof. intros Ha He. split; [done|]. intros Hf. congruence. Qed.

Lemma collide_pair_inert i j es :
  (∀ a, es !! i = Some a → active a = true) →
  Forall2 inert es (collide_pair i j es).
Proof.
  intros Hi. unfold collide_pair.
  destruct (es !! i) as [a|] eqn:Ei; [|reflexivity].
  destruct (es !! j) as [b|] eqn:Ej; [|reflexivity].
  destruct (negb (active b) || negb (e_solid b)) eqn:Eb; [reflexivity|].
  destruct (checkCollision a b); [|reflexivity].
  apply orb_false_iff in Eb as [Eb _]. apply negb_false_iff in Eb.
  destruct (resolveCollision_active a b) as [Ha Hb].
  pose proof (Hi a eq_refl) as Hact.
  apply Forall2_same_length_lookup. split; [by rewrite !length_insert|].
  intros n x y Hx Hy.
  pose proof (lookup_lt_Some _ _ _ Ei). pose proof (lookup_lt_Some _ _ _ Ej).
  destruct (decide (n = j)) as [-> |Hnj].
  - rewrite list_lookup_insert_eq in Hy by (by rewrite length_insert).
    assert (x = b) as -> by congruence. assert (y = (resolveCollision a b).2) as -> by congruence.
    by apply inert_active.
  - rewrite list_lookup_insert_ne in Hy by done.
    destruct (decide (n = i)) as [-> |Hni].
    + rewrite list_lookup_insert_eq in Hy by done.
      assert (x = a) as -> by congruence.
      assert (y = (resolveCollision a b).1) as -> by congruence.
      by apply inert_active.
    + rewrite list_lookup_insert_ne in Hy by done.
      assert (x = y) as -> by congruence. reflexivity.
Qed.

Lemma collide_all_inert es : Forall2 inert es (collide_all es).
Proof.
  unfold collide_all.
  apply (foldl_step_inv inert _ (λ _, True)); [|done].
  intros es' i _. split; [|done]. unfold collide_from.
  destruct (es' !! i) as [a|] eqn:Ei; [|reflexivity].
  destruct (negb (active a) || negb (e_solid a)) eqn:Ea; [reflexivity|].
  apply orb_false_iff in Ea as [Ea _]. apply negb_false_iff in Ea.
  apply (foldl_step_inv inert _ (λ l, ∀ x, l !! i = Some x → active x = true)).
  - intros l j Hl. pose proof (collide_pair_inert i j l Hl) as Hstep.
    split; [exact Hstep|]. intros x Hx.
    destruct (Forall2_lookup_r _ _ _ _ _ Hstep Hx) as (x0 & Hx0 & [Hact _]).
    rewrite Hact. by apply Hl.
  - intros x Hx. congruence.
Qed.

Lemma move_inert d e : inert e (move d e).
Proof.
  unfold move. destruct (as_player e) eqn:E; [|reflexivity].
  split; [done|]. intros _. repeat split; try done. intros Hn. congruence.
Qed.

Lemma resolveTileCollision_inert m e :
  inert e (if active e && e_solid e then resolveTileCollision e m else e).
Proof.
  destruct (active e) eqn:Ea; [|reflexivity]. simpl.
  destruct (e_solid e); [|reflexivity].
  apply inert_active; [done|].
  destruct (resolveTileCollision_evolves e m) as [(_ & _ & _ & _ & Ha & _) _].
  congruence.
Qed.

Lemma step_entities_inert m pl dt d es : Forall2 inert es (step_entities m pl dt d es).
Proof.
  unfold step_entities.
  etrans; [|apply collide_all_inert].
  assert (H1 : Forall2 inert es
                 (match pl with Some i => alter (move d) i es | None => es end)).
  { destruct pl; [|reflexivity]. apply (Forall2_alter_step inert). apply move_inert. }
  etrans; [exact H1|].
  generalize (match pl with Some i => alter (move d) i es | None => es end).
  intros es1.
  assert (H2 : Forall2 inert es1 ((λ e, if active e then entity_update dt e else e) <$> es1)).
  { apply (Forall2_fmap_step inert). intros e.
    destruct (active e) eqn:Ea; [|reflexivity]. by apply inert_active. }
  etrans; [exact H2|].
  generalize ((λ e, if active e then entity_update dt e else e) <$> es1). intros es2.
  destruct m as [m|]; [|reflexivity].
  apply (Forall2_fmap_step inert). intros e. apply resolveTileCollision_inert.
Qed.

(** X26.  Over any sequence of frames an inactive entity stays inactive and
    is left where it is: its position and its player data do not change (it
    is not advanced, not pushed out of tiles and takes part in no entity
    collision), and its velocity is kept unless it is a [Player].  Active
    entities stay active. *)
Theorem run_frames_inert (fs : list Frame) (g : GameEngine) :
  sized g → Forall2 inert (entities g) (entities (run_frames fs g)).
Proof.
  intros _. rewrite run_frames_entities. unfold play.
  apply (foldl_step_inv inert _ (λ _, True)); [|done].
  intros es d _. split; [apply step_entities_inert|done].
Qed.

(** [run_frames_inert] on the sample engine with the right arrow held for
    two frames. *)
Lemma run_frames_inert_witness :
  sized sample_engine ∧
  Forall2 inert (entities sample_engine)
          (entities (run_frames two_short_frames sample_engine)).
Proof.
  assert (Hs : sized sample_engine) by (vm_compute; discriminate).
  split; [exact Hs|]. exact (run_frames_inert two_short_frames sample_engine Hs).
Defined.

(** ** The player's movement *)

(** X27.  [move] followed by [update] displaces a player by its speed times
    the elapsed seconds along the unit vector of the direction, and by
    nothing for NONE; [move] forgets the velocity set by an earlier
    [move]. *)
Theorem move_then_update (p : Entity) (d : PlayerData) (dir dir' : Direction) (dt : Q) :
  as_player p = Some d →
  let p' := entity_update dt (move dir p) in
  (e_x p' == e_x p + (dir_vector dir).1 * speed d * (dt / 1000))%Q ∧
  (e_y p' == e_y p + (dir_vector dir).2 * speed d * (dt / 1000))%Q ∧
  move dir (move dir' p) = move dir p.
Proof.
  intros Hd. cbv zeta. unfold entity_update, move. rewrite Hd.
  cbn [as_player set_velocity]. rewrite Hd.
  split; [|split]; [| |done];
    destruct dir; cbn [e_x e_y set_position set_velocity velocity fst snd dir_vector]; ring.
Qed.

(** [move_then_update] on a new player steered right for one physics step of
    1000/60 ms: it advances by 2.5 pixels. *)
Lemma move_then_update_witness :
  (e_x (entity_update frameTime (move RIGHT (Player_new "player" 32 32 24 24))) == 69 # 2)%Q.
Proof.
  rewrite (proj1 (move_then_update (Player_new "player" 32 32 24 24) _ RIGHT NONE
                    frameTime eq_refl)).
  reflexivity.
Defined.

(** ** The flags of the state *)

Lemma run_frame_flags g f :
  running (run_frame g f) = running g ∧ paused (run_frame g f) = paused g.
Proof.
  unfold run_frame, gameLoop. cbn [running paused with_input].
  destruct (running g) eqn:Er; [|done]. cbn [negb].
  destruct (paused g) eqn:Ep; [done|]. cbn [negb].
  match goal with |- context [physics_loop ?n ?x] =>
    destruct (physics_loop_frame n x) as (_ & _ & _ & -> & -> & _) end.
  done.
Qed.

(** X28.  The running and paused flags of the state mirror those of the
    engine: this holds for a new engine and is kept by [start], [pause],
    [resume], [stop] and by any sequence of frames.  [restart] sets the flags
    of the state to running and not paused whatever the engine is doing, so
    after it they agree exactly when the engine is running and not paused. *)
Theorem flags_agree_kept (g : GameEngine) (fs : list Frame) (now : Q) :
  flags_agree g → sized g →
  flags_agree GameEngine_new ∧ flags_agree (engine_start g) ∧
  flags_agree (engine_pause g) ∧ flags_agree (engine_resume now g) ∧
  flags_agree (engine_stop g) ∧ flags_agree (run_frames fs g) ∧
  (flags_agree (restart g) ↔ running g = true ∧ paused g = false).
Proof.
  intros [Hr Hp] _. unfold flags_agree.
  split; [done|].
  split; [unfold engine_start; destruct (running g) eqn:E; simpl; rewrite ?E; split; congruence|].
  split; [done|].
  split; [unfold engine_resume; destruct (running g) eqn:E; simpl; rewrite ?E; split; congruence|].
  split; [done|].
  split.
  - revert g Hr Hp. induction fs as [|f fs IH]; intros g Hr Hp; [done|].
    change (run_frames (f :: fs) g) with (run_frames fs (run_frame g f)).
    pose proof (run_frame_state g f) as Hs. cbv zeta in Hs.
    destruct Hs as (_ & _ & Hsr & Hsp & _).
    destruct (run_frame_flags g f) as [Hfr Hfp].
    apply IH; congruence.
  - destruct (restart_frame g) as (_ & _ & _ & _ & -> & -> & _).
    unfold restart. cbn [player with_state].
    destruct (player g); cbn [state with_entities with_state initialState gs_running gs_paused];
      split; intros [? ?]; done.
Qed.

(** [flags_agree_kept] on the sample engine: after [pause] and [restart] the
    state says not paused while the engine is paused. *)
Lemma flags_agree_kept_witness :
  flags_agree (engine_pause sample_engine) ∧ sized (engine_pause sample_engine) ∧
  ¬ flags_agree (restart (engine_pause sample_engine)).
Proof.
  assert (Ha : flags_agree (engine_pause sample_engine)) by (split; reflexivity).
  assert (Hs : sized (engine_pause sample_engine)) by (vm_compute; discriminate).
  split; [exact Ha|]. split; [exact Hs|].
  intros H.
  apply (proj2 (proj2 (proj2 (proj2 (proj2 (proj2
           (flags_agree_kept (engine_pause sample_engine) [] 0 Ha Hs))))))) in H.
  destruct H as [_ H]. discriminate H.
Defined.

(** ** Bodies settled by one call of [resolveTileCollision] *)

Section tile_geometry.

Context (ts : Q) (Hts : (0 < ts)%Q).





End tile_geometry.
















